(** * pg_dump_splitter: the parser of [src/parser.ts], embedded and verified

  The development follows the TypeScript source function by function:
  the string primitives of the JavaScript runtime that the parser calls,
  a backtracking regular-expression matcher with capture groups (the
  semantics of [RegExp.prototype.exec]), the pattern table of the
  classifier, the statement tokenizer [splitIntoStatements], the
  classifier [parseStatement], the attachment engine and [parse].

  Strings.  A JavaScript string is a sequence of UTF-16 code units.  Here a
  string is a [list ascii]: a string all of whose code units lie in
  U+0000..U+00FF.  On that domain the Unicode classes used by the patterns
  ([\s], [\p{L}], [\p{N}], case folding of the ASCII keywords) are finite
  and are written out below. *)

From Stdlib Require Import Ascii String.
From stdpp Require Import base list strings gmap.

Abbreviation str := (list ascii).

(** A string literal of the source. *)
Definition lit (s : string) : str := list_ascii_of_string s.

(* ================================================================== *)
(** * Characters *)

Module Char.

Definition code (c : ascii) : nat := nat_of_ascii c.

Definition between (lo hi : nat) (c : ascii) : bool :=
  (lo <=? code c) && (code c <=? hi).

Definition has_code (n : nat) (c : ascii) : bool := code c =? n.

Definition LF : ascii := ascii_of_nat 10.
Definition CR : ascii := ascii_of_nat 13.
Definition TAB : ascii := ascii_of_nat 9.
Definition DQUOTE : ascii := ascii_of_nat 34.
Definition SQUOTE : ascii := ascii_of_nat 39.
Definition BACKSLASH : ascii := ascii_of_nat 92.

(** [\s] of a JavaScript pattern, and the characters [String.prototype.trim]
    removes (WhiteSpace and LineTerminator), below U+0100:
    TAB, LF, VT, FF, CR, SPACE and NO-BREAK SPACE. *)
Definition is_space (c : ascii) : bool :=
  between 9 13 c || has_code 32 c || has_code 160 c.

(** [\p{L}] below U+0100. *)
Definition is_L (c : ascii) : bool :=
  between 65 90 c || between 97 122 c || has_code 170 c || has_code 181 c || has_code 186 c
  || between 192 214 c || between 216 246 c || between 248 255 c.

(** [\p{N}] below U+0100. *)
Definition is_N (c : ascii) : bool :=
  between 48 57 c || has_code 178 c || has_code 179 c || has_code 185 c || between 188 190 c.

(** Line terminators, which [.] does not match without the [s] flag. *)
Definition is_line_terminator (c : ascii) : bool := has_code 10 c || has_code 13 c.

(** Canonicalisation of the [i] flag for the ASCII letters of a pattern. *)
Definition lower (c : ascii) : ascii :=
  if between 65 90 c then ascii_of_nat (code c + 32) else c.

Definition eqb_ci (p c : ascii) : bool := Ascii.eqb (lower p) (lower c).

End Char.

(* ================================================================== *)
(** * String primitives of the runtime *)

Module JS.

(** [s.slice(a, b)] for [0 <= a], [0 <= b]: empty when [b <= a]. *)
Definition slice (a b : nat) (s : str) : str := take (b - a) (drop a s).

(** [s.slice(a)]. *)
Definition slice_from (a : nat) (s : str) : str := drop a s.

Fixpoint starts_with (needle s : str) : bool :=
  match needle, s with
  | [], _ => true
  | _ :: _, [] => false
  | a :: needle', b :: s' => Ascii.eqb a b && starts_with needle' s'
  end.

(** First index [k >= i] at which [needle] occurs, scanning the suffix
    [s] that starts at index [i]. *)
Fixpoint find_from (needle s : str) (i : nat) : option nat :=
  if starts_with needle s then Some i
  else match s with
       | [] => None
       | _ :: s' => find_from needle s' (S i)
       end.

(** [s.indexOf(needle, from)]; [None] is the result [-1]. *)
Definition indexOf (needle s : str) (from : nat) : option nat :=
  let start := from `min` length s in
  find_from needle (drop start s) start.

(** Largest index [k < n] with [s[k] = c], looking at the first [n]
    characters of [s]. *)
Fixpoint rfind (c : ascii) (s : str) (n : nat) : option nat :=
  match n with
  | 0 => None
  | S k => match s !! k with
           | Some a => if Ascii.eqb a c then Some k else rfind c s k
           | None => rfind c s k
           end
  end.

(** [s.lastIndexOf(c)] for a one-character [c]. *)
Definition lastIndexOf (c : ascii) (s : str) : option nat :=
  rfind c s (length s).

(** [s.lastIndexOf(c, position)] where [position] is itself the result of
    an index search: the result [-1] is clamped to position 0 by the
    runtime, so that only index 0 is inspected. *)
Definition lastIndexOf_at (c : ascii) (s : str) (position : option nat)
  : option nat :=
  match position with
  | Some p => rfind c s (S p)
  | None => rfind c s 1
  end.

Fixpoint drop_while (p : ascii -> bool) (s : str) : str :=
  match s with
  | [] => []
  | c :: s' => if p c then drop_while p s' else s
  end.

Definition trimStart (s : str) : str := drop_while Char.is_space s.
Definition trimEnd (s : str) : str :=
  rev (drop_while Char.is_space (rev s)).
Definition trim (s : str) : str := trimStart (trimEnd s).

(** [s.split(c)] for a one-character separator. *)
Fixpoint split (c : ascii) (s : str) : list str :=
  match s with
  | [] => [[]]
  | a :: s' =>
      if Ascii.eqb a c then [] :: split c s'
      else match split c s' with
           | [] => [[a]]
           | w :: ws => (a :: w) :: ws
           end
  end.

(** [l.join(sep)]. *)
Fixpoint join (sep : str) (l : list str) : str :=
  match l with
  | [] => []
  | [x] => x
  | x :: l' => x ++ sep ++ join sep l'
  end.

(** Truthiness of a string: the empty string is falsy. *)
Definition truthy (s : str) : bool :=
  match s with [] => false | _ => true end.

End JS.

(* ================================================================== *)
(** * Regular expressions

  The matcher follows the backtracking semantics of the language
  specification: a pattern is compiled to a function that takes the
  current position, the captures so far and a continuation; alternatives
  are tried left to right, quantifiers are greedy, and an iteration of [*]
  that consumes nothing is rejected. *)

Module Regex.

Inductive regex : Type :=
| Eps                         (* the empty pattern *)
| Chr (p : ascii -> bool)      (* one character: a literal, a class or [.] *)
| Cat (r1 r2 : regex)         (* r1 r2 *)
| Alt (r1 r2 : regex)         (* r1|r2 *)
| Star (r : regex)            (* r*  *)
| Group (n : nat) (r : regex) (* capture group number n *)
| Bol                         (* ^ without the m flag *)
| Eol                         (* $ without the m flag *)
| Look (r : regex).           (* (?=r) *)

Definition Plus (r : regex) : regex := Cat r (Star r).   (* r+ *)
Definition Opt (r : regex) : regex := Alt r Eps.         (* r? *)
Definition AtLeast2 (r : regex) : regex := Cat r (Cat r (Star r)). (* r{2,} *)

(** Captures: group number, start and end index; the newest binding of a
    group is the first in the list. *)
Definition captures : Type := list (nat * (nat * nat)).

Definition answer : Type := (nat * captures)%type.

(** The iteration of [r*]: [body] matches [r] once.  Every iteration
    consumes at least one character, so the fuel [S (length s - i)] given
    by [rmatch] is never used up. *)
Fixpoint star_loop
    (body : nat -> captures -> (nat -> captures -> option answer) -> option answer)
    (k : nat -> captures -> option answer)
    (fuel : nat) (i : nat) (c : captures) : option answer :=
  match fuel with
  | 0 => k i c
  | S fuel' =>
      match body i c (fun j c' => if j =? i then None else star_loop body k fuel' j c') with
      | Some a => Some a
      | None => k i c
      end
  end.

Fixpoint rmatch (r : regex) (s : str) (i : nat) (c : captures)
    (k : nat -> captures -> option answer) {struct r} : option answer :=
  match r with
  | Eps => k i c
  | Chr p =>
      match s !! i with
      | Some a => if p a then k (S i) c else None
      | None => None
      end
  | Cat r1 r2 => rmatch r1 s i c (fun j c' => rmatch r2 s j c' k)
  | Alt r1 r2 =>
      match rmatch r1 s i c k with
      | Some a => Some a
      | None => rmatch r2 s i c k
      end
  | Star r1 =>
      star_loop (fun i' c' k' => rmatch r1 s i' c' k') k (S (length s - i)) i c
  | Group n r1 => rmatch r1 s i c (fun j c' => k j ((n, (i, j)) :: c'))
  | Bol => if i =? 0 then k i c else None
  | Eol => if i =? length s then k i c else None
  | Look r1 =>
      match rmatch r1 s i c (fun j c' => Some (j, c')) with
      | Some (_, c') => k i c'
      | None => None
      end
  end.

(** The language of a pattern: [matches s r i j] when [r] matches the
    characters of [s] from index [i] up to index [j]. *)
Inductive matches (s : str) : regex -> nat -> nat -> Prop :=
| matches_Eps i : matches s Eps i i
| matches_Chr p i a :
    s !! i = Some a -> p a = true -> matches s (Chr p) i (S i)
| matches_Cat r1 r2 i j l :
    matches s r1 i j -> matches s r2 j l -> matches s (Cat r1 r2) i l
| matches_Alt_l r1 r2 i j : matches s r1 i j -> matches s (Alt r1 r2) i j
| matches_Alt_r r1 r2 i j : matches s r2 i j -> matches s (Alt r1 r2) i j
| matches_Star_stop r i : matches s (Star r) i i
| matches_Star_more r i j l :
    matches s r i j -> matches s (Star r) j l -> matches s (Star r) i l
| matches_Group n r i j : matches s r i j -> matches s (Group n r) i j
| matches_Bol : matches s Bol 0 0
| matches_Eol : matches s Eol (length s) (length s)
| matches_Look r i j : matches s r i j -> matches s (Look r) i i.

(** The same with the captures: [matches_with s r i c j c'] when [r] matches
    from [i] to [j] and turns the captures [c] into [c']. *)
Inductive matches_with (s : str)
  : regex -> nat -> captures -> nat -> captures -> Prop :=
| with_Eps i c : matches_with s Eps i c i c
| with_Chr p i a c :
    s !! i = Some a -> p a = true -> matches_with s (Chr p) i c (S i) c
| with_Cat r1 r2 i j l c c1 c2 :
    matches_with s r1 i c j c1 -> matches_with s r2 j c1 l c2 ->
    matches_with s (Cat r1 r2) i c l c2
| with_Alt_l r1 r2 i j c c1 :
    matches_with s r1 i c j c1 -> matches_with s (Alt r1 r2) i c j c1
| with_Alt_r r1 r2 i j c c1 :
    matches_with s r2 i c j c1 -> matches_with s (Alt r1 r2) i c j c1
| with_Star_stop r i c : matches_with s (Star r) i c i c
| with_Star_more r i j l c c1 c2 :
    matches_with s r i c j c1 -> matches_with s (Star r) j c1 l c2 ->
    matches_with s (Star r) i c l c2
| with_Group n r i j c c1 :
    matches_with s r i c j c1 ->
    matches_with s (Group n r) i c j ((n, (i, j)) :: c1)
| with_Bol c : matches_with s Bol 0 c 0 c
| with_Eol c : matches_with s Eol (length s) c (length s) c
| with_Look r i j c c1 :
    matches_with s r i c j c1 -> matches_with s (Look r) i c i c1.

(** A pattern without capture groups. *)
Fixpoint group_free (r : regex) : bool :=
  match r with
  | Eps | Chr _ | Bol | Eol => true
  | Cat r1 r2 | Alt r1 r2 => group_free r1 && group_free r2
  | Star r1 | Look r1 => group_free r1
  | Group _ _ => false
  end.

(** The result of a successful [exec]: [m_index] is [match.index],
    [m_end] is [match.index + match[0].length]. *)
Record MatchResult : Type := {
  m_input : str;
  m_index : nat;
  m_end : nat;
  m_groups : captures
}.

Definition match_at (r : regex) (s : str) (i : nat) : option MatchResult :=
  match rmatch r s i [] (fun j c => Some (j, c)) with
  | Some (j, c) =>
      Some {| m_input := s; m_index := i; m_end := j; m_groups := c |}
  | None => None
  end.

(** The search of [exec] from index [i]: the first start index at which
    the pattern matches; [n] counts the start indices left to try. *)
Fixpoint search (r : regex) (s : str) (n : nat) (i : nat)
  : option MatchResult :=
  match n with
  | 0 => None
  | S n' =>
      match match_at r s i with
      | Some m => Some m
      | None => search r s n' (S i)
      end
  end.

(** [r.exec(s)] started at [lastIndex = from]. *)
Definition exec_from (r : regex) (s : str) (from : nat)
  : option MatchResult :=
  search r s (S (length s - from)) from.

(** [r.exec(s)] for a pattern without the [g] and [y] flags. *)
Definition exec (r : regex) (s : str) : option MatchResult :=
  exec_from r s 0.

(** [r.test(s)]. *)
Definition test (r : regex) (s : str) : bool :=
  match exec r s with Some _ => true | None => false end.

(** [match[0]]. *)
Definition whole (m : MatchResult) : str :=
  JS.slice (m_index m) (m_end m) (m_input m).

Fixpoint capture_of (n : nat) (c : captures) : option (nat * nat) :=
  match c with
  | [] => None
  | (n', span) :: c' => if n' =? n then Some span else capture_of n c'
  end.

(** [match[n]] for [n >= 1]; [None] is [undefined]. *)
Definition group (m : MatchResult) (n : nat) : option str :=
  match capture_of n (m_groups m) with
  | Some (a, b) => Some (JS.slice a b (m_input m))
  | None => None
  end.

(** [s.replace(r, f)] for a pattern without the [g] flag: the first match
    is replaced by [f match[0]]. *)
Definition replace_first (r : regex) (f : str -> str) (s : str) : str :=
  match exec r s with
  | Some m => take (m_index m) s ++ f (whole m) ++ drop (m_end m) s
  | None => s
  end.

(** [s.replace(r, f)] for a pattern with the [g] flag: [from] is
    [lastIndex], [copied] the index up to which [s] has been emitted. An
    empty match advances [lastIndex] by one. *)
Fixpoint replace_loop (r : regex) (f : str -> str) (s : str)
    (fuel : nat) (from copied : nat) : str :=
  match fuel with
  | 0 => drop copied s
  | S fuel' =>
      match exec_from r s from with
      | None => drop copied s
      | Some m =>
          JS.slice copied (m_index m) s ++ f (whole m)
          ++ replace_loop r f s fuel'
               (if m_end m =? m_index m then S (m_end m) else m_end m)
               (m_end m)
      end
  end.

Definition replace_all (r : regex) (f : str -> str) (s : str) : str :=
  replace_loop r f s (S (length s)) 0 0.

(** ** Pattern combinators *)

Definition chr (a : ascii) : regex := Chr (Ascii.eqb a).

(** A literal under the [i] flag. *)
Fixpoint kw_chars (l : str) : regex :=
  match l with
  | [] => Eps
  | [a] => Chr (Char.eqb_ci a)
  | a :: l' => Cat (Chr (Char.eqb_ci a)) (kw_chars l')
  end.
Definition kw (s : string) : regex := kw_chars (lit s).

(** A literal without the [i] flag. *)
Fixpoint literal (l : str) : regex :=
  match l with
  | [] => Eps
  | [a] => chr a
  | a :: l' => Cat (chr a) (literal l')
  end.

Fixpoint seq (rs : list regex) : regex :=
  match rs with
  | [] => Eps
  | [r] => r
  | r :: rs' => Cat r (seq rs')
  end.

Definition ws1 : regex := Plus (Chr Char.is_space).   (* \s+ *)
Definition ws0 : regex := Star (Chr Char.is_space).   (* \s* *)
Definition any_char : regex := Chr (fun _ => true).   (* . with the s flag *)
Definition dot : regex :=                             (* . *)
  Chr (fun c => negb (Char.is_line_terminator c)).

End Regex.

(* ================================================================== *)
(** * The data model of the parser *)

Inductive DatabaseObjectType : Type :=
| schema | extension | type | domain | function | procedure | table | view.

(** [BaseParser.type]: an object type or one of the three attachable kinds. *)
Inductive ParserType : Type :=
| object_type (t : DatabaseObjectType)
| sequence
| constraint
| index.

(** The fields every parsed statement has.  [name] is [None] when the
    capture group it is read from did not take part in the match (the index
    name of [CREATE INDEX ON ...]). *)
Record BaseParsedStatement : Type := {
  ps_schema : str;
  ps_name : option str;
  ps_definition : str;
  ps_residual : option str
}.

Record SequenceParsedStatement : Type := {
  sq_base : BaseParsedStatement;
  sq_qualifiedName : str;
  sq_tableSchema : str;
  sq_table : str;
  sq_column : str
}.

Record ConstraintParsedStatement : Type := {
  ct_base : BaseParsedStatement;
  ct_qualifiedName : str;
  ct_table : str
}.

Record IndexParsedStatement : Type := {
  ix_base : BaseParsedStatement;
  ix_qualifiedName : str;
  ix_table : str
}.

(** [AttachableParsedStatement]: the union of the three attachable
    statement types. *)
Inductive AttachableParsedStatement : Type :=
| of_sequence (s : SequenceParsedStatement)
| of_constraint (c : ConstraintParsedStatement)
| of_index (i : IndexParsedStatement).

Inductive ParsedStatement : Type :=
| GeneralParsedStatement (t : DatabaseObjectType) (qualifiedName : str)
    (b : BaseParsedStatement)
| SchemaParsedStatement (b : BaseParsedStatement)
| Attachable (a : AttachableParsedStatement).

Definition at_base (a : AttachableParsedStatement) : BaseParsedStatement :=
  match a with
  | of_sequence s => sq_base s
  | of_constraint c => ct_base c
  | of_index i => ix_base i
  end.

Definition at_type (a : AttachableParsedStatement) : ParserType :=
  match a with
  | of_sequence _ => sequence
  | of_constraint _ => constraint
  | of_index _ => index
  end.

Definition at_table (a : AttachableParsedStatement) : str :=
  match a with
  | of_sequence s => sq_table s
  | of_constraint c => ct_table c
  | of_index i => ix_table i
  end.

Definition at_qualifiedName (a : AttachableParsedStatement) : str :=
  match a with
  | of_sequence s => sq_qualifiedName s
  | of_constraint c => ct_qualifiedName c
  | of_index i => ix_qualifiedName i
  end.

Definition at_schema (a : AttachableParsedStatement) : str :=
  ps_schema (at_base a).

Definition at_definition (a : AttachableParsedStatement) : str :=
  ps_definition (at_base a).

Definition base (p : ParsedStatement) : BaseParsedStatement :=
  match p with
  | GeneralParsedStatement _ _ b | SchemaParsedStatement b => b
  | Attachable a => at_base a
  end.

Definition statement_type (p : ParsedStatement) : ParserType :=
  match p with
  | GeneralParsedStatement t _ _ => object_type t
  | SchemaParsedStatement _ => object_type schema
  | Attachable a => at_type a
  end.

Definition statement_qualifiedName (p : ParsedStatement) : option str :=
  match p with
  | GeneralParsedStatement _ q _ => Some q
  | SchemaParsedStatement _ => None
  | Attachable a => Some (at_qualifiedName a)
  end.

(** One entry of [AttachablesByTable]. *)
Record TableAttachables : Type := {
  sequences : list SequenceParsedStatement;
  constraints : list ConstraintParsedStatement;
  indexes : list IndexParsedStatement
}.

Record DatabaseObject : Type := {
  o_type : DatabaseObjectType;
  o_schema : str;
  o_name : option str;
  o_qualifiedName : option str;
  o_definition : str;
  o_sequences : option (list str);
  o_constraints : option (list str);
  o_indexes : option (list str)
}.

Record ParsedResult : Type := {
  objects : list DatabaseObject;
  residual : str
}.

Definition DEFAULT_SCHEMA : str := lit "public".

(** A value interpolated in a template literal: [undefined] prints as the
    word. *)
Definition interpolate (v : option str) : str :=
  match v with Some s => s | None => lit "undefined" end.

(** [`${schema}.${name}`] *)
Definition makeQualifiedName (schema : str) (name : option str) : str :=
  schema ++ lit "." ++ interpolate name.

(** [v ?? DEFAULT_SCHEMA]. *)
Definition or_default (v : option str) : str :=
  match v with Some s => s | None => DEFAULT_SCHEMA end.

(* ================================================================== *)
(** * The patterns of the source *)

(** In the comments that quote a pattern of the source, [DQ] stands for the
    double-quote character, [ID] for [IDENTIFIER_PATTERN], [SQO] for
    [SCHEMA_QUALIFIED_OBJECT_PATTERN], and a blank is written between a star
    and a closing parenthesis that follows it. *)
Module Patterns.
Import Regex.

Definition underscore : ascii := "_"%char.
Definition dollar : ascii := "$"%char.

Definition ident_start (c : ascii) : bool :=        (* [_\p{L}] *)
  Ascii.eqb c underscore || Char.is_L c.
Definition ident_part (c : ascii) : bool :=         (* [_\p{L}\p{N}$] *)
  Ascii.eqb c underscore || Char.is_L c || Char.is_N c || Ascii.eqb c dollar.
Definition not_dquote (c : ascii) : bool :=         (* [^DQ] *)
  negb (Ascii.eqb c Char.DQUOTE).

(** [(?:[_\p{L}][_\p{L}\p{N}$]*|DQ(?:[^DQ]|DQDQ)+DQ)] *)
Definition IDENTIFIER_PATTERN : regex :=
  Alt (Cat (Chr ident_start) (Star (Chr ident_part)))
      (seq [chr Char.DQUOTE;
            Plus (Alt (Chr not_dquote) (Cat (chr Char.DQUOTE) (chr Char.DQUOTE)));
            chr Char.DQUOTE]).

(** [(?:(ID)\.)?(ID)]; the two capture groups are numbered by the pattern
    that contains them. *)
Definition SCHEMA_QUALIFIED_OBJECT_PATTERN (g_schema g_name : nat) : regex :=
  Cat (Opt (Cat (Group g_schema IDENTIFIER_PATTERN) (chr ".")))
      (Group g_name IDENTIFIER_PATTERN).

(** [CREATE\s+SCHEMA\s+(ID)], flags [iu]. *)
Definition SchemaParser_regex : regex :=
  seq [kw "CREATE"; ws1; kw "SCHEMA"; ws1; Group 1 IDENTIFIER_PATTERN].

(** [CREATE\s+EXTENSION\s+(?:IF\s+NOT\s+EXISTS\s+)?(ID)(?:(?:\s+WITH)?(?:\s+SCHEMA)?\s+(ID))?],
    flags [iu]. *)
Definition ExtensionParser_regex : regex :=
  seq [kw "CREATE"; ws1; kw "EXTENSION"; ws1;
       Opt (seq [kw "IF"; ws1; kw "NOT"; ws1; kw "EXISTS"; ws1]);
       Group 1 IDENTIFIER_PATTERN;
       Opt (seq [Opt (Cat ws1 (kw "WITH")); Opt (Cat ws1 (kw "SCHEMA")); ws1;
                 Group 2 IDENTIFIER_PATTERN])].

(** [CREATE\s+<KEYWORD>\s+SQO], flags [iu]: types, domains, functions and
    procedures. *)
Definition create_regex (keyword : string) : regex :=
  seq [kw "CREATE"; ws1; kw keyword; ws1; SCHEMA_QUALIFIED_OBJECT_PATTERN 1 2].

Definition TypeParser_regex : regex := create_regex "TYPE".
Definition DomainParser_regex : regex := create_regex "DOMAIN".
Definition FunctionParser_regex : regex := create_regex "FUNCTION".
Definition ProcedureParser_regex : regex := create_regex "PROCEDURE".

(** [CREATE\s+(?:UNLOGGED\s+)?TABLE\s+SQO], flags [iu]. *)
Definition TableParser_regex : regex :=
  seq [kw "CREATE"; ws1; Opt (Cat (kw "UNLOGGED") ws1); kw "TABLE"; ws1;
       SCHEMA_QUALIFIED_OBJECT_PATTERN 1 2].

Definition not_semicolon (c : ascii) : bool := negb (Ascii.eqb c ";").

(** [ALTER\s+TABLE\s+(?:ONLY\s+)?SQO\s+ALTER\s+(?:COLUMN\s+)?(ID)\s+ADD\s+]
    [GENERATED\s+(?:ALWAYS|BY\s+DEFAULT)\s+AS\s+IDENTITY\s+]
    [\(\s*SEQUENCE\s+NAME\s+SQO.*\)\s*;[^;]*$], flags [isu]. *)
Definition SequenceParser_regex : regex :=
  seq [kw "ALTER"; ws1; kw "TABLE"; ws1; Opt (Cat (kw "ONLY") ws1);
       SCHEMA_QUALIFIED_OBJECT_PATTERN 1 2;
       ws1; kw "ALTER"; ws1; Opt (Cat (kw "COLUMN") ws1);
       Group 3 IDENTIFIER_PATTERN; ws1; kw "ADD"; ws1;
       kw "GENERATED"; ws1;
       Alt (kw "ALWAYS") (seq [kw "BY"; ws1; kw "DEFAULT"]); ws1;
       kw "AS"; ws1; kw "IDENTITY"; ws1;
       chr "("; ws0; kw "SEQUENCE"; ws1; kw "NAME"; ws1;
       SCHEMA_QUALIFIED_OBJECT_PATTERN 4 5; Star any_char; chr ")"; ws0;
       chr ";"; Star (Chr not_semicolon); Eol].

(** [CREATE\s+(?:RECURSIVE\s+|MATERIALIZED\s+)?VIEW\s+SQO], flags [iu]. *)
Definition ViewParser_regex : regex :=
  seq [kw "CREATE"; ws1;
       Opt (Alt (Cat (kw "RECURSIVE") ws1) (Cat (kw "MATERIALIZED") ws1));
       kw "VIEW"; ws1; SCHEMA_QUALIFIED_OBJECT_PATTERN 1 2].

(** [ALTER\s+TABLE\s+(?:ONLY\s+)?SQO\s+ADD\s+CONSTRAINT\s+(ID)], flags [iu]. *)
Definition ConstraintParser_regex : regex :=
  seq [kw "ALTER"; ws1; kw "TABLE"; ws1; Opt (Cat (kw "ONLY") ws1);
       SCHEMA_QUALIFIED_OBJECT_PATTERN 1 2;
       ws1; kw "ADD"; ws1; kw "CONSTRAINT"; ws1; Group 3 IDENTIFIER_PATTERN].

(** [CREATE\s+(?:UNIQUE\s+)?INDEX\s+(?:(ID)\s+)?ON\s+(?:ONLY\s+)?SQO],
    flags [iu]. *)
Definition IndexParser_regex : regex :=
  seq [kw "CREATE"; ws1; Opt (Cat (kw "UNIQUE") ws1); kw "INDEX"; ws1;
       Opt (Cat (Group 1 IDENTIFIER_PATTERN) ws1);
       kw "ON"; ws1; Opt (Cat (kw "ONLY") ws1);
       SCHEMA_QUALIFIED_OBJECT_PATTERN 2 3].

(** [CREATE\s+(?:UNLOGGED\s+)?TABLE\s+SQO\s*(?=\()], flags [iu]. *)
Definition TABLE_HEADER_REGEX : regex :=
  seq [kw "CREATE"; ws1; Opt (Cat (kw "UNLOGGED") ws1); kw "TABLE"; ws1;
       SCHEMA_QUALIFIED_OBJECT_PATTERN 1 2; ws0; Look (chr "(")].

(** [ALTER\s+TABLE\s+(?:ONLY\s+)?SQO\s+ALTER\s+(?:COLUMN\s+)?ID\s+ADD\s+],
    flags [iu]. *)
Definition SEQUENCE_HEADER_REGEX : regex :=
  seq [kw "ALTER"; ws1; kw "TABLE"; ws1; Opt (Cat (kw "ONLY") ws1);
       SCHEMA_QUALIFIED_OBJECT_PATTERN 1 2;
       ws1; kw "ALTER"; ws1; Opt (Cat (kw "COLUMN") ws1);
       IDENTIFIER_PATTERN; ws1; kw "ADD"; ws1].

(** [ADD\s+CONSTRAINT\s+(ID)\s+(.+);[^;]*$], flags [iu]. *)
Definition CONSTRAINT_DEFINITION_REGEX : regex :=
  seq [kw "ADD"; ws1; kw "CONSTRAINT"; ws1; Group 1 IDENTIFIER_PATTERN; ws1;
       Group 2 (Plus dot); chr ";"; Star (Chr not_semicolon); Eol].

Definition tag_start (c : ascii) : bool :=          (* [A-Za-z_] *)
  Char.between 65 90 c || Char.between 97 122 c || Ascii.eqb c underscore.
Definition tag_part (c : ascii) : bool :=           (* [A-Za-z0-9_] *)
  tag_start c || Char.between 48 57 c.

(** [^\$(?:[A-Za-z_][A-Za-z0-9_]* )?\$], no flags. *)
Definition DOLLAR_QUOTE_REGEX : regex :=
  seq [Bol; chr dollar; Opt (Cat (Chr tag_start) (Star (Chr tag_part)));
       chr dollar].

(** The characters of the class [[-/\\^$*+?.()|[\]{}]]. *)
Definition unsafe_characters : str :=
  lit "-/" ++ [Char.BACKSLASH] ++ lit "^$*+?.()|[]{}".

Definition is_unsafe (c : ascii) : bool :=
  existsb (Ascii.eqb c) unsafe_characters.

Definition UNSAFE_REGEX_CHARACTERS_REGEX : regex := Chr is_unsafe.

(** The replacement ['\\$&']: a backslash and the matched text. *)
Definition UNSAFE_REGEX_CHARACTERS_REPLACEMENT (matched : str) : str :=
  Char.BACKSLASH :: matched.

(** [\s+(?:NOT\s+)?NULL\s*$], flag [i]. *)
Definition NOT_NULL_REGEX : regex :=
  seq [ws1; Opt (Cat (kw "NOT") ws1); kw "NULL"; ws0; Eol].

(** [\s*;\s*$] *)
Definition TERMINATOR_REGEX : regex := seq [ws0; chr ";"; ws0; Eol].

(** [\s{2,}|\n+], flag [g]. *)
Definition COLLAPSE_REGEX : regex :=
  Alt (AtLeast2 (Chr Char.is_space)) (Plus (chr Char.LF)).

(** [(\(\s+|\s+\))+], flag [g]. *)
Definition BRACKET_SPACE_REGEX : regex :=
  Plus (Group 1 (Alt (Cat (chr "(") ws1) (Cat ws1 (chr ")")))).

(** [[,\s]+$] *)
Definition TRAILING_COMMA_REGEX : regex :=
  Cat (Plus (Chr (fun c => Ascii.eqb c "," || Char.is_space c))) Eol.

(** [^[ \t]*] *)
Definition LEADING_BLANKS_REGEX : regex :=
  Cat Bol (Star (Chr (fun c => Ascii.eqb c " " || Ascii.eqb c Char.TAB))).

End Patterns.

(* ================================================================== *)
(** * Results of the attachment engine

    [new RegExp(pattern)] in [getTableColumnRegex] compiles a pattern built
    from a column name at run time.  The development compiles the patterns
    made of literal characters, escaped syntax characters, [^], [$] and [.];
    every unquoted identifier gives such a pattern.  For any other pattern
    (a quoted column name with quantifier, group, class or alternation
    characters left unescaped) the result is [Unmodelled]. *)

Inductive outcome (A : Type) : Type :=
| Done (a : A)
| Unmodelled.
Arguments Done {A} a.
Arguments Unmodelled {A}.

#[global] Instance outcome_ret : MRet outcome := fun A a => Done a.

#[global] Instance outcome_bind : MBind outcome := fun A B f m =>
  match m with
  | Done a => f a
  | Unmodelled => Unmodelled
  end.

(** [l.map(f)] for an [f] that may be [Unmodelled]. *)
Fixpoint map_outcome {A B : Type} (f : A -> outcome B) (l : list A)
  : outcome (list B) :=
  match l with
  | [] => Done []
  | a :: l' => b ← f a; bs ← map_outcome f l'; Done (b :: bs)
  end.

(** A capture group that takes part in every match of its pattern, read as
    a string. *)
Definition required (v : option str) : str := default [] v.

(* ================================================================== *)
(** * The statement tokenizer: [Parser.splitIntoStatements] *)

(** The type [';' | ','] of the [separator] argument. *)
Inductive Separator : Type := semicolon | comma.

Definition separator_char (separator : Separator) : ascii :=
  match separator with
  | semicolon => ";"%char
  | comma => ","%char
  end.

Record ScanState : Type := {
  statements : list str;
  currentStatement : str;
  pos : nat;
  inDashComment : bool;
  inBlockComment : bool;
  inSingleQuote : bool;
  inDoubleQuote : bool
}.

Definition initial_state : ScanState :=
  {| statements := []; currentStatement := []; pos := 0;
     inDashComment := false; inBlockComment := false;
     inSingleQuote := false; inDoubleQuote := false |}.

(** [currentStatement += text; pos += n]. *)
Definition consume (text : str) (n : nat) (st : ScanState) : ScanState :=
  {| statements := statements st;
     currentStatement := currentStatement st ++ text;
     pos := pos st + n;
     inDashComment := inDashComment st;
     inBlockComment := inBlockComment st;
     inSingleQuote := inSingleQuote st;
     inDoubleQuote := inDoubleQuote st |}.

(** [currentStatement += text; pos = p]. *)
Definition consume_to (text : str) (p : nat) (st : ScanState) : ScanState :=
  {| statements := statements st;
     currentStatement := currentStatement st ++ text;
     pos := p;
     inDashComment := inDashComment st;
     inBlockComment := inBlockComment st;
     inSingleQuote := inSingleQuote st;
     inDoubleQuote := inDoubleQuote st |}.

Definition set_inDashComment (b : bool) (st : ScanState) : ScanState :=
  {| statements := statements st; currentStatement := currentStatement st;
     pos := pos st; inDashComment := b;
     inBlockComment := inBlockComment st;
     inSingleQuote := inSingleQuote st; inDoubleQuote := inDoubleQuote st |}.

Definition set_inBlockComment (b : bool) (st : ScanState) : ScanState :=
  {| statements := statements st; currentStatement := currentStatement st;
     pos := pos st; inDashComment := inDashComment st;
     inBlockComment := b;
     inSingleQuote := inSingleQuote st; inDoubleQuote := inDoubleQuote st |}.

Definition set_quotes (single double : bool) (st : ScanState) : ScanState :=
  {| statements := statements st; currentStatement := currentStatement st;
     pos := pos st; inDashComment := inDashComment st;
     inBlockComment := inBlockComment st;
     inSingleQuote := single; inDoubleQuote := double |}.

(** [currentStatement += char; statements.push(currentStatement);
    currentStatement = ''; pos++]. *)
Definition emit (char : ascii) (st : ScanState) : ScanState :=
  {| statements := statements st ++ [currentStatement st ++ [char]];
     currentStatement := [];
     pos := S (pos st);
     inDashComment := inDashComment st;
     inBlockComment := inBlockComment st;
     inSingleQuote := inSingleQuote st;
     inDoubleQuote := inDoubleQuote st |}.

Definition is_char (a : ascii) (c : option ascii) : bool :=
  match c with Some b => Ascii.eqb b a | None => false end.

(** The part of the loop body that handles a [$]. *)
Definition step_dollar (content : str) (char : ascii) (st : ScanState)
  : ScanState :=
  match Regex.exec Patterns.DOLLAR_QUOTE_REGEX (JS.slice_from (pos st) content) with
  | Some m =>
      let dollarQuoteTag := Regex.whole m in
      match JS.indexOf dollarQuoteTag content (pos st + length dollarQuoteTag) with
      | Some closePos =>
          consume_to
            (JS.slice (pos st) (closePos + length dollarQuoteTag) content)
            (closePos + length dollarQuoteTag) st
      | None => consume dollarQuoteTag (length dollarQuoteTag) st
      end
  | None => consume [char] 1 st
  end.

(** The state transitions at the end of the loop body. *)
Definition step_transitions (separator : Separator) (char : ascii)
    (nextChar : option ascii) (st : ScanState) : ScanState :=
  if inDashComment st then
    consume [char] 1
      (if Ascii.eqb char Char.LF || Ascii.eqb char Char.CR
       then set_inDashComment false st else st)
  else if inBlockComment st then
    if Ascii.eqb char "*" && is_char "/" nextChar
    then consume (lit "*/") 2 (set_inBlockComment false st)
    else consume [char] 1 st
  else
    let st' :=
      if negb (inDoubleQuote st) && Ascii.eqb char Char.SQUOTE
      then set_quotes (negb (inSingleQuote st)) (inDoubleQuote st) st
      else if negb (inSingleQuote st) && Ascii.eqb char Char.DQUOTE
      then set_quotes (inSingleQuote st) (negb (inDoubleQuote st)) st
      else st in
    if negb (inSingleQuote st') && negb (inDoubleQuote st')
       && Ascii.eqb char (separator_char separator)
    then emit char st'
    else consume [char] 1 st'.

(** One iteration of the [while] loop. *)
Definition step (content : str) (separator : Separator) (st : ScanState)
  : ScanState :=
  match content !! pos st with
  | None => st
  | Some char =>
      let nextChar := content !! S (pos st) in
      if Ascii.eqb char "$" then step_dollar content char st
      else if negb (inSingleQuote st) && negb (inDoubleQuote st)
              && negb (inBlockComment st)
              && Ascii.eqb char "-" && is_char "-" nextChar
      then consume (lit "--") 2 (set_inDashComment true st)
      else if negb (inSingleQuote st) && negb (inDoubleQuote st)
              && negb (inDashComment st)
              && Ascii.eqb char "/" && is_char "*" nextChar
      then consume (lit "/*") 2 (set_inBlockComment true st)
      else step_transitions separator char nextChar st
  end.

(** [while (pos < len) { ... }]; every iteration advances [pos], so
    [length content] iterations are enough (lemma [scan_reaches_end]). *)
Fixpoint scan (fuel : nat) (content : str) (separator : Separator)
    (st : ScanState) : ScanState :=
  match fuel with
  | 0 => st
  | S fuel' =>
      if pos st <? length content
      then scan fuel' content separator (step content separator st)
      else st
  end.

Definition splitIntoStatements (content : str) (separator : Separator)
  : list str :=
  let st := scan (length content) content separator initial_state in
  if JS.truthy (currentStatement st)
  then statements st ++ [currentStatement st]
  else statements st.

(* ================================================================== *)
(** * The object classifier: the parser classes and [parseStatement] *)

(** [BaseParser.extractDefinition]: the definition and the residual prefix.
    [if (match.index)] is false at index 0. *)
Definition extractDefinition (m : Regex.MatchResult) (statement : str)
  : str * option str :=
  if Regex.m_index m =? 0 then (statement, None)
  else (JS.slice_from (Regex.m_index m) statement,
        Some (JS.slice 0 (Regex.m_index m) statement)).

Definition make_base (schema : str) (name : option str)
    (m : Regex.MatchResult) (statement : str) : BaseParsedStatement :=
  {| ps_schema := schema; ps_name := name;
     ps_definition := (extractDefinition m statement).1;
     ps_residual := (extractDefinition m statement).2 |}.

Record BaseParser : Type := {
  p_type : ParserType;
  p_regex : Regex.regex;
  p_parse : Regex.MatchResult -> str -> ParsedStatement
}.

(** [GeneralParser.parse] *)
Definition GeneralParser_parse (t : DatabaseObjectType)
    (m : Regex.MatchResult) (statement : str) : ParsedStatement :=
  let schema := or_default (Regex.group m 1) in
  let name := Regex.group m 2 in
  GeneralParsedStatement t (makeQualifiedName schema name)
    (make_base schema name m statement).

Definition GeneralParser (t : DatabaseObjectType) (r : Regex.regex)
  : BaseParser :=
  {| p_type := object_type t; p_regex := r; p_parse := GeneralParser_parse t |}.

Definition SchemaParser : BaseParser :=
  {| p_type := object_type schema;
     p_regex := Patterns.SchemaParser_regex;
     p_parse := fun m statement =>
       let schema := Regex.group m 1 in
       SchemaParsedStatement (make_base (required schema) schema m statement) |}.

Definition ExtensionParser : BaseParser :=
  {| p_type := object_type extension;
     p_regex := Patterns.ExtensionParser_regex;
     p_parse := fun m statement =>
       let schema := or_default (Regex.group m 2) in
       let name := Regex.group m 1 in
       GeneralParsedStatement extension (makeQualifiedName schema name)
         (make_base schema name m statement) |}.

Definition TypeParser : BaseParser :=
  GeneralParser type Patterns.TypeParser_regex.
Definition DomainParser : BaseParser :=
  GeneralParser domain Patterns.DomainParser_regex.
Definition FunctionParser : BaseParser :=
  GeneralParser function Patterns.FunctionParser_regex.
Definition ProcedureParser : BaseParser :=
  GeneralParser procedure Patterns.ProcedureParser_regex.
Definition TableParser : BaseParser :=
  GeneralParser table Patterns.TableParser_regex.

Definition SequenceParser : BaseParser :=
  {| p_type := sequence;
     p_regex := Patterns.SequenceParser_regex;
     p_parse := fun m statement =>
       let schema := or_default (Regex.group m 4) in
       let name := Regex.group m 5 in
       Attachable (of_sequence
         {| sq_base := make_base schema name m statement;
            sq_qualifiedName := makeQualifiedName schema name;
            sq_tableSchema := or_default (Regex.group m 1);
            sq_table := required (Regex.group m 2);
            sq_column := required (Regex.group m 3) |}) |}.

Definition ViewParser : BaseParser :=
  GeneralParser view Patterns.ViewParser_regex.

Definition ConstraintParser : BaseParser :=
  {| p_type := constraint;
     p_regex := Patterns.ConstraintParser_regex;
     p_parse := fun m statement =>
       let schema := or_default (Regex.group m 1) in
       let name := Regex.group m 3 in
       Attachable (of_constraint
         {| ct_base := make_base schema name m statement;
            ct_qualifiedName := makeQualifiedName schema name;
            ct_table := required (Regex.group m 2) |}) |}.

Definition IndexParser : BaseParser :=
  {| p_type := index;
     p_regex := Patterns.IndexParser_regex;
     p_parse := fun m statement =>
       let schema := or_default (Regex.group m 2) in
       let name := Regex.group m 1 in
       Attachable (of_index
         {| ix_base := make_base schema name m statement;
            ix_qualifiedName := makeQualifiedName schema name;
            ix_table := required (Regex.group m 3) |}) |}.

Definition PARSER_REGISTRY : list BaseParser :=
  [SchemaParser; ExtensionParser; TypeParser; DomainParser; FunctionParser;
   ProcedureParser; TableParser; SequenceParser; ViewParser;
   ConstraintParser; IndexParser].

(** The loop of [parseStatement] over a registry: the first parser whose
    pattern matches, with its match. *)
Fixpoint first_match (registry : list BaseParser) (statement : str)
  : option (BaseParser * Regex.MatchResult) :=
  match registry with
  | [] => None
  | parser :: registry' =>
      match Regex.exec (p_regex parser) statement with
      | Some m => Some (parser, m)
      | None => first_match registry' statement
      end
  end.

Definition parseStatement (statement : str) : option ParsedStatement :=
  match first_match PARSER_REGISTRY statement with
  | Some (parser, m) => Some (p_parse parser m statement)
  | None => None
  end.

(* ================================================================== *)
(** * The attachment engine *)

Definition empty_attachables : TableAttachables :=
  {| sequences := []; constraints := []; indexes := [] |}.

(** [acc[qualifiedTable].sequences.push(statement)] and its two siblings. *)
Definition push_attachable (statement : AttachableParsedStatement)
    (entry : TableAttachables) : TableAttachables :=
  match statement with
  | of_sequence s =>
      {| sequences := sequences entry ++ [s];
         constraints := constraints entry; indexes := indexes entry |}
  | of_constraint c =>
      {| sequences := sequences entry;
         constraints := constraints entry ++ [c]; indexes := indexes entry |}
  | of_index i =>
      {| sequences := sequences entry;
         constraints := constraints entry; indexes := indexes entry ++ [i] |}
  end.

(** The key under which a statement is grouped:
    [makeQualifiedName(statement.schema, statement.table)]. *)
Definition qualifiedTable_of (statement : AttachableParsedStatement) : str :=
  makeQualifiedName (at_schema statement) (Some (at_table statement)).

(** The callback of the [reduce] in [groupAttachablesByTable]. *)
Definition group_step (acc : gmap str TableAttachables)
    (statement : AttachableParsedStatement) : gmap str TableAttachables :=
  let qualifiedTable := qualifiedTable_of statement in
  let acc' :=
    match acc !! qualifiedTable with
    | Some _ => acc
    | None => <[qualifiedTable := empty_attachables]> acc
    end in
  alter (push_attachable statement) qualifiedTable acc'.

Definition groupAttachablesByTable
    (attachableStatements : list AttachableParsedStatement)
  : gmap str TableAttachables :=
  foldl group_step ∅ attachableStatements.

(** ** [detectIndent] *)

Inductive IndentType : Type := space | tab.

Record Indent : Type := {
  indent_type : IndentType;
  amount : nat;
  indent : str
}.

(** [freq[ws] = (freq[ws] || 0) + 1] on an object whose keys keep their
    insertion order. *)
Fixpoint count_indent (ws : str) (freq : list (str * nat))
  : list (str * nat) :=
  match freq with
  | [] => [(ws, 1)]
  | (key, n) :: freq' =>
      if bool_decide (key = ws) then (key, S n) :: freq'
      else (key, n) :: count_indent ws freq'
  end.

(** One insertion of the stable sort by decreasing count. *)
Fixpoint insert_by_count (e : str * nat) (sorted : list (str * nat))
  : list (str * nat) :=
  match sorted with
  | [] => [e]
  | e' :: sorted' =>
      if e.2 <? e'.2 then e' :: insert_by_count e sorted'
      else e :: sorted
  end.

(** [entries.sort(([, a], [, b]) => b - a)]; the sort is stable. *)
Definition sort_by_count (entries : list (str * nat)) : list (str * nat) :=
  foldr insert_by_count [] entries.

(** [gcd(a, b)]: [b === 0 ? a : gcd(b, a % b)]; the second argument
    decreases, so [S b] unfoldings are enough. *)
Fixpoint gcd_fuel (fuel a b : nat) : nat :=
  match fuel with
  | 0 => a
  | S fuel' => if b =? 0 then a else gcd_fuel fuel' b (a `mod` b)
  end.

Definition gcd (a b : nat) : nat := gcd_fuel (S b) a b.

(** [counts.reduce(gcd)]: without an initial value the first element starts
    the reduction; the source calls it on a non-empty array only. *)
Definition reduce_gcd (counts : list nat) : nat :=
  match counts with
  | [] => 0
  | n :: counts' => foldl gcd n counts'
  end.

Definition starts_with_char (c : ascii) (ws : str) : bool :=
  match ws with a :: _ => Ascii.eqb a c | [] => false end.

Definition detectIndent (string : str) : Indent :=
  let indents :=
    filter (fun ws => 0 < length ws)
      (map (fun line =>
              match Regex.exec Patterns.LEADING_BLANKS_REGEX line with
              | Some m => Regex.whole m
              | None => []
              end)
           (JS.split Char.LF string)) in
  if length indents =? 0 then
    {| indent_type := space; amount := 0; indent := [] |}
  else
    let freq := foldl (fun freq ws => count_indent ws freq) [] indents in
    match sort_by_count freq with
    | (mostUsedIndent, mostUsedCount) :: _ =>
        if length indents <? 2 * mostUsedCount then
          {| indent_type :=
               if starts_with_char Char.TAB mostUsedIndent then tab else space;
             amount := length mostUsedIndent;
             indent := mostUsedIndent |}
        else
          let spaceCounts :=
            map length (filter (fun ws => starts_with_char " " ws = true) indents) in
          if 0 <? length spaceCounts then
            let unit := reduce_gcd spaceCounts in
            {| indent_type := space; amount := unit;
               indent := replicate unit " "%char |}
          else
            let tabCounts :=
              map length
                (filter (fun ws => starts_with_char Char.TAB ws = true) indents) in
            let unit := reduce_gcd tabCounts in
            {| indent_type := tab; amount := unit;
               indent := replicate unit Char.TAB |}
    | [] => {| indent_type := space; amount := 0; indent := [] |}
    end.

(** ** [attachConstraintsToTable] *)

(** The [while] loop that steps back over white space from index [n - 1]:
    the result is [lastContentIndex + 1]. *)
Fixpoint content_end (s : str) (n : nat) : nat :=
  match n with
  | 0 => 0
  | S k =>
      match s !! k with
      | Some c => if Char.is_space c then content_end s k else n
      | None => n
      end
  end.

(** [tableDefinition.lastIndexOf(')', tableDefinition.lastIndexOf(';'))] *)
Definition find_lastParenIndex (tableDefinition : str) : option nat :=
  JS.lastIndexOf_at ")" tableDefinition (JS.lastIndexOf ";" tableDefinition).

(** One [constraintDefinitions.push(...)] of the loop over the constraints. *)
Definition constraint_text (definition : str) : str :=
  match Regex.exec Patterns.CONSTRAINT_DEFINITION_REGEX definition with
  | Some constraintMatch =>
      lit "CONSTRAINT " ++ interpolate (Regex.group constraintMatch 1)
      ++ lit " " ++ interpolate (Regex.group constraintMatch 2)
  | None => definition
  end.

Definition attachConstraintsToTable (tableDefinition : str)
    (constraints : list ConstraintParsedStatement) : str :=
  match find_lastParenIndex tableDefinition with
  | None => tableDefinition
  | Some lastParenIndex =>
      let constraintDefinitions :=
        map (fun c => constraint_text (ps_definition (ct_base c))) constraints in
      if length constraintDefinitions =? 0 then tableDefinition
      else
        let lastContentEnd := content_end tableDefinition lastParenIndex in
        let indentedSeparator :=
          lit "," ++ [Char.LF] ++ indent (detectIndent tableDefinition) in
        let constraintText :=
          indentedSeparator ++ JS.join indentedSeparator constraintDefinitions in
        JS.slice 0 lastContentEnd tableDefinition
        ++ constraintText ++ [Char.LF]
        ++ JS.slice_from lastParenIndex tableDefinition
  end.

(** ** [getTableColumnRegex] and [findTableColumnDefinition] *)

Definition is_quantifier_or_bracket (c : ascii) : bool :=
  existsb (Ascii.eqb c) (lit "*+?()[]{}|").

(** The column part of the pattern handed to [new RegExp]: literal
    characters, a backslash before a syntax character, [^], [$] and [.].
    [None] stands for a pattern outside this fragment. *)
Fixpoint compile_column (pattern : str) : option Regex.regex :=
  match pattern with
  | [] => Some Regex.Eps
  | c :: pattern' =>
      if Ascii.eqb c Char.BACKSLASH then
        match pattern' with
        | d :: pattern'' =>
            if Patterns.is_unsafe d
            then Regex.Cat (Regex.chr d) <$> compile_column pattern''
            else None
        | [] => None
        end
      else if Ascii.eqb c "$" then Regex.Cat Regex.Eol <$> compile_column pattern'
      else if Ascii.eqb c "^" then Regex.Cat Regex.Bol <$> compile_column pattern'
      else if Ascii.eqb c "." then Regex.Cat Regex.dot <$> compile_column pattern'
      else if is_quantifier_or_bracket c then None
      else Regex.Cat (Regex.chr c) <$> compile_column pattern'
  end.

(** [new RegExp('^\\s*' + escaped + '\\s+')] where [escaped] is the column
    name with its first unsafe character escaped (the pattern is not
    global).  The cache of compiled patterns does not change the result. *)
Definition getTableColumnRegex (column : str) : outcome Regex.regex :=
  let escaped :=
    Regex.replace_first Patterns.UNSAFE_REGEX_CHARACTERS_REGEX
      Patterns.UNSAFE_REGEX_CHARACTERS_REPLACEMENT column in
  match compile_column escaped with
  | Some body => Done (Regex.seq [Regex.Bol; Regex.ws0; body; Regex.ws1])
  | None => Unmodelled
  end.

Record ColumnDefinition : Type := {
  cd_definition : str;
  cd_startPos : nat;
  cd_endPos : nat
}.

(** [statements.findIndex(p)]; [None] is the result [-1]. *)
Fixpoint findIndex (p : str -> bool) (l : list str) : option nat :=
  match l with
  | [] => None
  | x :: l' => if p x then Some 0 else S <$> findIndex p l'
  end.

Definition total_length (l : list str) : nat :=
  foldl (fun n s => n + length s) 0 l.

Definition findTableColumnDefinition (tableDefinition column : str)
  : outcome (option ColumnDefinition) :=
  match Regex.exec Patterns.TABLE_HEADER_REGEX tableDefinition with
  | None => Done None
  | Some tableHeaderMatch =>
      let firstParenIndex :=
        Regex.m_index tableHeaderMatch + length (Regex.whole tableHeaderMatch) in
      match find_lastParenIndex tableDefinition with
      | None => Done None
      | Some lastParenIndex =>
          let tableContents :=
            JS.slice (firstParenIndex + 1) lastParenIndex tableDefinition in
          let statements := splitIntoStatements tableContents comma in
          columnRegex ← getTableColumnRegex column;
          match findIndex (Regex.test columnRegex) statements with
          | None => Done None
          | Some columnStatementIndex =>
              let definition :=
                Regex.replace_first Patterns.TRAILING_COMMA_REGEX (fun _ => [])
                  (default [] (statements !! columnStatementIndex)) in
              let definitionLength := length definition in
              let startPos :=
                firstParenIndex + 1
                + total_length (take columnStatementIndex statements) in
              let endPos := startPos + definitionLength in
              let definition' := JS.trimStart definition in
              let startPos' :=
                if length definition' =? definitionLength then startPos
                else startPos + (definitionLength - length definition') in
              Done (Some {| cd_definition := definition';
                            cd_startPos := startPos';
                            cd_endPos := endPos |})
          end
      end
  end.

(** ** [attachSequencesToTable] *)

(** The text spliced in for a sequence whose header match ends at
    [headerEnd]: the rest of the statement, without the terminating
    semicolon, collapsed onto one line. *)
Definition sequence_text (definition : str) (headerEnd : nat) : str :=
  Regex.replace_all Patterns.BRACKET_SPACE_REGEX JS.trim
    (Regex.replace_all Patterns.COLLAPSE_REGEX (fun _ => lit " ")
       (Regex.replace_first Patterns.TERMINATOR_REGEX (fun _ => [])
          (JS.slice_from headerEnd definition))).

(** Where the sequence text goes: before a trailing [[NOT] NULL], else at
    the end of the column definition. *)
Definition insertion_point (columnDefinition : ColumnDefinition) : nat :=
  match Regex.exec Patterns.NOT_NULL_REGEX (cd_definition columnDefinition) with
  | Some notNullMatch =>
      cd_endPos columnDefinition
      - (length (cd_definition columnDefinition) - Regex.m_index notNullMatch)
  | None => cd_endPos columnDefinition
  end.

(** The body of the loop over the sequences. *)
Definition attach_sequence (modifiedContent : str)
    (sequence : SequenceParsedStatement) : outcome str :=
  columnDefinition ← findTableColumnDefinition modifiedContent (sq_column sequence);
  match columnDefinition with
  | None => Done modifiedContent
  | Some columnDefinition =>
      let columnDefinitionEndPos := insertion_point columnDefinition in
      let definition := ps_definition (sq_base sequence) in
      match Regex.exec Patterns.SEQUENCE_HEADER_REGEX definition with
      | None => Done modifiedContent
      | Some sequenceHeaderMatch =>
          let sequenceDefinition :=
            sequence_text definition
              (Regex.m_index sequenceHeaderMatch
               + length (Regex.whole sequenceHeaderMatch)) in
          Done (JS.slice 0 columnDefinitionEndPos modifiedContent ++ lit " "
                ++ sequenceDefinition
                ++ JS.slice_from columnDefinitionEndPos modifiedContent)
      end
  end.

Fixpoint attachSequencesToTable (tableDefinition : str)
    (sequences : list SequenceParsedStatement) : outcome str :=
  match sequences with
  | [] => Done tableDefinition
  | sq :: sequences' =>
      modifiedContent ← attach_sequence tableDefinition sq;
      attachSequencesToTable modifiedContent sequences'
  end.

(** ** [attachObjectsToTables] *)

Definition set_definition (definition : str) (object : DatabaseObject)
  : DatabaseObject :=
  {| o_type := o_type object; o_schema := o_schema object;
     o_name := o_name object; o_qualifiedName := o_qualifiedName object;
     o_definition := definition;
     o_sequences := o_sequences object;
     o_constraints := o_constraints object;
     o_indexes := o_indexes object |}.

Definition set_sequences (l : list str) (object : DatabaseObject)
  : DatabaseObject :=
  {| o_type := o_type object; o_schema := o_schema object;
     o_name := o_name object; o_qualifiedName := o_qualifiedName object;
     o_definition := o_definition object;
     o_sequences := Some l;
     o_constraints := o_constraints object;
     o_indexes := o_indexes object |}.

Definition set_constraints (l : list str) (object : DatabaseObject)
  : DatabaseObject :=
  {| o_type := o_type object; o_schema := o_schema object;
     o_name := o_name object; o_qualifiedName := o_qualifiedName object;
     o_definition := o_definition object;
     o_sequences := o_sequences object;
     o_constraints := Some l;
     o_indexes := o_indexes object |}.

Definition set_indexes (l : list str) (object : DatabaseObject)
  : DatabaseObject :=
  {| o_type := o_type object; o_schema := o_schema object;
     o_name := o_name object; o_qualifiedName := o_qualifiedName object;
     o_definition := o_definition object;
     o_sequences := o_sequences object;
     o_constraints := o_constraints object;
     o_indexes := Some l |}.

Definition attach_sequences_step (tableAttachables : TableAttachables)
    (object : DatabaseObject) : outcome DatabaseObject :=
  if 0 <? length (sequences tableAttachables) then
    definition ← attachSequencesToTable (o_definition object)
                   (sequences tableAttachables);
    Done (set_definition definition
            (set_sequences
               (map (fun seq => ps_definition (sq_base seq))
                  (sequences tableAttachables)) object))
  else Done object.

Definition attach_constraints_step (tableAttachables : TableAttachables)
    (object : DatabaseObject) : DatabaseObject :=
  if 0 <? length (constraints tableAttachables) then
    set_definition
      (attachConstraintsToTable (o_definition object)
         (constraints tableAttachables))
      (set_constraints
         (map (fun constraint => ps_definition (ct_base constraint))
            (constraints tableAttachables)) object)
  else object.

Definition attach_indexes_step (tableAttachables : TableAttachables)
    (object : DatabaseObject) : DatabaseObject :=
  if 0 <? length (indexes tableAttachables) then
    let indexDefinitions :=
      map (fun index => ps_definition (ix_base index))
        (indexes tableAttachables) in
    set_definition
      (o_definition object ++ [Char.LF; Char.LF]
       ++ JS.join [Char.LF] indexDefinitions)
      (set_indexes indexDefinitions object)
  else object.

Definition is_table_or_view (t : DatabaseObjectType) : bool :=
  match t with table | view => true | _ => false end.

(** The body of the loop over the objects. *)
Definition attach_object (attachablesByTable : gmap str TableAttachables)
    (object : DatabaseObject) : outcome DatabaseObject :=
  if is_table_or_view (o_type object) then
    let qualifiedTable := makeQualifiedName (o_schema object) (o_name object) in
    match attachablesByTable !! qualifiedTable with
    | None => Done object
    | Some tableAttachables =>
        object1 ← attach_sequences_step tableAttachables object;
        Done (attach_indexes_step tableAttachables
                (attach_constraints_step tableAttachables object1))
    end
  else Done object.

(** The objects are updated in place; the result is the array after the
    loop. *)
Definition attachObjectsToTables (objects : list DatabaseObject)
    (attachableStatements : list AttachableParsedStatement)
  : outcome (list DatabaseObject) :=
  let attachablesByTable := groupAttachablesByTable attachableStatements in
  map_outcome (attach_object attachablesByTable) objects.

(* ================================================================== *)
(** * The parse orchestrator: [Parser.parse] *)

(** The three arrays the loop of [parse] fills. *)
Record Collected : Type := {
  c_objects : list DatabaseObject;
  c_attachableStatements : list AttachableParsedStatement;
  c_residual : list str
}.

Definition nothing_collected : Collected :=
  {| c_objects := []; c_attachableStatements := []; c_residual := [] |}.

Definition push_object (object : DatabaseObject) (acc : Collected) : Collected :=
  {| c_objects := c_objects acc ++ [object];
     c_attachableStatements := c_attachableStatements acc;
     c_residual := c_residual acc |}.

Definition push_attachableStatement (a : AttachableParsedStatement)
    (acc : Collected) : Collected :=
  {| c_objects := c_objects acc;
     c_attachableStatements := c_attachableStatements acc ++ [a];
     c_residual := c_residual acc |}.

Definition push_residual (text : str) (acc : Collected) : Collected :=
  {| c_objects := c_objects acc;
     c_attachableStatements := c_attachableStatements acc;
     c_residual := c_residual acc ++ [text] |}.

Definition new_object (t : DatabaseObjectType) (b : BaseParsedStatement)
    (qualifiedName : option str) : DatabaseObject :=
  {| o_type := t; o_schema := ps_schema b; o_name := ps_name b;
     o_qualifiedName := qualifiedName; o_definition := ps_definition b;
     o_sequences := None; o_constraints := None; o_indexes := None |}.

(** The [switch (parsed.type)]. *)
Definition route (parsed : ParsedStatement) (acc : Collected) : Collected :=
  match parsed with
  | Attachable a => push_attachableStatement a acc
  | SchemaParsedStatement b => push_object (new_object schema b None) acc
  | GeneralParsedStatement t qualifiedName b =>
      match t with
      | schema => push_object (new_object schema b None) acc
      | _ => push_object (new_object t b (Some qualifiedName)) acc
      end
  end.

(** The body of the loop over the statements. *)
Definition collect (acc : Collected) (statement : str) : Collected :=
  let trimmed := JS.trim statement in
  if negb (JS.truthy trimmed) then acc
  else
    match parseStatement trimmed with
    | Some parsed =>
        let acc' := route parsed acc in
        match ps_residual (base parsed) with
        | Some r => if JS.truthy r then push_residual r acc' else acc'
        | None => acc'
        end
    | None => push_residual statement acc
    end.

(** The state of [parse] when the loop over the statements is done. *)
Definition classify_all (content : str) : Collected :=
  foldl collect nothing_collected (splitIntoStatements content semicolon).

Definition parse (content : str) : outcome ParsedResult :=
  let acc := classify_all content in
  objects ← attachObjectsToTables (c_objects acc) (c_attachableStatements acc);
  Done {| objects := objects;
          residual := JS.trim (JS.join [Char.LF] (c_residual acc)) |}.

(* ================================================================== *)
(** * Predicates used in the statements below *)

(** The invariant of the loop of [splitIntoStatements]: the statements
    pushed so far and the current statement spell the input up to [pos],
    and no pushed statement is empty. *)
Definition scan_inv (content : str) (st : ScanState) : Prop :=
  concat (statements st) ++ currentStatement st = take (pos st) content
  /\ pos st <= length content
  /\ Forall (fun statement => statement <> []) (statements st).

(** The name between the two dollar signs of a tag: empty, or a letter or
    underscore followed by letters, digits and underscores. *)
Definition tag_name_ok (name : str) : bool :=
  match name with
  | [] => true
  | c :: name' => Patterns.tag_start c && forallb Patterns.tag_part name'
  end.

(** [dollar_tag name]: the tag [$name$]. *)
Definition dollar_tag (name : str) : str := Patterns.dollar :: name ++ [Patterns.dollar].
Arguments dollar_tag : simpl never.

(** The scanner is in the [Normal] state: in no comment and in no quoted
    string. *)
Definition normal_state (st : ScanState) : Prop :=
  inDashComment st = false /\ inBlockComment st = false
  /\ inSingleQuote st = false /\ inDoubleQuote st = false.

(** What one statement does to the entry of the key [q] in
    [groupAttachablesByTable]. *)
Definition entry_step (q : str) (entry : option TableAttachables)
    (statement : AttachableParsedStatement) : option TableAttachables :=
  if bool_decide (qualifiedTable_of statement = q)
  then Some (push_attachable statement (default empty_attachables entry))
  else entry.

(** The key under which [attachObjectsToTables] looks an object up. *)
Definition qualifiedTable_of_object (object : DatabaseObject) : str :=
  makeQualifiedName (o_schema object) (o_name object).

(** The residual fragment a classified statement contributes: its
    non-empty prefix before the match, if any. *)
Definition residual_prefix (b : BaseParsedStatement) : list str :=
  match ps_residual b with
  | Some r => if JS.truthy r then [r] else []
  | None => []
  end.

(** Values used in the examples. *)
Definition example_index : AttachableParsedStatement :=
  of_index
    {| ix_base := {| ps_schema := lit "public"; ps_name := Some (lit "idx_a");
                     ps_definition := lit "CREATE INDEX idx_a ON public.t (a);";
                     ps_residual := None |};
       ix_qualifiedName := lit "public.idx_a";
       ix_table := lit "t" |}.

Definition example_table : DatabaseObject :=
  {| o_type := table; o_schema := lit "public"; o_name := Some (lit "users");
     o_qualifiedName := Some (lit "public.users");
     o_definition := lit "CREATE TABLE public.users (id int);";
     o_sequences := None; o_constraints := None; o_indexes := None |}.

(** ** Accounting for the text of a dump

    A dump is cut into pieces: the text of a piece belongs to an object
    definition, to the definition of an attachable statement or to a
    residual fragment, and is surrounded by the white space that [trim]
    removed; a statement made of white space only is a skipped piece without
    text. *)
Inductive Origin : Type :=
| from_object | from_attachable | from_residual | skipped.

Record Piece : Type := {
  before : str;
  origin : Origin;
  text : str;
  after : str
}.

Definition spell (p : Piece) : str := before p ++ text p ++ after p.

Definition all_space (s : str) : Prop := forallb Char.is_space s = true.

Definition well_formed (p : Piece) : Prop :=
  all_space (before p) /\ all_space (after p)
  /\ (origin p = skipped -> text p = []).

Definition same_origin (a b : Origin) : bool :=
  match a, b with
  | from_object, from_object | from_attachable, from_attachable
  | from_residual, from_residual | skipped, skipped => true
  | _, _ => false
  end.

(** The texts of the pieces of one origin, in source order. *)
Fixpoint texts_of (o : Origin) (pieces : list Piece) : list str :=
  match pieces with
  | [] => []
  | p :: pieces' =>
      if same_origin (origin p) o then text p :: texts_of o pieces'
      else texts_of o pieces'
  end.

(** The pieces spell the dump, in order, with white space only outside
    the texts. *)
Definition reconstructs (content : str) (pieces : list Piece) : Prop :=
  concat (map spell pieces) = content /\ Forall well_formed pieces.

(** The pieces are the definitions and residual fragments collected by the
    loop of [parse]. *)
Definition accounted (pieces : list Piece) (acc : Collected) : Prop :=
  texts_of from_object pieces = map o_definition (c_objects acc)
  /\ texts_of from_attachable pieces
     = map at_definition (c_attachableStatements acc)
  /\ texts_of from_residual pieces = c_residual acc.

(** The capture group that holds the schema qualifier in the pattern of a
    parser, as the comments of the patterns number them. *)
Definition schema_group (t : ParserType) : nat :=
  match t with
  | object_type extension => 2
  | sequence => 4
  | index => 2
  | _ => 1
  end.

Definition example_table_statement : str := lit "CREATE TABLE foo (id int);".

Definition example_table_match : Regex.MatchResult :=
  {| Regex.m_input := example_table_statement; Regex.m_index := 0;
     Regex.m_end := 16; Regex.m_groups := [(2, (13, 16))] |}.

Definition index_definitions (entry : TableAttachables) : list str :=
  map (fun index => ps_definition (ix_base index)) (indexes entry).

Definition example_index_1 : IndexParsedStatement :=
  {| ix_base := {| ps_schema := lit "public"; ps_name := Some (lit "i1");
                   ps_definition := lit "CREATE INDEX i1 ON public.users (id);";
                   ps_residual := None |};
     ix_qualifiedName := lit "public.i1"; ix_table := lit "users" |}.

Definition example_index_2 : IndexParsedStatement :=
  {| ix_base := {| ps_schema := lit "public"; ps_name := Some (lit "i2");
                   ps_definition := lit "CREATE INDEX i2 ON public.users (id);";
                   ps_residual := None |};
     ix_qualifiedName := lit "public.i2"; ix_table := lit "users" |}.

Definition example_entry : TableAttachables :=
  {| sequences := []; constraints := [];
     indexes := [example_index_1; example_index_2] |}.

(** [ADD\s+CONSTRAINT\s+]: the part of [CONSTRAINT_DEFINITION_REGEX] before
    its first capture group. *)
Definition CONSTRAINT_HEAD : Regex.regex :=
  Regex.seq [Regex.kw "ADD"; Regex.ws1; Regex.kw "CONSTRAINT"; Regex.ws1].

Definition not_line_terminator (c : ascii) : bool :=
  negb (Char.is_line_terminator c).

Definition constraint_texts (constraints : list ConstraintParsedStatement)
  : list str :=
  map (fun c => constraint_text (ps_definition (ct_base c))) constraints.

Definition example_constraint : ConstraintParsedStatement :=
  {| ct_base :=
       {| ps_schema := lit "public"; ps_name := Some (lit "users_pkey");
          ps_definition :=
            lit "ALTER TABLE ONLY public.users ADD CONSTRAINT users_pkey PRIMARY KEY (id);";
          ps_residual := None |};
     ct_qualifiedName := lit "public.users_pkey";
     ct_table := lit "users" |}.

(** The scenario of the specification: a table and a constraint on it. *)
Definition scenario_dump : str :=
  lit "CREATE TABLE public.users (id int);" ++ [Char.LF]
  ++ lit "ALTER TABLE ONLY public.users ADD CONSTRAINT users_pkey PRIMARY KEY (id);".

Definition scenario_object : DatabaseObject :=
  {| o_type := table; o_schema := lit "public"; o_name := Some (lit "users");
     o_qualifiedName := Some (lit "public.users");
     o_definition :=
       lit "CREATE TABLE public.users (id int," ++ [Char.LF]
       ++ lit "CONSTRAINT users_pkey PRIMARY KEY (id)" ++ [Char.LF] ++ lit ");";
     o_sequences := None;
     o_constraints :=
       Some [lit "ALTER TABLE ONLY public.users ADD CONSTRAINT users_pkey PRIMARY KEY (id);"];
     o_indexes := None |}.

Definition example_sequence : SequenceParsedStatement :=
  {| sq_base :=
       {| ps_schema := lit "public"; ps_name := Some (lit "t_id_seq");
          ps_definition :=
            lit "ALTER TABLE public.t ALTER COLUMN id ADD GENERATED ALWAYS AS IDENTITY (SEQUENCE NAME public.t_id_seq START WITH 1);";
          ps_residual := None |};
     sq_qualifiedName := lit "public.t_id_seq";
     sq_tableSchema := lit "public";
     sq_table := lit "t";
     sq_column := lit "id" |}.

Definition example_sequence_table : str :=
  lit "CREATE TABLE public.t (id integer NOT NULL, name text);".

Definition example_column : ColumnDefinition :=
  {| cd_definition := lit "id integer NOT NULL"; cd_startPos := 23; cd_endPos := 42 |}.

Definition example_header_match : Regex.MatchResult :=
  {| Regex.m_input := ps_definition (sq_base example_sequence);
     Regex.m_index := 0; Regex.m_end := 41;
     Regex.m_groups := [(2, (19, 20)); (1, (12, 18))] |}.

(** At most one of the four flags of the scanner is set. *)
Definition exclusive_flags (st : ScanState) : bool :=
  match inDashComment st, inBlockComment st, inSingleQuote st, inDoubleQuote st with
  | false, false, false, false
  | true, false, false, false
  | false, true, false, false
  | false, false, true, false
  | false, false, false, true => true
  | _, _, _, _ => false
  end.

Definition ends_with (c : ascii) (s : str) : Prop := last s = Some c.

(** One of the four flags of the scanner is set. *)
Definition in_comment_or_quote (st : ScanState) : bool :=
  inDashComment st || inBlockComment st || inSingleQuote st || inDoubleQuote st.

(** A character that starts no dollar quote, no quoted string and no
    comment. *)
Definition plain (c : ascii) : bool :=
  negb (Ascii.eqb c "$" || Ascii.eqb c Char.SQUOTE || Ascii.eqb c Char.DQUOTE
        || Ascii.eqb c "-" || Ascii.eqb c "/").

(** Every occurrence of [c] in [s] is the last character of [s]. *)
Definition only_at_end (c : ascii) (s : str) : Prop :=
  forall i, s !! i = Some c -> S i = length s.

(** The invariant of the scanner on plain text. *)
Definition plain_inv (c : ascii) (st : ScanState) : Prop :=
  normal_state st /\ (c ∉ currentStatement st)
  /\ Forall (only_at_end c) (statements st).

(** The keyword the pattern of a parser starts with. *)
Definition keyword_of (t : ParserType) : string :=
  match t with
  | sequence | constraint => "ALTER"
  | _ => "CREATE"
  end.

(** [s] starts with [keyword], letter case apart. *)
Fixpoint starts_with_ci (keyword s : str) : bool :=
  match keyword, s with
  | [], _ => true
  | _ :: _, [] => false
  | a :: keyword', b :: s' => Char.eqb_ci a b && starts_with_ci keyword' s'
  end.

Definition example_commented_statement : str :=
  lit "-- users" ++ [Char.LF] ++ lit "create table foo (id int);".

Definition example_commented_parsed : ParsedStatement :=
  GeneralParsedStatement table (lit "public.foo")
    {| ps_schema := lit "public"; ps_name := Some (lit "foo");
       ps_definition := lit "create table foo (id int);";
       ps_residual := Some (lit "-- users" ++ [Char.LF]) |}.

(** The statements filed under the key [q], in source order, and their
    partition by kind. *)
Definition statements_for (q : str) (l : list AttachableParsedStatement)
  : list AttachableParsedStatement :=
  filter (fun statement => qualifiedTable_of statement = q) l.

Definition sequences_of (l : list AttachableParsedStatement)
  : list SequenceParsedStatement :=
  omap (fun a => match a with of_sequence s => Some s | _ => None end) l.

Definition constraints_of (l : list AttachableParsedStatement)
  : list ConstraintParsedStatement :=
  omap (fun a => match a with of_constraint c => Some c | _ => None end) l.

Definition indexes_of (l : list AttachableParsedStatement)
  : list IndexParsedStatement :=
  omap (fun a => match a with of_index i => Some i | _ => None end) l.

(** The fields of an object that identify it. *)
Definition identity (object : DatabaseObject)
  : DatabaseObjectType * str * option str * option str :=
  (o_type object, o_schema object, o_name object, o_qualifiedName object).

(** The characters that [LEADING_BLANKS_REGEX] accepts. *)
Definition blank (c : ascii) : bool :=
  Ascii.eqb c " " || Ascii.eqb c Char.TAB.


(** ** A sequence statement whose table is in another schema

    The identity sequence [public.users_id_seq] is added to a column of the
    table [app.users]; the dump holds the table [public.users] only. *)
Definition foreign_sequence_statement : str :=
  lit "ALTER TABLE app.users ALTER COLUMN id ADD GENERATED ALWAYS AS IDENTITY (SEQUENCE NAME public.users_id_seq START WITH 1);".

Definition foreign_sequence_dump : str :=
  lit "CREATE TABLE public.users (id integer NOT NULL);" ++ [Char.LF]
  ++ foreign_sequence_statement.

Definition foreign_sequence : SequenceParsedStatement :=
  {| sq_base := {| ps_schema := lit "public";
                   ps_name := Some (lit "users_id_seq");
                   ps_definition := foreign_sequence_statement;
                   ps_residual := None |};
     sq_qualifiedName := lit "public.users_id_seq";
     sq_tableSchema := lit "app";
     sq_table := lit "users";
     sq_column := lit "id" |}.

Definition foreign_sequence_table : DatabaseObject :=
  {| o_type := table; o_schema := lit "public"; o_name := Some (lit "users");
     o_qualifiedName := Some (lit "public.users");
     o_definition :=
       lit "CREATE TABLE public.users (id integer GENERATED ALWAYS AS IDENTITY (SEQUENCE NAME public.users_id_seq START WITH 1) NOT NULL);";
     o_sequences := Some [foreign_sequence_statement];
     o_constraints := None; o_indexes := None |}.

(** ** Statements without a schema qualifier *)

(** The capture group of the name that a schema qualifier would precede:
    the object name, the sequence name, and the table name of a constraint
    or an index. *)
Definition object_group (t : ParserType) : nat :=
  match t with
  | object_type extension => 1
  | sequence => 5
  | index => 3
  | _ => 2
  end.

(** A character that can start an identifier: [[_\p{L}]] or a double
    quote. *)
Definition starts_identifier (c : ascii) : bool :=
  Patterns.ident_start c || Ascii.eqb c Char.DQUOTE.

(** The name at [[a, b)] of [statement] is written without a schema: no dot
    stands before it.  [CREATE EXTENSION] names its schema behind the
    extension name: there the name is not followed by white space and an
    identifier. *)
Definition omits_schema_qualifier (t : ParserType) (statement : str)
    (a b : nat) : Prop :=
  match t with
  | object_type extension =>
      forall k ch,
        b < k ->
        (forall l, b <= l < k ->
           exists w, statement !! l = Some w /\ Char.is_space w = true) ->
        statement !! k = Some ch -> starts_identifier ch = false
  | _ => forall a', a = S a' -> statement !! a' <> Some "."%char
  end.

Definition extension_without_schema_clause : str :=
  lit "CREATE EXTENSION foo CASCADE;".

Definition schema_statement : str := lit "CREATE SCHEMA foo;".

(** ** Tables on which the closing parenthesis of the column list is not
    the one the constraints are put in front of *)

Definition with_clause_table : str :=
  lit "CREATE TABLE public.t (a int) WITH (fillfactor='70');".

Definition key_constraint_statement : str :=
  lit "ALTER TABLE ONLY public.t ADD CONSTRAINT t_pkey PRIMARY KEY (a);".

Definition with_clause_dump : str :=
  with_clause_table ++ [Char.LF] ++ key_constraint_statement.

Definition unterminated_table : str := lit "CREATE TABLE public.t (a int)".

Definition unterminated_table_dump : str :=
  key_constraint_statement ++ [Char.LF] ++ unterminated_table.

Definition table_t (definition : str) : DatabaseObject :=
  {| o_type := table; o_schema := lit "public"; o_name := Some (lit "t");
     o_qualifiedName := Some (lit "public.t");
     o_definition := definition;
     o_sequences := None;
     o_constraints := Some [key_constraint_statement];
     o_indexes := None |}.

(** ** The text spliced in for an identity sequence, in the words of the
    specification

    The three replacements that [attachSequencesToTable] applies to the
    rest of the sequence statement, written as functions on the text;
    [sequence_text] applies the patterns of the source. *)

(** The terminating semicolon removed: when the text ends, white space
    apart, with a semicolon, the semicolon goes together with the
    white space around it; any other text stays as it is. *)
Definition without_terminator (t : str) : str :=
  match rev (JS.trimEnd t) with
  | c :: before =>
      if Ascii.eqb c ";" then JS.trimEnd (rev before) else t
  | [] => t
  end.

(** Line feeds and runs of white space collapsed: every run of two or more
    white-space characters becomes one space, and so does a line feed that
    stands alone; any other character stays.  [in_run] says that the text
    continues a run that has been replaced already. *)
Fixpoint collapse_from (in_run : bool) (t : str) : str :=
  match t with
  | [] => []
  | c :: t' =>
      if Char.is_space c then
        if in_run then collapse_from true t'
        else
          match t' with
          | d :: _ =>
              if Char.is_space d then " "%char :: collapse_from true t'
              else (if Ascii.eqb c Char.LF then " "%char else c)
                   :: collapse_from false t'
          | [] => [if Ascii.eqb c Char.LF then " "%char else c]
          end
      else c :: collapse_from false t'
  end.

Definition collapse_white_space (t : str) : str := collapse_from false t.

(** The text goes on, behind white space or at once, with a closing
    parenthesis. *)
Definition before_close (t : str) : bool :=
  match JS.drop_while Char.is_space t with
  | c :: _ => Ascii.eqb c ")"
  | [] => false
  end.

(** White space immediately inside parentheses trimmed: the white space
    that follows an opening parenthesis and the white space that precedes a
    closing one is removed.  [after_open] says that the text continues
    white space behind an opening parenthesis. *)
Fixpoint trim_inside (after_open : bool) (t : str) : str :=
  match t with
  | [] => []
  | c :: t' =>
      if Char.is_space c then
        if after_open || before_close t' then trim_inside after_open t'
        else c :: trim_inside false t'
      else c :: trim_inside (Ascii.eqb c "(") t'
  end.

Definition trim_inside_parentheses (t : str) : str := trim_inside false t.

(** [n] characters of [s] from index [i] on satisfy [p], and the next
    character, if there is one, does not. *)
Definition run (p : ascii -> bool) (s : str) (i n : nat) : Prop :=
  (forall m, m < n -> exists ch, s !! (i + m) = Some ch /\ p ch = true)
  /\ (forall ch, s !! (i + n) = Some ch -> p ch = false).

(** At index [i] an opening parenthesis followed by white space, which ends
    at [e]; white space followed by a closing parenthesis, which ends
    at [e]. *)
Definition open_unit (s : str) (i e : nat) : Prop :=
  s !! i = Some "("%char
  /\ exists n, 1 <= n /\ run Char.is_space s (S i) n /\ e = S i + n.

Definition close_unit (s : str) (i e : nat) : Prop :=
  exists n, 1 <= n /\ run Char.is_space s i n
            /\ s !! (i + n) = Some ")"%char /\ e = S (i + n).

Definition has_unit (s : str) (i : nat) : Prop :=
  (exists e, open_unit s i e) \/ (exists e, close_unit s i e).

(** No two occurrences of [c] in [s] are separated by white space only. *)
Definition apart (c : ascii) (s : str) : Prop :=
  forall i j, S i < j -> s !! i = Some c -> s !! j = Some c ->
    exists q ch, i < q < j /\ s !! q = Some ch /\ Char.is_space ch = false.

(** The unit that the bracket pattern repeats, with its group. *)
Definition bracket_unit : Regex.regex :=
  Regex.Group 1
    (Regex.Alt (Regex.Cat (Regex.chr "(") Regex.ws1)
               (Regex.Cat Regex.ws1 (Regex.chr ")"))).

(** No two occurrences of [c] in [t] are separated by white space only,
    decided by one pass over the text: [state] is 1 right behind a [c],
    2 in the white space behind a [c], and 0 elsewhere. *)
Fixpoint kept_apart_from (c : ascii) (state : nat) (t : str) : bool :=
  match t with
  | [] => true
  | x :: t' =>
      if Ascii.eqb x c then
        match state with
        | 2 => false
        | _ => kept_apart_from c 1 t'
        end
      else if Char.is_space x then
        kept_apart_from c (match state with 0 => 0 | _ => 2 end) t'
      else kept_apart_from c 0 t'
  end.

Definition kept_apart (c : ascii) (t : str) : bool := kept_apart_from c 0 t.

(** The rest of a sequence statement behind its header, on one line: the
    terminating semicolon removed and the white space collapsed. *)
Definition identity_clause (definition : str) (headerEnd : nat) : str :=
  collapse_white_space (without_terminator (drop headerEnd definition)).

(** ** Sequence statements that show what is spliced in *)

Definition multi_line_sequence : SequenceParsedStatement :=
  {| sq_base :=
       {| ps_schema := lit "public"; ps_name := Some (lit "t_id_seq");
          ps_definition :=
            lit "ALTER TABLE public.t ALTER COLUMN id ADD GENERATED ALWAYS AS IDENTITY ("
            ++ [Char.LF] ++ lit "    SEQUENCE NAME public.t_id_seq"
            ++ [Char.LF] ++ lit "    START WITH 1" ++ [Char.LF] ++ lit ");";
          ps_residual := None |};
     sq_qualifiedName := lit "public.t_id_seq";
     sq_tableSchema := lit "public";
     sq_table := lit "t";
     sq_column := lit "id" |}.

Definition multi_line_header_match : Regex.MatchResult :=
  {| Regex.m_input := ps_definition (sq_base multi_line_sequence);
     Regex.m_index := 0; Regex.m_end := 41;
     Regex.m_groups := [(2, (19, 20)); (1, (12, 18))] |}.

Definition carriage_return_statement : str :=
  lit "ALTER TABLE public.t ALTER COLUMN id ADD GENERATED ALWAYS AS IDENTITY (SEQUENCE NAME public.t_id_seq"
  ++ [Char.CR] ++ lit "START WITH 1);".

Definition nested_brackets_statement : str :=
  lit "ALTER TABLE public.t ALTER COLUMN id ADD GENERATED ALWAYS AS IDENTITY ( SEQUENCE NAME public.t_id_seq START WITH ( ( 1 ) ) );".

(* ================================================================== *)
(** * Properties of the matcher *)

Section RegexFacts.
Import Regex.
Lemma star_loop_sound s r body k :
  (forall i c k' a, body i c k' = Some a ->
     exists j c', matches s r i j /\ i <= j /\ (i <= length s -> j <= length s)
                  /\ k' j c' = Some a) ->
  forall fuel i c a, star_loop body k fuel i c = Some a ->
    exists j c', matches s (Star r) i j /\ i <= j
                 /\ (i <= length s -> j <= length s) /\ k j c' = Some a.
Proof.
  intros Hbody fuel. induction fuel as [|fuel IH]; intros i c a H; simpl in H.
  - exists i, c. split; [constructor|]. split; [lia|]. split; [lia|done].
  - destruct (body i c _) as [a0|] eqn:Hb.
    + injection H as ->. apply Hbody in Hb as (j & c' & Hm & Hij & Hlen & Hk).
      destruct (j =? i) eqn:Hji; [done|].
      apply IH in Hk as (l & c'' & Hm' & Hjl & Hlen' & Hk).
      exists l, c''. split; [econstructor; eauto|]. split; [lia|]. split; [lia|done].
    + exists i, c. split; [constructor|]. split; [lia|]. split; [lia|done].
Qed.

Lemma rmatch_sound r s : forall i c k a,
  rmatch r s i c k = Some a ->
  exists j c', matches s r i j /\ i <= j /\ (i <= length s -> j <= length s)
               /\ k j c' = Some a.
Proof.
  induction r as [|p|r1 IH1 r2 IH2|r1 IH1 r2 IH2|r IH|n r IH| | |r IH];
    intros i c k a H; cbn [rmatch] in H.
  - exists i, c. split; [constructor|]. split; [lia|]. split; [lia|done].
  - destruct (s !! i) as [ch|] eqn:Hch; [|done].
    destruct (p ch) eqn:Hp; [|done].
    exists (S i), c. split; [econstructor; eauto|]. split; [lia|].
    split; [|done]. intros _. apply lookup_lt_Some in Hch. lia.
  - apply IH1 in H as (j & c' & Hm1 & Hij & Hl1 & H).
    apply IH2 in H as (l & c'' & Hm2 & Hjl & Hl2 & H).
    exists l, c''. split; [econstructor; eauto|]. split; [lia|]. split; [lia|done].
  - destruct (rmatch r1 s i c k) as [a0|] eqn:H1.
    + injection H as ->. apply IH1 in H1 as (j & c' & Hm & ? & ? & ?).
      exists j, c'. split; [by apply matches_Alt_l|done].
    + apply IH2 in H as (j & c' & Hm & ? & ? & ?).
      exists j, c'. split; [by apply matches_Alt_r|done].
  - eapply star_loop_sound in H; [exact H|]. intros i0 c0 k0 a0 H0. exact (IH _ _ _ _ H0).
  - apply IH in H as (j & c' & Hm & ? & ? & ?).
    exists j, ((n, (i, j)) :: c'). split; [by constructor|done].
  - destruct (i =? 0) eqn:Hi; [|done]. apply Nat.eqb_eq in Hi as ->.
    exists 0, c. split; [constructor|]. split; [lia|]. split; [lia|done].
  - destruct (i =? length s) eqn:Hi; [|done]. apply Nat.eqb_eq in Hi as ->.
    exists (length s), c. split; [constructor|]. split; [lia|]. split; [lia|done].
  - destruct (rmatch r s i c _) as [[j c']|] eqn:H1; [|done].
    apply IH in H1 as (j' & c'' & Hm & ? & ? & ?).
    exists i, c'. split; [econstructor; eauto|]. split; [lia|]. split; [lia|done].
Qed.

Lemma match_at_sound r s i m :
  match_at r s i = Some m ->
  m_input m = s /\ m_index m = i /\ matches s r i (m_end m) /\ i <= m_end m
  /\ (i <= length s -> m_end m <= length s).
Proof.
  unfold match_at. destruct (rmatch r s i [] _) as [[j c]|] eqn:H; [|done].
  intros [= <-]. simpl. apply rmatch_sound in H as (j' & c' & Hm & ? & ? & [= -> ->]).
  done.
Qed.

Lemma search_sound r s n : forall i m,
  search r s n i = Some m ->
  m_input m = s /\ i <= m_index m /\ m_index m < i + n
  /\ matches s r (m_index m) (m_end m) /\ m_index m <= m_end m
  /\ (m_index m <= length s -> m_end m <= length s).
Proof.
  induction n as [|n IH]; intros i m H; simpl in H; [done|].
  destruct (match_at r s i) as [m0|] eqn:H0.
  - injection H as ->. apply match_at_sound in H0 as (? & -> & ? & ? & ?).
    repeat split; try done; lia.
  - apply IH in H as (? & ? & ? & ? & ? & ?). repeat split; try done; lia.
Qed.

Lemma exec_sound r s m :
  exec r s = Some m ->
  m_input m = s /\ matches s r (m_index m) (m_end m)
  /\ m_index m <= m_end m /\ m_end m <= length s.
Proof.
  unfold exec, exec_from. intros H. apply search_sound in H as (? & ? & ? & ? & ? & Hl).
  repeat split; try done. apply Hl. lia.
Qed.

Lemma matches_le s r i j : matches s r i j -> i <= j.
Proof. induction 1; lia. Qed.

Lemma matches_Cat_inv s r1 r2 i l :
  matches s (Cat r1 r2) i l -> exists j, matches s r1 i j /\ matches s r2 j l.
Proof. inversion 1; subst; eauto. Qed.

Lemma matches_Chr_inv s p i j :
  matches s (Chr p) i j -> j = S i /\ exists a, s !! i = Some a /\ p a = true.
Proof. inversion 1; subst; eauto. Qed.

Lemma matches_Bol_inv s i j : matches s Bol i j -> i = 0 /\ j = 0.
Proof. by inversion 1. Qed.

Lemma matches_Eol_inv s i j : matches s Eol i j -> i = length s /\ j = length s.
Proof. by inversion 1. Qed.

End RegexFacts.


(* ================================================================== *)
(** * Properties of the tokenizer *)

(** A match of the dollar-quote pattern starts at index 0 and spans at
    least the two dollar signs. *)
Lemma dollar_quote_match s m :
  Regex.exec Patterns.DOLLAR_QUOTE_REGEX s = Some m ->
  Regex.whole m = take (Regex.m_end m) s /\ 2 <= Regex.m_end m
  /\ Regex.m_end m <= length s.
Proof.
  intros H. apply exec_sound in H as (Hin & Hm & Hle & Hlen).
  unfold Regex.whole, JS.slice. rewrite Hin.
  unfold Patterns.DOLLAR_QUOTE_REGEX in Hm. cbn [Regex.seq] in Hm.
  apply matches_Cat_inv in Hm as (j1 & H1 & Hm). apply matches_Bol_inv in H1 as [Hi ->].
  apply matches_Cat_inv in Hm as (j2 & H2 & Hm). apply matches_Chr_inv in H2 as [-> _].
  apply matches_Cat_inv in Hm as (j3 & H3 & Hm). apply matches_le in H3.
  apply matches_Chr_inv in Hm as [He _].
  rewrite Hi, drop_0, Nat.sub_0_r. split; [done|]. split; [lia|done].
Qed.

Lemma starts_with_spec needle : forall s,
  JS.starts_with needle s = true <-> take (length needle) s = needle /\ length needle <= length s.
Proof.
  induction needle as [|a needle IH]; intros s; simpl.
  - rewrite take_0. split; [intros _; split; [done|lia]|done].
  - destruct s as [|b s]; simpl.
    + split; [done|]. intros [_ ?]. lia.
    + rewrite andb_true_iff, IH, Ascii.eqb_eq. split.
      * intros [-> [-> ?]]. split; [done|lia].
      * intros [[= -> ?] ?]. repeat split; [done|lia].
Qed.

Lemma find_from_spec needle : forall s i k,
  JS.find_from needle s i = Some k ->
  i <= k /\ JS.starts_with needle (drop (k - i) s) = true /\ k - i <= length s.
Proof.
  induction s as [|b s IH]; intros i k; simpl.
  - destruct (JS.starts_with needle []) eqn:E; [|done].
    intros [= <-]. rewrite Nat.sub_diag. simpl. split; [lia|]. split; [done|lia].
  - destruct (JS.starts_with needle (b :: s)) eqn:E.
    + intros [= <-]. rewrite Nat.sub_diag. simpl. split; [lia|]. split; [done|lia].
    + intros H. apply IH in H as (? & ? & ?).
      replace (k - i) with (S (k - S i)) by lia. simpl. split; [lia|]. split; [done|lia].
Qed.

Lemma indexOf_spec needle s from k :
  from <= length s ->
  JS.indexOf needle s from = Some k ->
  from <= k /\ k + length needle <= length s
  /\ take (length needle) (drop k s) = needle.
Proof.
  unfold JS.indexOf. intros Hfrom. rewrite Nat.min_l by done.
  intros H. apply find_from_spec in H as (? & Hs & Hk).
  rewrite drop_drop in Hs. replace (from + (k - from)) with k in Hs by lia.
  apply starts_with_spec in Hs as [? Hl]. rewrite !length_drop in *.
  split; [done|]. split; [lia|done].
Qed.

Lemma scan_inv_advance content st st' text :
  statements st' = statements st ->
  currentStatement st' = currentStatement st ++ text ->
  pos st < pos st' <= length content ->
  text = take (pos st' - pos st) (drop (pos st) content) ->
  scan_inv content st -> scan_inv content st' /\ pos st < pos st'.
Proof.
  intros Hs Hc Hp -> (Hcat & Hle & Hne). split; [|lia].
  unfold scan_inv. rewrite Hs, Hc, app_assoc, Hcat, take_take_drop.
  replace (pos st + (pos st' - pos st)) with (pos st') by lia.
  split; [done|]. split; [lia|done].
Qed.

Lemma take_one_drop (content : str) p c :
  content !! p = Some c -> [c] = take 1 (drop p content).
Proof. intros H. by rewrite (drop_S _ _ _ H). Qed.

Lemma take_two_drop (content : str) p c d :
  content !! p = Some c -> content !! S p = Some d ->
  [c; d] = take 2 (drop p content).
Proof. intros H1 H2. by rewrite (drop_S _ _ _ H1), (drop_S _ _ _ H2). Qed.

Lemma is_char_Some a c : is_char a c = true -> c = Some a.
Proof.
  destruct c as [b|]; simpl; [|done]. intros H. by apply Ascii.eqb_eq in H as ->.
Qed.

Lemma step_dollar_inv content char st :
  content !! pos st = Some char ->
  scan_inv content st ->
  scan_inv content (step_dollar content char st)
  /\ pos st < pos (step_dollar content char st).
Proof.
  intros Hch Hinv. pose proof (lookup_lt_Some _ _ _ Hch) as Hlt.
  unfold step_dollar, JS.slice_from.
  destruct (Regex.exec _ _) as [m|] eqn:Hm.
  - apply dollar_quote_match in Hm as (Hw & H2 & Hlen).
    rewrite length_drop in Hlen.
    assert (Htag : length (Regex.whole m) = Regex.m_end m).
    { rewrite Hw, length_take, length_drop. lia. }
    destruct (JS.indexOf _ _ _) as [closePos|] eqn:Hidx.
    + apply indexOf_spec in Hidx as (Hge & Hend & _); [|lia].
      apply scan_inv_advance with (text := JS.slice (pos st)
        (closePos + length (Regex.whole m)) content);
        unfold JS.slice; simpl; try done; lia.
    + apply scan_inv_advance with (text := Regex.whole m); simpl; try done; [lia|].
      rewrite Htag. rewrite Hw at 1. f_equal. lia.
  - apply scan_inv_advance with (text := [char]); simpl; try done; [lia|].
    replace (pos st + 1 - pos st) with 1 by lia. by apply take_one_drop.
Qed.

Lemma scan_inv_set_inDashComment content b st :
  scan_inv content (set_inDashComment b st) <-> scan_inv content st.
Proof. done. Qed.

Lemma scan_inv_set_inBlockComment content b st :
  scan_inv content (set_inBlockComment b st) <-> scan_inv content st.
Proof. done. Qed.

Lemma scan_inv_set_quotes content a b st :
  scan_inv content (set_quotes a b st) <-> scan_inv content st.
Proof. done. Qed.

Lemma consume_char_inv content char st st0 :
  content !! pos st = Some char ->
  statements st0 = statements st -> currentStatement st0 = currentStatement st ->
  pos st0 = pos st ->
  scan_inv content st ->
  scan_inv content (consume [char] 1 st0) /\ pos st < pos (consume [char] 1 st0).
Proof.
  intros Hch Hs Hc Hp Hinv. pose proof (lookup_lt_Some _ _ _ Hch) as Hlt.
  apply scan_inv_advance with (text := [char]); simpl; try done.
  - by rewrite Hc.
  - lia.
  - rewrite Hp. replace (pos st + 1 - pos st) with 1 by lia. by apply take_one_drop.
Qed.

Lemma consume_two_inv content c d st st0 :
  content !! pos st = Some c -> content !! S (pos st) = Some d ->
  statements st0 = statements st -> currentStatement st0 = currentStatement st ->
  pos st0 = pos st ->
  scan_inv content st ->
  scan_inv content (consume [c; d] 2 st0) /\ pos st < pos (consume [c; d] 2 st0).
Proof.
  intros Hc1 Hc2 Hs Hc Hp Hinv. pose proof (lookup_lt_Some _ _ _ Hc2) as Hlt.
  apply scan_inv_advance with (text := [c; d]); simpl; try done.
  - by rewrite Hc.
  - lia.
  - rewrite Hp. replace (pos st + 2 - pos st) with 2 by lia. by apply take_two_drop.
Qed.

Lemma emit_inv content char st st0 :
  content !! pos st = Some char ->
  statements st0 = statements st -> currentStatement st0 = currentStatement st ->
  pos st0 = pos st ->
  scan_inv content st ->
  scan_inv content (emit char st0) /\ pos st < pos (emit char st0).
Proof.
  intros Hch Hs Hc Hp (Hcat & Hle & Hne). pose proof (lookup_lt_Some _ _ _ Hch) as Hlt.
  split; [|simpl; lia]. unfold scan_inv; simpl.
  rewrite Hs, Hc, Hp, concat_app. simpl. rewrite !app_nil_r, app_assoc, Hcat.
  split; [by rewrite (take_S_r _ _ _ Hch)|]. split; [lia|].
  apply Forall_app. split; [done|]. apply Forall_singleton. by destruct (currentStatement st).
Qed.

Lemma step_transitions_inv content separator char st :
  content !! pos st = Some char ->
  scan_inv content st ->
  scan_inv content (step_transitions separator char (content !! S (pos st)) st)
  /\ pos st < pos (step_transitions separator char (content !! S (pos st)) st).
Proof.
  intros Hch Hinv. unfold step_transitions.
  destruct (inDashComment st).
  { destruct (_ || _); by apply consume_char_inv. }
  destruct (inBlockComment st).
  { destruct (Ascii.eqb char "*") eqn:E1; simpl; [|by apply consume_char_inv].
    destruct (is_char "/" _) eqn:E2; [|by apply consume_char_inv].
    apply Ascii.eqb_eq in E1 as ->. apply is_char_Some in E2.
    by apply (consume_two_inv content "*" "/"). }
  match goal with |- context [emit char ?s] => set (st' := s) end.
  assert (statements st' = statements st /\ currentStatement st' = currentStatement st
          /\ pos st' = pos st) as (Hs & Hc & Hp).
  { subst st'. destruct (_ && _); [done|]. by destruct (_ && _). }
  clearbody st'. destruct (_ && _); [by apply emit_inv | by apply consume_char_inv].
Qed.

Lemma step_inv content separator st :
  pos st < length content ->
  scan_inv content st ->
  scan_inv content (step content separator st)
  /\ pos st < pos (step content separator st).
Proof.
  intros Hlt Hinv. unfold step.
  destruct (content !! pos st) as [char|] eqn:Hch.
  2: { apply lookup_ge_None in Hch. lia. }
  destruct (Ascii.eqb char "$"); [by apply step_dollar_inv|].
  destruct (_ && is_char "-" _) eqn:E1.
  { apply andb_true_iff in E1 as [E1 E2]. apply andb_true_iff in E1 as [_ E1].
    apply Ascii.eqb_eq in E1. subst char. apply is_char_Some in E2.
    by apply (consume_two_inv content "-" "-"). }
  destruct (_ && is_char "*" _) eqn:E2.
  { apply andb_true_iff in E2 as [E2 E3]. apply andb_true_iff in E2 as [_ E2].
    apply Ascii.eqb_eq in E2. subst char. apply is_char_Some in E3.
    by apply (consume_two_inv content "/" "*"). }
  by apply step_transitions_inv.
Qed.

Lemma scan_reaches_end content separator : forall fuel st,
  length content - pos st <= fuel ->
  scan_inv content st ->
  scan_inv content (scan fuel content separator st)
  /\ pos (scan fuel content separator st) = length content.
Proof.
  induction fuel as [|fuel IH]; intros st Hfuel Hinv; simpl.
  - split; [done|]. destruct Hinv as (_ & ? & _). lia.
  - destruct (pos st <? length content) eqn:E.
    + apply Nat.ltb_lt in E. destruct (step_inv content separator st E Hinv) as [Hinv' Hlt].
      apply IH; [lia|done].
    + apply Nat.ltb_ge in E. split; [done|]. destruct Hinv as (_ & ? & _). lia.
Qed.

Lemma scan_inv_initial content : scan_inv content initial_state.
Proof. unfold scan_inv; simpl. split; [by rewrite take_0|]. split; [lia|done]. Qed.

Lemma splitIntoStatements_spells_input (content : str) (separator : Separator) :
  concat (splitIntoStatements content separator) = content
  /\ Forall (fun statement => statement <> []) (splitIntoStatements content separator).
Proof.
  unfold splitIntoStatements.
  destruct (scan_reaches_end content separator (length content) initial_state)
    as [(Hcat & _ & Hne) Hpos]; [simpl; lia | apply scan_inv_initial |].
  rewrite Hpos, firstn_all in Hcat.
  destruct (currentStatement _) as [|c cur] eqn:Hcur; simpl.
  - by rewrite app_nil_r in Hcat.
  - rewrite concat_app. simpl. rewrite app_nil_r. split; [done|].
    apply Forall_app. split; [done|]. by apply Forall_singleton.
Qed.

(** Claim C10.  For every input and either separator the tokenizer
    partitions its input: the statements it returns, concatenated in order,
    are the input character for character, and none of them is empty.
    Unclosed comments, quotes and dollar-quotes are covered: the statement
    holds for every input. *)
Theorem splitIntoStatements_partition (content : str) (separator : Separator) :
  concat (splitIntoStatements content separator) = content
  /\ Forall (fun statement => statement <> []) (splitIntoStatements content separator).
Proof. apply splitIntoStatements_spells_input. Qed.

Lemma star_chr_greedy s p body k :
  (forall i c k', body i c k' = Regex.rmatch (Regex.Chr p) s i c k') ->
  forall n fuel i c a,
  n <= fuel ->
  (forall m, m < n -> exists ch, s !! (i + m) = Some ch /\ p ch = true) ->
  (forall ch, s !! (i + n) = Some ch -> p ch = false) ->
  k (i + n) c = Some a ->
  Regex.star_loop body k fuel i c = Some a.
Proof.
  intros Hbody.
  induction n as [|n IH]; intros fuel i c a Hfuel Hrun Hstop Hk.
  - rewrite Nat.add_0_r in *. destruct fuel as [|fuel]; [done|].
    cbn [Regex.star_loop]. rewrite Hbody. cbn [Regex.rmatch].
    destruct (s !! i) as [ch|] eqn:E; [|done]. by rewrite (Hstop ch).
  - destruct fuel as [|fuel]; [lia|].
    cbn [Regex.star_loop]. rewrite Hbody. cbn [Regex.rmatch].
    destruct (Hrun 0) as (ch & Hch & Hp); [lia|]. rewrite Nat.add_0_r in Hch.
    rewrite Hch, Hp. replace (S i =? i) with false by (symmetry; apply Nat.eqb_neq; lia).
    rewrite (IH fuel (S i) c a); [done|lia| | |].
    + intros m Hm. destruct (Hrun (S m)) as (ch' & ? & ?); [lia|].
      exists ch'. by replace (S i + m) with (i + S m) by lia.
    + intros ch'. replace (S i + n) with (i + S n) by lia. apply Hstop.
    + by replace (S i + n) with (i + S n) by lia.
Qed.

Lemma tag_part_dollar : Patterns.tag_part Patterns.dollar = false.
Proof. reflexivity. Qed.

Lemma tag_start_dollar : Patterns.tag_start Patterns.dollar = false.
Proof. reflexivity. Qed.

Lemma dollar_tag_first name rest : (dollar_tag name ++ rest) !! 0 = Some Patterns.dollar.
Proof. done. Qed.

Lemma dollar_tag_name name rest m :
  m < length name -> (dollar_tag name ++ rest) !! S m = name !! m.
Proof.
  intros Hm. unfold dollar_tag. simpl. rewrite <- app_assoc. by rewrite lookup_app_l.
Qed.

Lemma dollar_tag_last name rest :
  (dollar_tag name ++ rest) !! S (length name) = Some Patterns.dollar.
Proof.
  unfold dollar_tag. simpl. rewrite <- app_assoc, lookup_app_r by lia.
  by rewrite Nat.sub_diag.
Qed.

Lemma length_dollar_tag name : length (dollar_tag name) = S (S (length name)).
Proof. unfold dollar_tag. simpl. rewrite length_app. simpl. lia. Qed.

(** On a text that starts with a tag, the dollar-quote pattern matches
    exactly the tag. *)
Lemma dollar_quote_exec name rest :
  tag_name_ok name = true ->
  exists m, Regex.exec Patterns.DOLLAR_QUOTE_REGEX (dollar_tag name ++ rest) = Some m
            /\ Regex.whole m = dollar_tag name.
Proof.
  intros Hname.
  pose proof (dollar_tag_first name rest) as H0.
  pose proof (dollar_tag_last name rest) as Hlast.
  pose proof (dollar_tag_name name rest) as Hmid.
  assert (Hlen : length name + 2 <= length (dollar_tag name ++ rest)).
  { rewrite length_app, length_dollar_tag. lia. }
  remember (dollar_tag name ++ rest) as s eqn:Hs.
  assert (Hm : Regex.match_at Patterns.DOLLAR_QUOTE_REGEX s 0
               = Some {| Regex.m_input := s; Regex.m_index := 0;
                         Regex.m_end := S (S (length name));
                         Regex.m_groups := [] |}).
  { unfold Regex.match_at, Patterns.DOLLAR_QUOTE_REGEX, Regex.Opt.
    cbn [Regex.seq Regex.rmatch Regex.chr].
    change (0 =? 0) with true. cbv iota. rewrite H0, Ascii.eqb_refl.
    destruct name as [|c name'].
    - simpl in Hlast. rewrite Hlast, tag_start_dollar. cbv beta iota.
      by rewrite Ascii.eqb_refl.
    - simpl in Hname. apply andb_true_iff in Hname as [Hc Hrest].
      rewrite (Hmid 0) by (simpl; lia). simpl (_ !! 0). cbv iota. rewrite Hc.
      rewrite (star_chr_greedy s Patterns.tag_part _ _ (fun _ _ _ => eq_refl)
                 (length name') _ 2 [] (S (S (length (c :: name'))), [])); [done| | | |].
      + simpl in Hlen. lia.
      + intros m Hm. rewrite forallb_forall in Hrest.
        destruct (name' !! m) as [ch|] eqn:E; [|apply lookup_ge_None in E; lia].
        exists ch. split.
        * change (2 + m) with (S (S m)). rewrite Hmid by (simpl; lia). done.
        * apply Hrest. apply list_elem_of_In. by eapply list_elem_of_lookup_2.
      + intros ch. simpl in Hlast. simpl. rewrite Hlast. by intros [= <-].
      + simpl in Hlast. simpl. rewrite Hlast. by rewrite ?Ascii.eqb_refl. }
  eexists. split.
  - unfold Regex.exec, Regex.exec_from. cbn [Regex.search]. rewrite Hm. reflexivity.
  - unfold Regex.whole, JS.slice. cbn [Regex.m_index Regex.m_end Regex.m_input].
    rewrite drop_0, Nat.sub_0_r, Hs, <- length_dollar_tag. by rewrite take_app_length.
Qed.

Lemma find_from_shift needle : forall s i,
  JS.find_from needle s i = (fun k => i + k) <$> JS.find_from needle s 0.
Proof.
  induction s as [|b s IH]; intros i; simpl.
  - destruct (JS.starts_with needle []); simpl; [f_equal; lia | done].
  - destruct (JS.starts_with needle (b :: s)); simpl; [f_equal; lia|].
    rewrite (IH (S i)), (IH 1). destruct (JS.find_from needle s 0); simpl; [f_equal; lia|done].
Qed.

Lemma indexOf_drop needle (s : str) from :
  from <= length s ->
  JS.indexOf needle s from = (fun k => from + k) <$> JS.indexOf needle (drop from s) 0.
Proof.
  intros H. unfold JS.indexOf. rewrite Nat.min_l by done.
  rewrite Nat.min_0_l, drop_0. apply find_from_shift.
Qed.

Lemma drop_lookup_head (content : str) p c rest :
  drop p content = c :: rest -> content !! p = Some c /\ p < length content.
Proof.
  intros H. assert (content !! (p + 0) = Some c) as H'.
  { rewrite <- lookup_drop, H. done. }
  rewrite Nat.add_0_r in H'. split; [done|]. by eapply lookup_lt_Some.
Qed.

(** A dollar-quoted span is consumed in one iteration: the text from the
    opening tag to the end of the closing tag is appended to the current
    statement, and neither the flags nor the list of statements change. *)
Lemma step_closed_dollar_quote content separator st name body rest :
  tag_name_ok name = true ->
  drop (pos st) content = dollar_tag name ++ body ++ dollar_tag name ++ rest ->
  JS.indexOf (dollar_tag name) (body ++ dollar_tag name ++ rest) 0 = Some (length body) ->
  step content separator st
  = consume_to (dollar_tag name ++ body ++ dollar_tag name)
      (pos st + length (dollar_tag name ++ body ++ dollar_tag name)) st.
Proof.
  intros Hname Hdrop Hclose.
  destruct (drop_lookup_head content (pos st) Patterns.dollar
              (name ++ [Patterns.dollar] ++ body ++ dollar_tag name ++ rest))
    as [Hch Hlt].
  { rewrite Hdrop. unfold dollar_tag. simpl. by rewrite <- app_assoc. }
  unfold step. rewrite Hch. change (Ascii.eqb Patterns.dollar "$") with true. cbv iota.
  unfold step_dollar, JS.slice_from. rewrite Hdrop.
  destruct (dollar_quote_exec name (body ++ dollar_tag name ++ rest) Hname)
    as (m & -> & ->).
  assert (Hlen : pos st + length (dollar_tag name) <= length content).
  { assert (length (drop (pos st) content) = length content - pos st) as E
      by apply length_drop.
    rewrite Hdrop, length_app in E. lia. }
  rewrite indexOf_drop by done.
  rewrite <- drop_drop, Hdrop, drop_app_length, Hclose.
  cbn [fmap option_fmap option_map].
  unfold JS.slice. rewrite Hdrop.
  replace (pos st + length (dollar_tag name) + length body + length (dollar_tag name))
    with (pos st + length (dollar_tag name ++ body ++ dollar_tag name))
    by (rewrite !length_app; lia).
  f_equal.
  replace (pos st + length (dollar_tag name ++ body ++ dollar_tag name) - pos st)
    with (length (dollar_tag name ++ body ++ dollar_tag name)) by lia.
  rewrite !app_assoc. rewrite <- (app_assoc _ body). by rewrite take_app_length.
Qed.

(** An opening tag without a closing tag is appended to the current
    statement and the scan goes on behind it; neither the flags nor the list
    of statements change. *)
Lemma step_unclosed_dollar_quote content separator st name rest :
  tag_name_ok name = true ->
  drop (pos st) content = dollar_tag name ++ rest ->
  JS.indexOf (dollar_tag name) rest 0 = None ->
  step content separator st
  = consume (dollar_tag name) (length (dollar_tag name)) st.
Proof.
  intros Hname Hdrop Hclose.
  destruct (drop_lookup_head content (pos st) Patterns.dollar
              (name ++ [Patterns.dollar] ++ rest)) as [Hch Hlt].
  { rewrite Hdrop. unfold dollar_tag. simpl. by rewrite <- app_assoc. }
  unfold step. rewrite Hch. change (Ascii.eqb Patterns.dollar "$") with true. cbv iota.
  unfold step_dollar, JS.slice_from. rewrite Hdrop.
  destruct (dollar_quote_exec name rest Hname) as (m & -> & ->).
  assert (Hlen : pos st + length (dollar_tag name) <= length content).
  { assert (length (drop (pos st) content) = length content - pos st) as E
      by apply length_drop.
    rewrite Hdrop, length_app in E. lia. }
  rewrite indexOf_drop by done.
  by rewrite <- drop_drop, Hdrop, drop_app_length, Hclose.
Qed.

(** A statement is pushed only by the separator branch, which is reached
    only in the [Normal] state. *)
Lemma step_pushes_only_in_normal_state content separator st :
  statements (step content separator st) <> statements st ->
  normal_state st
  /\ content !! pos st = Some (separator_char separator)
  /\ step content separator st = emit (separator_char separator) st.
Proof.
  unfold step, normal_state.
  destruct (content !! pos st) as [char|]; [|done].
  destruct (Ascii.eqb char "$") eqn:Edollar.
  { unfold step_dollar. repeat case_match; done. }
  destruct (_ && is_char "-" _); [done|].
  destruct (_ && is_char "*" _); [done|].
  unfold step_transitions.
  destruct (inDashComment st) eqn:E1. { by destruct (_ || _). }
  destruct (inBlockComment st) eqn:E2. { by destruct (_ && _). }
  destruct (Ascii.eqb char (separator_char separator)) eqn:Esep.
  2: { rewrite andb_false_r. by repeat case_match. }
  apply Ascii.eqb_eq in Esep. subst char.
  replace (Ascii.eqb (separator_char separator) Char.SQUOTE) with false
    by (by destruct separator).
  replace (Ascii.eqb (separator_char separator) Char.DQUOTE) with false
    by (by destruct separator).
  rewrite !andb_false_r. rewrite andb_true_r.
  destruct (inSingleQuote st) eqn:E3; [done|].
  destruct (inDoubleQuote st) eqn:E4; [done|]. done.
Qed.

Lemma splitIntoStatements_one_step content separator st :
  content <> [] ->
  step content separator initial_state = st ->
  pos st = length content -> statements st = [] -> currentStatement st <> [] ->
  splitIntoStatements content separator = [currentStatement st].
Proof.
  intros Hne Hstep Hpos Hs Hc. unfold splitIntoStatements.
  destruct content as [|c content']; [done|].
  cbn [length scan]. change (pos initial_state <? S (length content')) with true.
  cbv iota. rewrite Hstep.
  assert (scan (length content') (c :: content') separator st = st) as ->.
  { destruct (length content'); simpl; [done|].
    replace (pos st <? S (length content')) with false; [done|].
    symmetry. apply Nat.ltb_ge. simpl in Hpos. lia. }
  rewrite Hs. destruct (currentStatement st); done.
Qed.

Lemma step_separator_in_normal_state content separator st :
  normal_state st ->
  content !! pos st = Some (separator_char separator) ->
  step content separator st = emit (separator_char separator) st.
Proof.
  intros (E1 & E2 & E3 & E4) Hch. unfold step. rewrite Hch.
  replace (Ascii.eqb (separator_char separator) "$") with false by (by destruct separator).
  replace (Ascii.eqb (separator_char separator) "-") with false by (by destruct separator).
  replace (Ascii.eqb (separator_char separator) "/") with false by (by destruct separator).
  rewrite !andb_false_r. cbv iota.
  unfold step_transitions. rewrite E1, E2, E3, E4.
  replace (Ascii.eqb (separator_char separator) Char.SQUOTE) with false
    by (by destruct separator).
  replace (Ascii.eqb (separator_char separator) Char.DQUOTE) with false
    by (by destruct separator).
  simpl. rewrite E3, E4. by rewrite Ascii.eqb_refl.
Qed.



(** The two examples of the specification: a semicolon between [$$] and
    [$$], and an inner [$$] pair inside a [$tag$] span. *)
Example split_anonymous_dollar_quote :
  splitIntoStatements (lit "SELECT $$a;b$$;SELECT 1;") semicolon
  = [lit "SELECT $$a;b$$;"; lit "SELECT 1;"].
Proof. vm_compute. reflexivity. Qed.

Example split_nested_dollar_quote :
  splitIntoStatements (lit "DO $tag$ x $$ y; $$ z $tag$;SELECT 1;") semicolon
  = [lit "DO $tag$ x $$ y; $$ z $tag$;"; lit "SELECT 1;"].
Proof. vm_compute. reflexivity. Qed.

(** Claim C7 as stated fails: the unclosed tag of [--$$;x] is met inside a
    line comment; behind the tag the scanner is still in that comment, not in
    the Normal state, and the semicolon that follows does not split. *)
Lemma unclosed_tag_in_comment_counterexample :
  let content := lit "--$$;x" in
  let at_tag := step content semicolon initial_state in
  drop (pos at_tag) content = dollar_tag [] ++ lit ";x"
  /\ JS.indexOf (dollar_tag []) (lit ";x") 0 = None
  /\ ~ normal_state (step content semicolon at_tag)
  /\ splitIntoStatements content semicolon = [content].
Proof.
  split; [reflexivity|]. split; [reflexivity|]. split; [|vm_compute; reflexivity].
  intros (H & _). vm_compute in H. discriminate.
Qed.

(** Claim C7, amended.  An opening dollar-quote tag with no closing tag
    before the end of the input is appended to the current statement as it
    is, and the scan goes on right behind the tag in the state the scanner
    was in when it met the tag: the flags and the pushed statements are
    unchanged, so a scanner that was in the Normal state is in the Normal
    state behind the tag, where the separator again pushes a statement.  The
    step is a total function: nothing is raised. *)
Theorem unclosed_dollar_quote_is_literal content separator st name rest :
  tag_name_ok name = true ->
  drop (pos st) content = dollar_tag name ++ rest ->
  JS.indexOf (dollar_tag name) rest 0 = None ->
  let st' := step content separator st in
  st' = consume (dollar_tag name) (length (dollar_tag name)) st
  /\ drop (pos st') content = rest
  /\ statements st' = statements st
  /\ inDashComment st' = inDashComment st
  /\ inBlockComment st' = inBlockComment st
  /\ inSingleQuote st' = inSingleQuote st
  /\ inDoubleQuote st' = inDoubleQuote st
  /\ (normal_state st -> normal_state st')
  /\ (normal_state st ->
      content !! pos st' = Some (separator_char separator) ->
      step content separator st' = emit (separator_char separator) st').
Proof.
  intros Hname Hdrop Hclose st'.
  assert (Hst : st' = consume (dollar_tag name) (length (dollar_tag name)) st)
    by exact (step_unclosed_dollar_quote _ _ _ _ rest Hname Hdrop Hclose).
  split; [done|]. rewrite Hst.
  cbn [consume pos statements inDashComment inBlockComment inSingleQuote inDoubleQuote].
  split. { by rewrite <- drop_drop, Hdrop, drop_app_length. }
  do 5 (split; [done|]). split; [done|].
  intros Hn Hch. by apply step_separator_in_normal_state.
Qed.

Lemma unclosed_dollar_quote_is_literal_witness :
  let content := lit "$q$ a;b" in
  tag_name_ok (lit "q") = true
  /\ drop (pos initial_state) content = dollar_tag (lit "q") ++ lit " a;b"
  /\ JS.indexOf (dollar_tag (lit "q")) (lit " a;b") 0 = None
  /\ step content semicolon initial_state
     = consume (lit "$q$") 3 initial_state
  /\ splitIntoStatements content semicolon = [lit "$q$ a;"; lit "b"].
Proof.
  intros content.
  destruct (unclosed_dollar_quote_is_literal content semicolon initial_state (lit "q")
              (lit " a;b") eq_refl eq_refl eq_refl) as (H1 & _).
  split; [reflexivity|]. split; [reflexivity|]. split; [reflexivity|].
  split; [exact H1 | vm_compute; reflexivity].
Defined.

(* ================================================================== *)
(** * Properties of the attachment engine *)

Lemma group_step_lookup acc statement q :
  group_step acc statement !! q = entry_step q (acc !! q) statement.
Proof.
  unfold group_step, entry_step. case_bool_decide as Hq.
  - subst q. rewrite lookup_alter_eq.
    destruct (acc !! qualifiedTable_of statement) as [e|] eqn:E.
    + by rewrite E.
    + by rewrite lookup_insert_eq.
  - rewrite lookup_alter_ne by done.
    destruct (acc !! qualifiedTable_of statement); [done|].
    by rewrite lookup_insert_ne.
Qed.

Lemma group_lookup l : forall acc q,
  foldl group_step acc l !! q = foldl (entry_step q) (acc !! q) l.
Proof.
  induction l as [|a l IH]; intros acc q; simpl; [done|].
  by rewrite IH, group_step_lookup.
Qed.

Lemma groupAttachablesByTable_lookup l q :
  groupAttachablesByTable l !! q = foldl (entry_step q) None l.
Proof. unfold groupAttachablesByTable. by rewrite group_lookup, lookup_empty. Qed.

Lemma entry_step_other q entry statement :
  qualifiedTable_of statement <> q -> entry_step q entry statement = entry.
Proof. intros H. unfold entry_step. by rewrite bool_decide_eq_false_2. Qed.

Lemma map_outcome_ext {A B} (f g : A -> outcome B) l :
  (forall a, a ∈ l -> f a = g a) -> map_outcome f l = map_outcome g l.
Proof.
  induction l as [|a l IH]; intros H; simpl; [done|].
  rewrite H by left. rewrite IH; [done|]. intros b Hb. apply H. by right.
Qed.

Lemma map_outcome_Done {A} (f : A -> outcome A) l :
  (forall a, a ∈ l -> f a = Done a) -> map_outcome f l = Done l.
Proof.
  induction l as [|a l IH]; intros H; simpl; [done|].
  rewrite H by left. simpl. rewrite IH; [done|]. intros b Hb. apply H. by right.
Qed.

Lemma attach_object_other_kind byTable object :
  is_table_or_view (o_type object) = false -> attach_object byTable object = Done object.
Proof. intros H. unfold attach_object. by rewrite H. Qed.

Lemma attachObjectsToTables_nil (objects : list DatabaseObject) :
  attachObjectsToTables objects [] = Done objects.
Proof.
  unfold attachObjectsToTables. apply map_outcome_Done. intros object _.
  unfold attach_object. destruct (is_table_or_view _); [|done].
  by rewrite groupAttachablesByTable_lookup.
Qed.

(** Claim C9.  With no attachable statement the attachment engine returns
    every object as it was: the definition text of every table and view
    is unchanged, and [sequences], [constraints] and [indexes] stay as they
    were (unset, for the objects [parse] builds). *)
Theorem attach_nothing_is_identity (objects : list DatabaseObject) :
  attachObjectsToTables objects [] = Done objects.
Proof. apply attachObjectsToTables_nil. Qed.

Lemma attach_without_unmatched objects before statement after :
  (forall object, object ∈ objects -> is_table_or_view (o_type object) = true ->
     qualifiedTable_of_object object <> qualifiedTable_of statement) ->
  attachObjectsToTables objects (before ++ statement :: after)
  = attachObjectsToTables objects (before ++ after).
Proof.
  intros Hno. unfold attachObjectsToTables. apply map_outcome_ext.
  intros object Hin. unfold attach_object.
  destruct (is_table_or_view (o_type object)) eqn:Hkind; [|done].
  rewrite !groupAttachablesByTable_lookup, !foldl_app. simpl.
  rewrite entry_step_other; [done|]. intros E. by eapply Hno.
Qed.

Lemma collect_attachable acc statement a :
  JS.trim statement <> [] ->
  parseStatement (JS.trim statement) = Some (Attachable a) ->
  collect acc statement
  = {| c_objects := c_objects acc;
       c_attachableStatements := c_attachableStatements acc ++ [a];
       c_residual := c_residual acc ++ residual_prefix (at_base a) |}.
Proof.
  intros Hne Hp. unfold collect. rewrite Hp.
  destruct (JS.trim statement); [done|]. simpl. unfold residual_prefix.
  destruct (ps_residual (at_base a)) as [r|]; [|by rewrite app_nil_r; destruct acc].
  destruct (JS.truthy r); [done|]. by rewrite app_nil_r; destruct acc.
Qed.

(** Attachment changes objects of kind table or view only, and an
    attachable statement whose key [schema.table] (the key under which
    [groupAttachablesByTable] files it) is the qualified name of no table or
    view object is dropped: the result of the attachment engine is the same
    with and without it.  While the statements are classified it is put on
    the side list only, so it adds no object, and nothing of its definition
    text goes to the residual (only a text before the matched keyword
    would).  The dump [CREATE INDEX idx_a ON public.t (a);] gives no object
    and an empty residual. *)
Lemma unmatched_attachable_is_dropped objects before statement after :
  (forall object, object ∈ objects -> is_table_or_view (o_type object) = true ->
     qualifiedTable_of_object object <> qualifiedTable_of statement) ->
  attachObjectsToTables objects (before ++ statement :: after)
  = attachObjectsToTables objects (before ++ after)
  /\ (forall byTable object,
        is_table_or_view (o_type object) = false ->
        attach_object byTable object = Done object)
  /\ (forall acc text,
        JS.trim text <> [] ->
        parseStatement (JS.trim text) = Some (Attachable statement) ->
        c_objects (collect acc text) = c_objects acc
        /\ c_residual (collect acc text)
           = c_residual acc ++ residual_prefix (at_base statement))
  /\ parse (lit "CREATE INDEX idx_a ON public.t (a);")
     = Done {| objects := []; residual := [] |}.
Proof.
  intros Hno. split; [by apply attach_without_unmatched|].
  split; [apply attach_object_other_kind|]. split; [|vm_compute; reflexivity].
  intros acc text Hne Hp. by rewrite (collect_attachable acc text statement).
Qed.

Lemma unmatched_attachable_is_dropped_witness :
  (forall object, object ∈ [example_table] ->
     is_table_or_view (o_type object) = true ->
     qualifiedTable_of_object object <> qualifiedTable_of example_index)
  /\ parseStatement (lit "CREATE INDEX idx_a ON public.t (a);")
     = Some (Attachable example_index)
  /\ attachObjectsToTables [example_table] ([] ++ example_index :: [])
     = attachObjectsToTables [example_table] ([] ++ [])
  /\ attachObjectsToTables [example_table] [example_index] = Done [example_table].
Proof.
  assert (H : forall object, object ∈ [example_table] ->
     is_table_or_view (o_type object) = true ->
     qualifiedTable_of_object object <> qualifiedTable_of example_index).
  { intros object Hin _. apply list_elem_of_singleton in Hin. subst object.
    vm_compute. discriminate. }
  destruct (unmatched_attachable_is_dropped [example_table] [] example_index [] H)
    as (H1 & _).
  split; [exact H|]. split; [vm_compute; reflexivity|]. split; [exact H1|].
  simpl in H1. rewrite H1. apply attachObjectsToTables_nil.
Defined.

(** Claim C6 fails on the code.  The identity sequence of the statement
    [ALTER TABLE app.users ALTER COLUMN id ADD GENERATED ALWAYS AS IDENTITY
    (SEQUENCE NAME public.users_id_seq START WITH 1);] belongs to the table
    [app.users] ([tableSchema] is [app]), and the dump holds no such table.
    The statement is not dropped: [groupAttachablesByTable] files it under
    the schema of the sequence name, [public.users], and it is spliced into
    the table [public.users]. *)
Theorem sequence_of_an_absent_table_is_attached :
  parseStatement foreign_sequence_statement
  = Some (Attachable (of_sequence foreign_sequence))
  /\ makeQualifiedName (sq_tableSchema foreign_sequence)
       (Some (sq_table foreign_sequence)) = lit "app.users"
  /\ qualifiedTable_of (of_sequence foreign_sequence) = lit "public.users"
  /\ parse foreign_sequence_dump
     = Done {| objects := [foreign_sequence_table]; residual := [] |}.
Proof. repeat split; vm_compute; reflexivity. Qed.

(* ================================================================== *)
(** * Every character of the dump is accounted for *)

Lemma drop_while_decompose p : forall s,
  exists pre, s = pre ++ JS.drop_while p s /\ forallb p pre = true.
Proof.
  induction s as [|c s (pre & Hs & Hp)]; simpl.
  - by exists [].
  - destruct (p c) eqn:E.
    + exists (c :: pre). simpl. rewrite E, Hp. split; [by f_equal|done].
    + by exists [].
Qed.

Lemma forallb_rev {A} (p : A -> bool) l : forallb p (rev l) = forallb p l.
Proof.
  induction l as [|a l IH]; simpl; [done|].
  rewrite forallb_app, IH. simpl. rewrite andb_true_r. apply andb_comm.
Qed.

(** [trim] removes white space only, at the two ends. *)
Lemma trim_decompose s :
  exists pre post, s = pre ++ JS.trim s ++ post /\ all_space pre /\ all_space post.
Proof.
  unfold JS.trim, JS.trimStart, JS.trimEnd, all_space.
  destruct (drop_while_decompose Char.is_space (rev s)) as (post & Hpost & Hp).
  set (t := rev (JS.drop_while Char.is_space (rev s))).
  assert (Hs : s = t ++ rev post).
  { subst t. rewrite <- rev_app_distr, <- Hpost. by rewrite rev_involutive. }
  destruct (drop_while_decompose Char.is_space t) as (pre & Hpre & Hq).
  exists pre, (rev post). split.
  - rewrite Hs at 1. rewrite Hpre at 1. by rewrite <- app_assoc.
  - split; [done|]. by rewrite forallb_rev.
Qed.

Lemma first_match_base registry : forall statement parser m,
  Forall (fun parser => forall m s,
            ps_definition (base (p_parse parser m s)) = (extractDefinition m s).1
            /\ ps_residual (base (p_parse parser m s)) = (extractDefinition m s).2)
         registry ->
  first_match registry statement = Some (parser, m) ->
  ps_definition (base (p_parse parser m statement)) = (extractDefinition m statement).1
  /\ ps_residual (base (p_parse parser m statement)) = (extractDefinition m statement).2.
Proof.
  induction registry as [|p registry IH]; intros statement parser m Hall H; [done|].
  simpl in H. inversion Hall; subst.
  destruct (Regex.exec (p_regex p) statement); [|by eapply IH].
  injection H as <- <-. done.
Qed.

Lemma registry_uses_extractDefinition :
  Forall (fun parser => forall m s,
            ps_definition (base (p_parse parser m s)) = (extractDefinition m s).1
            /\ ps_residual (base (p_parse parser m s)) = (extractDefinition m s).2)
         PARSER_REGISTRY.
Proof. unfold PARSER_REGISTRY. repeat constructor. Qed.

(** The definition of a classified statement is the statement from the
    start of the match on, and its residual the text before the match. *)
Lemma parseStatement_cuts statement parsed :
  parseStatement statement = Some parsed ->
  default [] (ps_residual (base parsed)) ++ ps_definition (base parsed) = statement.
Proof.
  unfold parseStatement.
  destruct (first_match PARSER_REGISTRY statement) as [[parser m]|] eqn:E; [|done].
  intros [= <-].
  destruct (first_match_base _ _ _ _ registry_uses_extractDefinition E) as [-> ->].
  unfold extractDefinition, JS.slice, JS.slice_from.
  destruct (Regex.m_index m =? 0); simpl; [done|].
  rewrite drop_0, Nat.sub_0_r. apply take_drop.
Qed.

Lemma texts_of_app o l1 l2 : texts_of o (l1 ++ l2) = texts_of o l1 ++ texts_of o l2.
Proof.
  induction l1 as [|p l1 IH]; simpl; [done|].
  destruct (same_origin (origin p) o); simpl; by rewrite IH.
Qed.

Lemma all_space_nil : all_space [].
Proof. done. Qed.

Lemma route_accounted parsed acc pieces pre post :
  all_space pre -> all_space post ->
  accounted pieces acc ->
  exists o,
    o <> skipped /\ o <> from_residual /\
    accounted (pieces ++ [{| before := pre; origin := o;
                             text := ps_definition (base parsed); after := post |}])
      (route parsed acc).
Proof.
  intros Hpre Hpost (Ho & Ha & Hr).
  destruct parsed as [t q b|b|a]; simpl.
  - exists from_object. split; [done|]. split; [done|].
    unfold accounted. rewrite !texts_of_app, Ho, Ha, Hr. simpl.
    destruct t; simpl; by rewrite map_app, !app_nil_r.
  - exists from_object. split; [done|]. split; [done|].
    unfold accounted. rewrite !texts_of_app, Ho, Ha, Hr. simpl.
    by rewrite map_app, !app_nil_r.
  - exists from_attachable. split; [done|]. split; [done|].
    unfold accounted. rewrite !texts_of_app, Ho, Ha, Hr. simpl.
    by rewrite map_app, !app_nil_r.
Qed.

Lemma accounted_push_residual pieces acc pre r post :
  accounted pieces acc ->
  accounted (pieces ++ [{| before := pre; origin := from_residual;
                           text := r; after := post |}])
    (push_residual r acc).
Proof.
  intros (Ho & Ha & Hr). unfold accounted.
  rewrite !texts_of_app, Ho, Ha, Hr. simpl. by rewrite !app_nil_r.
Qed.

Lemma accounted_residual_order pieces p acc pre r post :
  origin p <> from_residual ->
  accounted (pieces ++ [p]) acc ->
  accounted (pieces ++ [{| before := pre; origin := from_residual;
                           text := r; after := post |}; p])
    (push_residual r acc).
Proof.
  intros Hne (Ho & Ha & Hr). unfold accounted.
  rewrite !texts_of_app in *. cbn [texts_of origin text same_origin c_objects
    c_attachableStatements c_residual push_residual] in *.
  split; [done|]. split; [done|].
  destruct (origin p); try done; cbn [same_origin] in *;
    rewrite app_nil_r in Hr; by rewrite Hr.
Qed.

Lemma well_formed_text pre o t post :
  all_space pre -> all_space post -> o <> skipped ->
  well_formed {| before := pre; origin := o; text := t; after := post |}.
Proof. intros Hpre Hpost Ho. split; [done|]. split; [done|]. simpl. done. Qed.

Lemma collect_accounted acc statement pieces :
  accounted pieces acc ->
  exists ps,
    concat (map spell ps) = statement /\ Forall well_formed ps
    /\ accounted (pieces ++ ps) (collect acc statement).
Proof.
  intros Hacc. unfold collect.
  destruct (trim_decompose statement) as (pre & post & Hs & Hpre & Hpost).
  destruct (JS.trim statement) as [|c trimmed] eqn:Htrim.
  { exists [{| before := statement; origin := skipped; text := []; after := [] |}].
    simpl. unfold spell. simpl. rewrite !app_nil_r. split; [done|]. split.
    - constructor; [|done]. split; [|done]. simpl.
      rewrite Hs. unfold all_space in *. simpl. by rewrite forallb_app, Hpre, Hpost.
    - destruct Hacc as (Ho & Ha & Hr). unfold accounted.
      rewrite !texts_of_app. simpl. by rewrite !app_nil_r. }
  cbn [JS.truthy negb].
  destruct (parseStatement (c :: trimmed)) as [parsed|] eqn:Hp.
  2: { exists [{| before := []; origin := from_residual; text := statement; after := [] |}].
       unfold spell. simpl. rewrite !app_nil_r. split; [done|]. split.
       - constructor; [|done]. by apply well_formed_text.
       - by apply accounted_push_residual. }
  pose proof (parseStatement_cuts _ _ Hp) as Hcut.
  destruct (ps_residual (base parsed)) as [r|] eqn:Hres; simpl in Hcut.
  - destruct (JS.truthy r) eqn:Htruthy.
    + destruct (route_accounted parsed acc pieces [] post all_space_nil Hpost Hacc)
        as (o & Ho1 & Ho2 & Hacc').
      exists [{| before := pre; origin := from_residual; text := r; after := [] |};
              {| before := []; origin := o; text := ps_definition (base parsed);
                 after := post |}].
      split; [|split].
      2: { constructor; [by apply well_formed_text|].
           constructor; [|done]. by apply well_formed_text. }
      * unfold spell. simpl. rewrite !app_nil_r. rewrite Hs.
        rewrite <- Hcut. by rewrite <- !app_assoc.
      * by apply accounted_residual_order.
    + destruct r; [|done]. simpl in Hcut.
      destruct (route_accounted parsed acc pieces pre post Hpre Hpost Hacc)
        as (o & Ho1 & Ho2 & Hacc').
      exists [{| before := pre; origin := o; text := ps_definition (base parsed);
                 after := post |}].
      split; [|split; [|exact Hacc']].
      * unfold spell. simpl. rewrite app_nil_r, Hcut. by rewrite Hs.
      * constructor; [|done]. by apply well_formed_text.
  - destruct (route_accounted parsed acc pieces pre post Hpre Hpost Hacc)
      as (o & Ho1 & Ho2 & Hacc').
    exists [{| before := pre; origin := o; text := ps_definition (base parsed);
               after := post |}].
    split; [|split; [|exact Hacc']].
    + unfold spell. simpl. rewrite app_nil_r, Hcut. by rewrite Hs.
    + constructor; [|done]. by apply well_formed_text.
Qed.

Lemma foldl_collect_accounted statements : forall acc pieces,
  accounted pieces acc ->
  exists ps,
    concat (map spell ps) = concat statements /\ Forall well_formed ps
    /\ accounted (pieces ++ ps) (foldl collect acc statements).
Proof.
  induction statements as [|statement statements IH]; intros acc pieces Hacc; simpl.
  - exists []. by rewrite app_nil_r.
  - destruct (collect_accounted acc statement pieces Hacc) as (ps1 & H1 & Hw1 & Hacc1).
    destruct (IH _ _ Hacc1) as (ps2 & H2 & Hw2 & Hacc2).
    exists (ps1 ++ ps2). rewrite map_app, concat_app, H1, H2. split; [done|].
    split; [by apply Forall_app|]. by rewrite app_assoc.
Qed.

(** Claim C1, amended.  For every dump text, the pre-attachment definition
    texts of the objects, the definition texts of the attachable statements
    put on the side list and the residual fragments, taken in source order,
    spell the dump character for character, with nothing between them but
    the white space [trim] removes at the two ends of a statement:
    no character outside that white space is dropped or appears twice. *)
Theorem every_character_is_accounted_for (content : str) :
  exists pieces,
    reconstructs content pieces /\ accounted pieces (classify_all content).
Proof.
  unfold classify_all.
  destruct (foldl_collect_accounted (splitIntoStatements content semicolon)
              nothing_collected []) as (ps & Hcat & Hw & Hacc); [done|].
  exists ps. split; [|done]. split; [|done].
  rewrite Hcat. apply splitIntoStatements_spells_input.
Qed.

Lemma texts_of_nil_all_space pieces :
  Forall well_formed pieces ->
  texts_of from_object pieces = [] ->
  texts_of from_attachable pieces = [] ->
  texts_of from_residual pieces = [] ->
  all_space (concat (map spell pieces)).
Proof.
  induction 1 as [|p pieces (Hb & Ha & Hs) Hw IH]; intros Ho Hat Hr; [done|].
  simpl in *. destruct (origin p) eqn:E; simpl in *; try done.
  unfold spell, all_space in *. rewrite Hs by done. simpl.
  rewrite !forallb_app, Hb, Ha. simpl. by apply IH.
Qed.

(** Claim C1 as stated fails: the dump that is one [CREATE INDEX] statement
    has no object and no residual fragment, so no arrangement of object
    definitions and residual fragments spells it. *)
Lemma index_statement_is_in_no_object_or_residual :
  let content := lit "CREATE INDEX idx_a ON public.t (a);" in
  ~ exists pieces,
      reconstructs content pieces
      /\ texts_of from_attachable pieces = []
      /\ texts_of from_object pieces = map o_definition (c_objects (classify_all content))
      /\ texts_of from_residual pieces = c_residual (classify_all content).
Proof.
  intros content (pieces & (Hcat & Hw) & Ha & Ho & Hr).
  assert (c_objects (classify_all content) = []) as E1 by (vm_compute; reflexivity).
  assert (c_residual (classify_all content) = []) as E2 by (vm_compute; reflexivity).
  rewrite E1 in Ho. rewrite E2 in Hr.
  pose proof (texts_of_nil_all_space pieces Hw Ho Ha Hr) as Hsp.
  rewrite Hcat in Hsp. vm_compute in Hsp. discriminate.
Qed.

(* ================================================================== *)
(** * Schema defaulting *)

Lemma first_match_registry (P : BaseParser -> Regex.MatchResult -> str -> Prop)
    registry : forall statement parser m,
  Forall (fun parser => forall m s, P parser m s) registry ->
  first_match registry statement = Some (parser, m) ->
  P parser m statement.
Proof.
  induction registry as [|p registry IH]; intros statement parser m Hall H; [done|].
  simpl in H. inversion Hall; subst.
  destruct (Regex.exec (p_regex p) statement); [|by eapply IH].
  by injection H as <- <-.
Qed.

Lemma registry_defaults_schema :
  Forall (fun parser => forall m s,
            p_type parser <> object_type schema ->
            Regex.group m (schema_group (p_type parser)) = None ->
            ps_schema (base (p_parse parser m s)) = DEFAULT_SCHEMA
            /\ statement_qualifiedName (p_parse parser m s)
               = Some (makeQualifiedName DEFAULT_SCHEMA
                         (ps_name (base (p_parse parser m s)))))
         PARSER_REGISTRY.
Proof.
  unfold PARSER_REGISTRY.
  repeat constructor; try done; simpl in *;
    match goal with H : Regex.group _ _ = None |- _ => by rewrite H end.
Qed.

(* ================================================================== *)
(** * Index statements are appended *)

(** Claim C5 as stated fails: two index statements attached to a table are
    separated by one line break, not by a blank line; the blank line stands
    between the table definition and the first index statement. *)
Lemma indexes_are_not_separated_by_blank_lines :
  let table_text := lit "CREATE TABLE public.users (id int);" in
  let i1 := lit "CREATE INDEX i1 ON public.users (id);" in
  let i2 := lit "CREATE INDEX i2 ON public.users (id);" in
  exists object,
    parse (table_text ++ i1 ++ i2)
    = Done {| objects := [object]; residual := [] |}
    /\ o_definition object = table_text ++ [Char.LF; Char.LF] ++ i1 ++ [Char.LF] ++ i2
    /\ o_definition object
       <> table_text ++ [Char.LF; Char.LF] ++ i1 ++ [Char.LF; Char.LF] ++ i2.
Proof.
  intros table_text i1 i2. eexists. split; [vm_compute; reflexivity|].
  split; [vm_compute; reflexivity|]. vm_compute. discriminate.
Qed.

(** Claim C5, amended.  For a table or view with attached index
    statements, the definition text becomes the text modified by the sequence
    and constraint steps, a blank line, and the full texts of the index
    statements in order, separated from one another by one line break; the
    [indexes] field is set to these texts. *)
Theorem indexes_are_appended byTable object entry object1 :
  is_table_or_view (o_type object) = true ->
  byTable !! qualifiedTable_of_object object = Some entry ->
  indexes entry <> [] ->
  attach_sequences_step entry object = Done object1 ->
  exists object',
    attach_object byTable object = Done object'
    /\ o_definition object'
       = o_definition (attach_constraints_step entry object1)
         ++ [Char.LF; Char.LF] ++ JS.join [Char.LF] (index_definitions entry)
    /\ o_indexes object' = Some (index_definitions entry).
Proof.
  intros Hkind Hlookup Hne Hseq.
  exists (attach_indexes_step entry (attach_constraints_step entry object1)).
  split.
  - unfold attach_object. rewrite Hkind.
    change (makeQualifiedName (o_schema object) (o_name object))
      with (qualifiedTable_of_object object).
    by rewrite Hlookup, Hseq.
  - unfold attach_indexes_step, index_definitions.
    destruct (indexes entry) as [|i l] eqn:E; [done|]. simpl. done.
Qed.

Lemma indexes_are_appended_witness :
  let byTable := groupAttachablesByTable [of_index example_index_1; of_index example_index_2] in
  is_table_or_view (o_type example_table) = true
  /\ byTable !! qualifiedTable_of_object example_table = Some example_entry
  /\ indexes example_entry <> []
  /\ attach_sequences_step example_entry example_table = Done example_table
  /\ exists object',
       attach_object byTable example_table = Done object'
       /\ o_definition object'
          = lit "CREATE TABLE public.users (id int);" ++ [Char.LF; Char.LF]
            ++ lit "CREATE INDEX i1 ON public.users (id);" ++ [Char.LF]
            ++ lit "CREATE INDEX i2 ON public.users (id);".
Proof.
  intros byTable.
  assert (H1 : is_table_or_view (o_type example_table) = true) by reflexivity.
  assert (H2 : byTable !! qualifiedTable_of_object example_table = Some example_entry)
    by (vm_compute; reflexivity).
  assert (H3 : indexes example_entry <> []) by discriminate.
  assert (H4 : attach_sequences_step example_entry example_table = Done example_table)
    by reflexivity.
  destruct (indexes_are_appended byTable example_table example_entry example_table
              H1 H2 H3 H4) as (object' & Ha & Hd & _).
  split; [exact H1|]. split; [exact H2|]. split; [exact H3|]. split; [exact H4|].
  exists object'. split; [exact Ha|]. rewrite Hd. reflexivity.
Defined.

(* ================================================================== *)
(** * Captures of a match *)

Section CaptureFacts.
Import Regex.

Lemma star_loop_sound_with s r body k :
  (forall i c k' a, body i c k' = Some a ->
     exists j c', matches_with s r i c j c' /\ k' j c' = Some a) ->
  forall fuel i c a, star_loop body k fuel i c = Some a ->
    exists j c', matches_with s (Star r) i c j c' /\ k j c' = Some a.
Proof.
  intros Hbody fuel. induction fuel as [|fuel IH]; intros i c a H; simpl in H.
  - exists i, c. split; [constructor|done].
  - destruct (body i c _) as [a0|] eqn:Hb.
    + injection H as ->. apply Hbody in Hb as (j & c' & Hm & Hk).
      destruct (j =? i); [done|].
      apply IH in Hk as (l & c'' & Hm' & Hk).
      exists l, c''. split; [econstructor; eauto|done].
    + exists i, c. split; [constructor|done].
Qed.

Lemma rmatch_sound_with r s : forall i c k a,
  rmatch r s i c k = Some a ->
  exists j c', matches_with s r i c j c' /\ k j c' = Some a.
Proof.
  induction r as [|p|r1 IH1 r2 IH2|r1 IH1 r2 IH2|r IH|n r IH| | |r IH];
    intros i c k a H; cbn [rmatch] in H.
  - exists i, c. split; [constructor|done].
  - destruct (s !! i) as [ch|] eqn:Hch; [|done].
    destruct (p ch) eqn:Hp; [|done].
    exists (S i), c. split; [econstructor; eauto|done].
  - apply IH1 in H as (j & c' & Hm1 & H).
    apply IH2 in H as (l & c'' & Hm2 & H).
    exists l, c''. split; [econstructor; eauto|done].
  - destruct (rmatch r1 s i c k) as [a0|] eqn:H1.
    + injection H as ->. apply IH1 in H1 as (j & c' & Hm & ?).
      exists j, c'. split; [by apply with_Alt_l|done].
    + apply IH2 in H as (j & c' & Hm & ?).
      exists j, c'. split; [by apply with_Alt_r|done].
  - eapply star_loop_sound_with in H; [exact H|].
    intros i0 c0 k0 a0 H0. exact (IH _ _ _ _ H0).
  - apply IH in H as (j & c' & Hm & ?).
    exists j, ((n, (i, j)) :: c'). split; [by constructor|done].
  - destruct (i =? 0) eqn:Hi; [|done]. apply Nat.eqb_eq in Hi as ->.
    exists 0, c. split; [constructor|done].
  - destruct (i =? length s) eqn:Hi; [|done]. apply Nat.eqb_eq in Hi as ->.
    exists (length s), c. split; [constructor|done].
  - destruct (rmatch r s i c _) as [[j c']|] eqn:H1; [|done].
    apply IH in H1 as (j' & c'' & Hm & [= -> ->]).
    exists i, c'. split; [econstructor; eauto|done].
Qed.

Lemma search_captures r s n : forall i m,
  search r s n i = Some m ->
  matches_with s r (m_index m) [] (m_end m) (m_groups m).
Proof.
  induction n as [|n IH]; intros i m H; simpl in H; [done|].
  unfold match_at in H.
  destruct (rmatch r s i [] _) as [[j c]|] eqn:H0.
  - injection H as <-. simpl.
    by apply rmatch_sound_with in H0 as (j' & c' & Hm & [= -> ->]).
  - by eapply IH.
Qed.

(** The captures of a successful [exec] are those of a match of the
    pattern. *)
Lemma exec_captures r s m :
  exec r s = Some m ->
  matches_with s r (m_index m) [] (m_end m) (m_groups m).
Proof. apply search_captures. Qed.

Lemma matches_with_matches s r i c j c' :
  matches_with s r i c j c' -> matches s r i j.
Proof. induction 1; solve [econstructor; eauto]. Qed.

Lemma matches_with_group_free s r i c j c' :
  group_free r = true -> matches_with s r i c j c' -> c' = c.
Proof.
  intros Hfree H. induction H; simpl in Hfree; try done.
  - apply andb_true_iff in Hfree as [H1 H2]. rewrite IHmatches_with2 by done. auto.
  - apply andb_true_iff in Hfree as [H1 H2]. auto.
  - apply andb_true_iff in Hfree as [H1 H2]. auto.
  - rewrite IHmatches_with2 by done. auto.
  - auto.
Qed.

Lemma with_Cat_inv s r1 r2 i c l c2 :
  matches_with s (Cat r1 r2) i c l c2 ->
  exists j c1, matches_with s r1 i c j c1 /\ matches_with s r2 j c1 l c2.
Proof. inversion 1; subst; eauto. Qed.

Lemma with_Group_inv s n r i c j c' :
  matches_with s (Group n r) i c j c' ->
  exists c1, matches_with s r i c j c1 /\ c' = (n, (i, j)) :: c1.
Proof. inversion 1; subst; eauto. Qed.

Lemma with_free_inv s r i c j c' :
  group_free r = true -> matches_with s r i c j c' ->
  matches s r i j /\ c' = c.
Proof.
  intros Hfree H. split; [by eapply matches_with_matches|].
  by eapply matches_with_group_free.
Qed.

Lemma matches_star_chr s p i j :
  matches s (Star (Chr p)) i j ->
  forall k, i <= k < j -> exists ch, s !! k = Some ch /\ p ch = true.
Proof.
  intros H. remember (Star (Chr p)) as r eqn:Hr.
  induction H; try done.
  - intros k Hk. lia.
  - injection Hr as ->. apply matches_Chr_inv in H as [-> (a & Ha & Hp)].
    intros k Hk. destruct (decide (k = i)) as [->|Hne]; [eauto|].
    apply IHmatches2; [done|lia].
Qed.

Lemma matches_plus_chr s p i j :
  matches s (Plus (Chr p)) i j ->
  i < j /\ forall k, i <= k < j -> exists ch, s !! k = Some ch /\ p ch = true.
Proof.
  unfold Plus. intros H. apply matches_Cat_inv in H as (l & H1 & H2).
  apply matches_Chr_inv in H1 as [-> (a & Ha & Hp)].
  pose proof (matches_le _ _ _ _ H2). split; [lia|].
  intros k Hk. destruct (decide (k = i)) as [->|Hne]; [eauto|].
  eapply matches_star_chr; [done|lia].
Qed.

(** The characters of a run, as a slice. *)
Lemma run_slice (s : str) p i j :
  (forall k, i <= k < j -> exists ch, s !! k = Some ch /\ p ch = true) ->
  forallb p (JS.slice i j s) = true /\ length (JS.slice i j s) = j - i.
Proof.
  intros H. unfold JS.slice. split.
  - apply forallb_forall. intros ch Hin. apply list_elem_of_In in Hin.
    apply list_elem_of_lookup in Hin as [k Hk].
    apply lookup_take_Some in Hk as [Hk Hlt]. rewrite lookup_drop in Hk.
    destruct (H (i + k)) as (ch' & Hch & Hp); [lia|]. congruence.
  - rewrite length_take, length_drop.
    destruct (decide (i < j)) as [Hij|]; [|lia].
    destruct (H (j - 1)) as (ch & Hch & _); [lia|].
    apply lookup_lt_Some in Hch. lia.
Qed.

End CaptureFacts.

(* ================================================================== *)
(** * Constraints are inlined *)

Lemma length_slice (s : str) i j :
  j <= length s -> length (JS.slice i j s) = j - i.
Proof. intros H. unfold JS.slice. rewrite length_take, length_drop. lia. Qed.

Lemma take_slice (s : str) i j :
  i <= j -> take j s = take i s ++ JS.slice i j s.
Proof.
  intros H. unfold JS.slice. rewrite take_take_drop. f_equal. lia.
Qed.

Lemma constraint_definition_groups definition m :
  Regex.exec Patterns.CONSTRAINT_DEFINITION_REGEX definition = Some m ->
  exists a1 b1 a2 b2,
    Regex.m_groups m = [(2, (a2, b2)); (1, (a1, b1))]
    /\ Regex.matches definition CONSTRAINT_HEAD (Regex.m_index m) a1
    /\ Regex.matches definition Patterns.IDENTIFIER_PATTERN a1 b1
    /\ Regex.matches definition Regex.ws1 b1 a2
    /\ Regex.matches definition (Regex.Plus Regex.dot) a2 b2
    /\ definition !! b2 = Some ";"%char
    /\ Regex.matches definition (Regex.Star (Regex.Chr Patterns.not_semicolon))
         (S b2) (length definition).
Proof.
  intros H. apply exec_captures in H.
  unfold Patterns.CONSTRAINT_DEFINITION_REGEX in H. cbn [Regex.seq] in H.
  apply with_Cat_inv in H as (j1 & c1 & H1 & H).
  apply with_free_inv in H1 as [H1 ->]; [|reflexivity].
  apply with_Cat_inv in H as (j2 & c2 & H2 & H).
  apply with_free_inv in H2 as [H2 ->]; [|reflexivity].
  apply with_Cat_inv in H as (j3 & c3 & H3 & H).
  apply with_free_inv in H3 as [H3 ->]; [|reflexivity].
  apply with_Cat_inv in H as (a1 & c4 & H4 & H).
  apply with_free_inv in H4 as [H4 ->]; [|reflexivity].
  apply with_Cat_inv in H as (b1 & c5 & H5 & H).
  apply with_Group_inv in H5 as (c5' & H5 & ->).
  apply with_free_inv in H5 as [H5 ->]; [|reflexivity].
  apply with_Cat_inv in H as (a2 & c6 & H6 & H).
  apply with_free_inv in H6 as [H6 ->]; [|reflexivity].
  apply with_Cat_inv in H as (b2 & c7 & H7 & H).
  apply with_Group_inv in H7 as (c7' & H7 & ->).
  apply with_free_inv in H7 as [H7 ->]; [|reflexivity].
  apply with_Cat_inv in H as (j8 & c8 & H8 & H).
  apply with_free_inv in H8 as [H8 ->]; [|reflexivity].
  apply with_Cat_inv in H as (j9 & c9 & H9 & H).
  apply with_free_inv in H9 as [H9 ->]; [|reflexivity].
  apply with_free_inv in H as [H Hc]; [|reflexivity].
  apply matches_Eol_inv in H as [-> _].
  apply matches_Chr_inv in H8 as [-> (ch & Hch & Heq)].
  apply Ascii.eqb_eq in Heq as <-.
  exists a1, b1, a2, b2. split; [done|]. split; [|done].
  unfold CONSTRAINT_HEAD. cbn [Regex.seq].
  repeat (econstructor; [eassumption|]). done.
Qed.

(** What a match of [CONSTRAINT_DEFINITION_REGEX] says about the statement:
    it contains [ADD CONSTRAINT], an identifier [name], white space, a
    non-empty [body] on one line, and a semicolon after which no semicolon
    follows; the constraint is reduced to [CONSTRAINT name body]. *)
Lemma constraint_text_of_match definition m :
  Regex.exec Patterns.CONSTRAINT_DEFINITION_REGEX definition = Some m ->
  exists before name gap body tail,
    definition = before ++ name ++ gap ++ body ++ [";"%char] ++ tail
    /\ constraint_text definition = lit "CONSTRAINT " ++ name ++ lit " " ++ body
    /\ Regex.matches definition CONSTRAINT_HEAD (Regex.m_index m) (length before)
    /\ Regex.matches definition Patterns.IDENTIFIER_PATTERN
         (length before) (length before + length name)
    /\ gap <> [] /\ all_space gap
    /\ body <> [] /\ forallb not_line_terminator body = true
    /\ forallb Patterns.not_semicolon tail = true.
Proof.
  intros Hexec.
  destruct (constraint_definition_groups _ _ Hexec)
    as (a1 & b1 & a2 & b2 & Hg & Hhead & Hid & Hgap & Hbody & Hsemi & Htail).
  pose proof (exec_sound _ _ _ Hexec) as (Hin & _).
  pose proof (matches_le _ _ _ _ Hid) as Hle1.
  apply matches_plus_chr in Hgap as [Hlt2 Hgap].
  apply matches_plus_chr in Hbody as [Hlt3 Hbody].
  pose proof (lookup_lt_Some _ _ _ Hsemi) as Hlt4.
  pose proof (matches_star_chr _ _ _ _ Htail) as Htail'.
  destruct (run_slice definition _ _ _ Hgap) as [Hgap1 Hgap2].
  destruct (run_slice definition _ _ _ Hbody) as [Hbody1 Hbody2].
  destruct (run_slice definition _ _ _ Htail') as [Htail1 _].
  exists (take a1 definition), (JS.slice a1 b1 definition),
    (JS.slice b1 a2 definition), (JS.slice a2 b2 definition),
    (drop (S b2) definition).
  assert (Hlen : length (take a1 definition) = a1) by (rewrite length_take; lia).
  split; [|split; [|split; [|split; [|split; [|split; [|split; [|split]]]]]]].
  - rewrite <- (take_drop b2 definition) at 1.
    rewrite (drop_S _ _ _ Hsemi).
    rewrite (take_slice definition a2 b2), (take_slice definition b1 a2),
      (take_slice definition a1 b1) by lia.
    by rewrite <- !app_assoc.
  - unfold constraint_text. rewrite Hexec. unfold Regex.group. rewrite Hg, Hin.
    reflexivity.
  - by rewrite Hlen.
  - rewrite Hlen, length_slice by lia. by replace (a1 + (b1 - a1)) with b1 by lia.
  - intros E. rewrite E in Hgap2. simpl in Hgap2. lia.
  - exact Hgap1.
  - intros E. rewrite E in Hbody2. simpl in Hbody2. lia.
  - exact Hbody1.
  - unfold JS.slice in Htail1. by rewrite take_ge in Htail1 by (rewrite length_drop; lia).
Qed.

Lemma rfind_spec c (s : str) : forall n k,
  JS.rfind c s n = Some k ->
  k < n /\ s !! k = Some c
  /\ forall j, k < j < n -> s !! j <> Some c.
Proof.
  induction n as [|n IH]; intros k H; simpl in H; [done|].
  destruct (s !! n) as [a|] eqn:E.
  - destruct (Ascii.eqb a c) eqn:Ec.
    + injection H as <-. apply Ascii.eqb_eq in Ec as ->.
      split; [lia|]. split; [done|]. intros j Hj. lia.
    + apply IH in H as (? & ? & Hno). split; [lia|]. split; [done|].
      intros j Hj. destruct (decide (j = n)) as [->|].
      * rewrite E. intros [= ->]. by rewrite Ascii.eqb_refl in Ec.
      * apply Hno. lia.
  - apply IH in H as (? & ? & Hno). split; [lia|]. split; [done|].
    intros j Hj. destruct (decide (j = n)) as [->|]; [by rewrite E|].
    apply Hno. lia.
Qed.

(** The closing parenthesis found is the last one at or before the last
    semicolon of the table definition. *)
Lemma find_lastParenIndex_spec tableDefinition i :
  find_lastParenIndex tableDefinition = Some i ->
  tableDefinition !! i = Some ")"%char
  /\ forall p, JS.lastIndexOf ";" tableDefinition = Some p ->
       i < p /\ forall j, i < j <= p -> tableDefinition !! j <> Some ")"%char.
Proof.
  unfold find_lastParenIndex, JS.lastIndexOf_at. intros H.
  destruct (JS.lastIndexOf ";" tableDefinition) as [p|] eqn:Hp.
  - apply rfind_spec in H as (Hlt & Hi & Hno). split; [done|].
    intros p' [= <-]. unfold JS.lastIndexOf in Hp.
    apply rfind_spec in Hp as (_ & Hsemi & _).
    assert (i <> p) by (intros ->; congruence).
    split; [lia|]. intros j Hj. apply Hno. lia.
  - apply rfind_spec in H as (_ & Hi & _). by split.
Qed.

Lemma content_end_spec (s : str) : forall n,
  content_end s n <= n
  /\ (forall k, content_end s n <= k < n ->
        exists c, s !! k = Some c /\ Char.is_space c = true)
  /\ (forall c, 0 < content_end s n -> s !! (content_end s n - 1) = Some c ->
        Char.is_space c = false).
Proof.
  induction n as [|n (IH1 & IH2 & IH3)]; simpl.
  - split; [lia|]. split; [intros; lia|]. intros; lia.
  - destruct (s !! n) as [c|] eqn:E.
    + destruct (Char.is_space c) eqn:Ec.
      * split; [lia|]. split; [|done].
        intros k Hk. destruct (decide (k = n)) as [->|]; [eauto|].
        apply IH2. lia.
      * split; [lia|]. split; [intros; lia|].
        intros c' _. simpl. rewrite Nat.sub_0_r, E. by intros [= <-].
    + split; [lia|]. split; [intros; lia|].
      intros c' _. simpl. by rewrite Nat.sub_0_r, E.
Qed.

Lemma attachConstraintsToTable_spliced tableDefinition constraints lastParenIndex :
  constraints <> [] ->
  find_lastParenIndex tableDefinition = Some lastParenIndex ->
  attachConstraintsToTable tableDefinition constraints
  = take (content_end tableDefinition lastParenIndex) tableDefinition
    ++ (lit "," ++ [Char.LF] ++ indent (detectIndent tableDefinition))
    ++ JS.join (lit "," ++ [Char.LF] ++ indent (detectIndent tableDefinition))
         (constraint_texts constraints)
    ++ [Char.LF] ++ drop lastParenIndex tableDefinition.
Proof.
  intros Hne Hparen. unfold attachConstraintsToTable. rewrite Hparen.
  destruct constraints as [|c constraints]; [done|].
  cbn [map length Nat.eqb]. unfold JS.slice, JS.slice_from, constraint_texts.
  rewrite drop_0, Nat.sub_0_r. cbn [map]. by rewrite <- !app_assoc.
Qed.

Lemma rfind_complete c (s : str) k : forall n,
  k < n -> s !! k = Some c ->
  (forall j, k < j < n -> s !! j <> Some c) ->
  JS.rfind c s n = Some k.
Proof.
  induction n as [|n IH]; intros Hlt Hk Hno; [lia|]. simpl.
  destruct (decide (k = n)) as [->|Hne].
  - by rewrite Hk, Ascii.eqb_refl.
  - assert (Hn : s !! n <> Some c) by (apply Hno; lia).
    assert (IH' : JS.rfind c s n = Some k).
    { apply IH; [lia|done|]. intros j Hj. apply Hno. lia. }
    destruct (s !! n) as [a|]; [|done].
    destruct (Ascii.eqb_spec a c) as [->|]; done.
Qed.

(** The parenthesis the source looks for, found from the text: the last
    closing parenthesis in front of the last semicolon. *)
Lemma find_lastParenIndex_complete tableDefinition lastSemicolon lastParenIndex :
  tableDefinition !! lastSemicolon = Some ";"%char ->
  (forall j, lastSemicolon < j -> tableDefinition !! j <> Some ";"%char) ->
  tableDefinition !! lastParenIndex = Some ")"%char ->
  lastParenIndex < lastSemicolon ->
  (forall j, lastParenIndex < j < lastSemicolon ->
     tableDefinition !! j <> Some ")"%char) ->
  find_lastParenIndex tableDefinition = Some lastParenIndex.
Proof.
  intros Hsemi Hlast Hparen Hlt Hno.
  unfold find_lastParenIndex, JS.lastIndexOf_at, JS.lastIndexOf.
  rewrite (rfind_complete ";" tableDefinition lastSemicolon).
  - apply rfind_complete; [lia|done|].
    intros j Hj. destruct (decide (j = lastSemicolon)) as [->|].
    + by rewrite Hsemi.
    + apply Hno. lia.
  - by apply lookup_lt_Some in Hsemi.
  - done.
  - intros j Hj. apply Hlast. lia.
Qed.

(** Claim C3 as stated fails, in three ways.  A constraint whose
    definition runs over two lines is classified and attached, but it is
    not reduced to [CONSTRAINT name definition]: the pattern does not match
    it and the whole [ALTER TABLE] statement is inserted.  On a table with
    a [WITH (...)] clause the constraint is not put in front of the closing
    parenthesis of the table's column list, but inside the parentheses of
    the [WITH] clause, the last ones in front of the semicolon.  A table
    definition without a semicolon (the last statement of a dump that does
    not end with one) gets its constraint recorded but not inserted. *)
Lemma constraint_inlining_counterexample :
  (let table_text := lit "CREATE TABLE public.t (a int);" in
   let constraint_statement :=
     lit "ALTER TABLE public.t ADD CONSTRAINT c CHECK (" ++ [Char.LF] ++ lit "a > 0);" in
   exists object,
     parse (table_text ++ constraint_statement)
     = Done {| objects := [object]; residual := [] |}
     /\ o_constraints object = Some [constraint_statement]
     /\ o_definition object
        = lit "CREATE TABLE public.t (a int," ++ [Char.LF]
          ++ constraint_statement ++ [Char.LF] ++ lit ");"
     /\ o_definition object
        <> lit "CREATE TABLE public.t (a int," ++ [Char.LF]
           ++ lit "CONSTRAINT c CHECK (" ++ [Char.LF] ++ lit "a > 0)"
           ++ [Char.LF] ++ lit ");")
  /\ parse with_clause_dump
     = Done {| objects :=
                 [table_t (lit "CREATE TABLE public.t (a int) WITH (fillfactor='70',"
                           ++ [Char.LF] ++ lit "CONSTRAINT t_pkey PRIMARY KEY (a)"
                           ++ [Char.LF] ++ lit ");")];
               residual := [] |}
  /\ parse unterminated_table_dump
     = Done {| objects := [table_t unterminated_table]; residual := [] |}.
Proof.
  split; [|split; vm_compute; reflexivity].
  intros table_text constraint_statement. eexists.
  split; [vm_compute; reflexivity|]. split; [vm_compute; reflexivity|].
  split; [vm_compute; reflexivity|]. vm_compute. discriminate.
Qed.

(** Claim C3, amended.  Let the table definition have a semicolon, the last
    one at [lastSemicolon], and a closing parenthesis in front of it, the
    last one at [lastParenIndex].  With at least one attached constraint,
    the constraint texts, each preceded by a comma, a line break and the
    detected indentation string, are inserted right after the last
    character that is not white space before that parenthesis, and a line
    break precedes the parenthesis.  The text of a constraint that
    [CONSTRAINT_DEFINITION_REGEX] matches is [CONSTRAINT name body], where
    [name] is the identifier that follows [ADD CONSTRAINT] and [body] the
    non-empty text on one line between the white space behind the name and
    the last semicolon of the statement.  In the scenario of the
    specification [parse] returns the one table object [public.users] with
    the constraint inlined, and an empty residual. *)
Theorem constraints_are_inlined
    tableDefinition constraints lastSemicolon lastParenIndex :
  constraints <> [] ->
  tableDefinition !! lastSemicolon = Some ";"%char ->
  (forall j, lastSemicolon < j -> tableDefinition !! j <> Some ";"%char) ->
  tableDefinition !! lastParenIndex = Some ")"%char ->
  lastParenIndex < lastSemicolon ->
  (forall j, lastParenIndex < j < lastSemicolon ->
     tableDefinition !! j <> Some ")"%char) ->
  let separator := lit "," ++ [Char.LF] ++ indent (detectIndent tableDefinition) in
  let kept := content_end tableDefinition lastParenIndex in
  attachConstraintsToTable tableDefinition constraints
  = take kept tableDefinition
    ++ separator ++ JS.join separator (constraint_texts constraints)
    ++ [Char.LF] ++ drop lastParenIndex tableDefinition
  /\ kept <= lastParenIndex
  /\ all_space (JS.slice kept lastParenIndex tableDefinition)
  /\ (forall c, 0 < kept -> tableDefinition !! (kept - 1) = Some c ->
        Char.is_space c = false)
  /\ (forall definition m,
        Regex.exec Patterns.CONSTRAINT_DEFINITION_REGEX definition = Some m ->
        exists before name gap body tail,
          definition = before ++ name ++ gap ++ body ++ [";"%char] ++ tail
          /\ constraint_text definition
             = lit "CONSTRAINT " ++ name ++ lit " " ++ body
          /\ Regex.matches definition CONSTRAINT_HEAD
               (Regex.m_index m) (length before)
          /\ Regex.matches definition Patterns.IDENTIFIER_PATTERN
               (length before) (length before + length name)
          /\ gap <> [] /\ all_space gap
          /\ body <> [] /\ forallb not_line_terminator body = true
          /\ forallb Patterns.not_semicolon tail = true)
  /\ parse scenario_dump = Done {| objects := [scenario_object]; residual := [] |}.
Proof.
  intros Hne Hsemi Hlast Hclose Hlt Hno separator kept.
  pose proof (find_lastParenIndex_complete _ _ _ Hsemi Hlast Hclose Hlt Hno)
    as Hparen.
  destruct (content_end_spec tableDefinition lastParenIndex) as (Hle & Hws & Hend).
  split; [by apply attachConstraintsToTable_spliced|].
  split; [done|]. split; [by apply run_slice|]. split; [done|].
  split; [apply constraint_text_of_match|]. vm_compute. reflexivity.
Qed.

Lemma constraints_are_inlined_witness :
  let tableDefinition := lit "CREATE TABLE public.users (id int);" in
  tableDefinition !! 34 = Some ";"%char
  /\ tableDefinition !! 33 = Some ")"%char
  /\ attachConstraintsToTable tableDefinition [example_constraint]
     = lit "CREATE TABLE public.users (id int," ++ [Char.LF]
       ++ lit "CONSTRAINT users_pkey PRIMARY KEY (id)" ++ [Char.LF] ++ lit ");".
Proof.
  intros tableDefinition.
  assert (H1 : [example_constraint] <> []) by discriminate.
  assert (H2 : tableDefinition !! 34 = Some ";"%char) by reflexivity.
  assert (H3 : forall j, 34 < j -> tableDefinition !! j <> Some ";"%char).
  { intros j Hj. rewrite lookup_ge_None_2; [discriminate|]. simpl. lia. }
  assert (H4 : tableDefinition !! 33 = Some ")"%char) by reflexivity.
  assert (H5 : 33 < 34) by lia.
  assert (H6 : forall j, 33 < j < 34 -> tableDefinition !! j <> Some ")"%char)
    by (intros j Hj; lia).
  destruct (constraints_are_inlined tableDefinition [example_constraint] 34 33
              H1 H2 H3 H4 H5 H6) as (H & _).
  split; [exact H2|]. split; [exact H4|]. rewrite H. vm_compute. reflexivity.
Defined.

(* ================================================================== *)
(** * Identity sequences are spliced into the column definition *)

Lemma findIndex_lookup p : forall l i,
  findIndex p l = Some i -> exists x, l !! i = Some x /\ p x = true.
Proof.
  induction l as [|x l IH]; intros i H; simpl in H; [done|].
  destruct (p x) eqn:E.
  - injection H as <-. eauto.
  - destruct (findIndex p l) as [j|]; [|done]. injection H as <-.
    destruct (IH j eq_refl) as (y & ? & ?). eauto.
Qed.

Lemma total_length_concat l : total_length l = length (concat l).
Proof.
  unfold total_length.
  assert (H : forall n, foldl (fun n s => n + length s) n l = n + length (concat l)).
  { induction l as [|s l IH]; intros n; simpl; [lia|].
    rewrite IH, length_app. lia. }
  by rewrite H.
Qed.

Lemma concat_lookup_split (l : list str) i x :
  l !! i = Some x ->
  concat l = concat (take i l) ++ x ++ concat (drop (S i) l).
Proof.
  intros H. rewrite <- (take_drop i l) at 1. rewrite (drop_S _ _ _ H).
  by rewrite concat_app.
Qed.

Lemma trailing_comma_removed statement :
  exists n,
    Regex.replace_first Patterns.TRAILING_COMMA_REGEX (fun _ => []) statement
    = take n statement.
Proof.
  unfold Regex.replace_first.
  destruct (Regex.exec _ _) as [m|] eqn:E.
  - apply exec_sound in E as (_ & Hm & _ & _).
    unfold Patterns.TRAILING_COMMA_REGEX in Hm.
    apply matches_Cat_inv in Hm as (j & _ & Hm).
    apply matches_Eol_inv in Hm as [_ ->].
    exists (Regex.m_index m). by rewrite drop_all, !app_nil_r.
  - exists (length statement). by rewrite firstn_all.
Qed.

(** The column definition that is found is the text of the table
    definition between [startPos] and [endPos]. *)
Lemma findTableColumnDefinition_located tableDefinition column cd :
  findTableColumnDefinition tableDefinition column = Done (Some cd) ->
  cd_startPos cd <= cd_endPos cd
  /\ cd_endPos cd <= length tableDefinition
  /\ JS.slice (cd_startPos cd) (cd_endPos cd) tableDefinition = cd_definition cd.
Proof.
  unfold findTableColumnDefinition.
  destruct (Regex.exec Patterns.TABLE_HEADER_REGEX tableDefinition) as [h|]; [|done].
  set (fp := Regex.m_index h + length (Regex.whole h)).
  destruct (find_lastParenIndex tableDefinition) as [lp|]; [|done].
  set (contents := JS.slice (fp + 1) lp tableDefinition).
  pose proof (splitIntoStatements_spells_input contents comma) as [Hcat Hne].
  set (statements := splitIntoStatements contents comma) in *.
  destruct (getTableColumnRegex column) as [columnRegex|]; [|done].
  cbn [mbind outcome_bind].
  destruct (findIndex _ statements) as [idx|] eqn:Hidx; [|done].
  apply findIndex_lookup in Hidx as (statement & Hlook & _).
  rewrite Hlook. cbn [from_option]. unfold id.
  destruct (trailing_comma_removed statement) as (n & ->).
  destruct (drop_while_decompose Char.is_space (take n statement))
    as (pre & Hpre & _).
  fold (JS.trimStart (take n statement)) in Hpre.
  set (definition' := JS.trimStart (take n statement)) in *.
  intros [= <-]. cbn [cd_startPos cd_endPos cd_definition].
  rewrite total_length_concat.
  set (off := length (concat (take idx statements))).
  assert (Hlen : length (take n statement) = length pre + length definition')
    by (by rewrite Hpre at 1; rewrite length_app).
  assert (Hstart : (if length definition' =? length (take n statement)
                    then fp + 1 + off
                    else fp + 1 + off + (length (take n statement) - length definition'))
                   = fp + 1 + off + length pre).
  { destruct (Nat.eqb_spec (length definition') (length (take n statement))); lia. }
  rewrite Hstart.
  assert (Hdrop : drop (fp + 1 + off) tableDefinition
                  = statement ++ concat (drop (S idx) statements)
                    ++ drop (lp - (fp + 1)) (drop (fp + 1) tableDefinition)).
  { rewrite <- drop_drop.
    rewrite <- (take_drop (lp - (fp + 1)) (drop (fp + 1) tableDefinition)) at 1.
    fold (JS.slice (fp + 1) lp tableDefinition). fold contents.
    rewrite <- Hcat, (concat_lookup_split _ _ _ Hlook).
    rewrite <- !app_assoc. unfold off. by rewrite drop_app_length. }
  assert (Hstmt : statement = pre ++ definition' ++ drop n statement).
  { rewrite <- (take_drop n statement) at 1. rewrite Hpre at 1.
    by rewrite <- app_assoc. }
  assert (Hbound : fp + 1 + off + length (take n statement) <= length tableDefinition).
  { assert (length (drop (fp + 1 + off) tableDefinition)
            = length tableDefinition - (fp + 1 + off)) as E by apply length_drop.
    rewrite Hdrop, length_app in E.
    rewrite Forall_lookup in Hne. specialize (Hne _ _ Hlook).
    rewrite length_take. destruct statement; [done|]. simpl in *. lia. }
  split; [lia|]. split; [done|].
  unfold JS.slice. rewrite <- drop_drop, Hdrop, Hstmt.
  rewrite <- !app_assoc, drop_app_length.
  replace (fp + 1 + off + length (take n (pre ++ definition' ++ drop n statement))
           - (fp + 1 + off + length pre)) with (length definition').
  - by rewrite take_app_length.
  - rewrite <- Hstmt. lia.
Qed.

Section ReplaceFacts.
Import Regex.

Lemma search_first r s n : forall i m,
  search r s n i = Some m ->
  i <= m_index m /\ forall p, i <= p < m_index m -> match_at r s p = None.
Proof.
  induction n as [|n IH]; intros i m H; simpl in H; [done|].
  destruct (match_at r s i) as [m0|] eqn:E.
  - injection H as <-. apply match_at_sound in E as (_ & -> & _).
    split; [lia|]. intros p Hp. lia.
  - apply IH in H as [Hle Hnone]. split; [lia|].
    intros p Hp. destruct (decide (p = i)) as [->|]; [done|]. apply Hnone. lia.
Qed.

Lemma search_none r s n : forall i,
  search r s n i = None -> forall p, i <= p < i + n -> match_at r s p = None.
Proof.
  induction n as [|n IH]; intros i H p Hp; simpl in H; [lia|].
  destruct (match_at r s i) as [m0|] eqn:E; [done|].
  destruct (decide (p = i)) as [->|]; [done|]. apply (IH (S i)); [done|lia].
Qed.

Lemma star_loop_total body fuel : forall i c,
  star_loop body (fun j c' => Some (j, c')) fuel i c <> None.
Proof.
  induction fuel as [|fuel IH]; intros i c; simpl; [done|].
  by destruct (body i c _).
Qed.

(** At a line feed the collapsing pattern matches. *)
Lemma collapse_matches_at_LF (s : str) p :
  s !! p = Some Char.LF -> match_at Patterns.COLLAPSE_REGEX s p <> None.
Proof.
  intros Hp. unfold match_at, Patterns.COLLAPSE_REGEX.
  cbn [rmatch]. destruct (rmatch (AtLeast2 _) s p [] _) as [[j c]|]; [done|].
  unfold Plus, chr. cbn [rmatch]. rewrite Hp, Ascii.eqb_refl.
  destruct (star_loop _ _ _ _ _) as [[j c]|] eqn:E; [done|].
  by apply star_loop_total in E.
Qed.

(** A match of the collapsing pattern is not empty. *)
Lemma collapse_match_nonempty (s : str) i j :
  matches s Patterns.COLLAPSE_REGEX i j -> i < j /\ i < length s.
Proof.
  unfold Patterns.COLLAPSE_REGEX, AtLeast2, Plus. intros H.
  inversion H as [| | |r1 r2 i' j' H1|r1 r2 i' j' H1| | | | | |]; subst.
  - apply matches_Cat_inv in H1 as (l & H1 & H2).
    apply matches_Chr_inv in H1 as [-> (a & Ha & _)]. apply matches_le in H2.
    apply lookup_lt_Some in Ha. lia.
  - apply matches_Cat_inv in H1 as (l & H1 & H2).
    apply matches_Chr_inv in H1 as [-> (a & Ha & _)]. apply matches_le in H2.
    apply lookup_lt_Some in Ha. lia.
Qed.

Lemma not_in_slice (s : str) c i j :
  (forall p, i <= p < j -> s !! p <> Some c) -> c ∉ JS.slice i j s.
Proof.
  intros H Hin. apply list_elem_of_lookup in Hin as [k Hk].
  unfold JS.slice in Hk. apply lookup_take_Some in Hk as [Hk Hlt].
  rewrite lookup_drop in Hk. apply (H (i + k)); [lia|done].
Qed.

Lemma collapse_loop_no_LF (s : str) : forall fuel from,
  length s - from < fuel ->
  Char.LF ∉ replace_loop Patterns.COLLAPSE_REGEX (fun _ => lit " ") s fuel from from.
Proof.
  induction fuel as [|fuel IH]; intros from Hfuel; [lia|].
  cbn [replace_loop]. unfold exec_from.
  destruct (search _ s _ from) as [m|] eqn:E.
  - pose proof (search_first _ _ _ _ _ E) as [Hle Hnone].
    pose proof (search_sound _ _ _ _ _ E) as (_ & _ & _ & Hm & _ & Hend).
    apply collapse_match_nonempty in Hm as [Hm Hlt].
    specialize (Hend ltac:(lia)).
    replace (m_end m =? m_index m) with false by (symmetry; apply Nat.eqb_neq; lia).
    rewrite !not_elem_of_app. split; [|split].
    + apply not_in_slice. intros p Hp Hlf.
      by apply collapse_matches_at_LF in Hlf; rewrite Hnone in Hlf.
    + cbv beta. change (lit " ") with [" "%char].
      rewrite list_elem_of_singleton. discriminate.
    + apply IH. lia.
  - intros Hin. apply list_elem_of_lookup in Hin as [k Hk].
    rewrite lookup_drop in Hk.
    pose proof (lookup_lt_Some _ _ _ Hk) as Hlt.
    apply collapse_matches_at_LF in Hk.
    rewrite (search_none _ _ _ _ E) in Hk; [done|lia].
Qed.

Lemma collapse_no_LF (s : str) :
  Char.LF ∉ replace_all Patterns.COLLAPSE_REGEX (fun _ => lit " ") s.
Proof. unfold replace_all. apply collapse_loop_no_LF. lia. Qed.

Lemma elem_of_slice (s : str) c i j : c ∈ JS.slice i j s -> c ∈ s.
Proof.
  unfold JS.slice. intros H.
  apply list_elem_of_lookup in H as [k Hk].
  apply lookup_take_Some in Hk as [Hk _]. rewrite lookup_drop in Hk.
  by eapply list_elem_of_lookup_2.
Qed.

Lemma elem_of_drop_while p (s : str) c : c ∈ JS.drop_while p s -> c ∈ s.
Proof.
  destruct (drop_while_decompose p s) as (pre & Hs & _).
  intros H. rewrite Hs. apply elem_of_app. by right.
Qed.

Lemma elem_of_trim (s : str) c : c ∈ JS.trim s -> c ∈ s.
Proof.
  unfold JS.trim, JS.trimStart, JS.trimEnd. intros H.
  apply elem_of_drop_while in H. apply list_elem_of_In, in_rev in H.
  apply list_elem_of_In, elem_of_drop_while in H.
  by apply list_elem_of_In, in_rev, list_elem_of_In in H.
Qed.

(** A replacement whose replacement texts are made of characters of the
    match adds no character. *)
Lemma replace_loop_subset r f (s : str) c :
  (forall w, c ∈ f w -> c ∈ w) ->
  forall fuel from copied, c ∈ replace_loop r f s fuel from copied -> c ∈ s.
Proof.
  intros Hf. induction fuel as [|fuel IH]; intros from copied H; cbn [replace_loop] in H.
  - apply list_elem_of_lookup in H as [k Hk]. rewrite lookup_drop in Hk.
    by eapply list_elem_of_lookup_2.
  - destruct (exec_from r s from) as [m|] eqn:E.
    + unfold exec_from in E. apply search_sound in E as (Hin & _).
      rewrite !elem_of_app in H. destruct H as [H|[H|H]].
      * by eapply elem_of_slice.
      * apply Hf in H. unfold whole in H. rewrite Hin in H. by eapply elem_of_slice.
      * by eapply IH.
    + apply list_elem_of_lookup in H as [k Hk]. rewrite lookup_drop in Hk.
      by eapply list_elem_of_lookup_2.
Qed.

End ReplaceFacts.

(** The text spliced in for a sequence is on one line. *)
Lemma sequence_text_no_LF definition headerEnd :
  Char.LF ∉ sequence_text definition headerEnd.
Proof.
  unfold sequence_text, Regex.replace_all at 1. intros H.
  apply replace_loop_subset in H; [|intros w; apply elem_of_trim].
  by apply collapse_no_LF in H.
Qed.

(** The insertion point: when the column definition ends with a
    [[NOT] NULL] clause the pattern matches from the start of the clause to
    the end of the definition. *)
Lemma not_null_match definition nn :
  Regex.exec Patterns.NOT_NULL_REGEX definition = Some nn ->
  Regex.matches definition Patterns.NOT_NULL_REGEX
    (Regex.m_index nn) (length definition)
  /\ Regex.m_index nn < length definition.
Proof.
  intros H. apply exec_sound in H as (_ & Hm & _ & _).
  assert (Regex.m_end nn = length definition /\ Regex.m_index nn < Regex.m_end nn)
    as [E Hlt].
  { unfold Patterns.NOT_NULL_REGEX in Hm. cbn [Regex.seq] in Hm.
    apply matches_Cat_inv in Hm as (j1 & H1 & Hm).
    apply matches_plus_chr in H1 as [H1 _].
    apply matches_Cat_inv in Hm as (j2 & H2 & Hm). apply matches_le in H2.
    apply matches_Cat_inv in Hm as (j3 & H3 & Hm). apply matches_le in H3.
    apply matches_Cat_inv in Hm as (j4 & H4 & Hm). apply matches_le in H4.
    apply matches_Eol_inv in Hm as [E1 E2]. split; lia. }
  rewrite E in Hm. split; [done|lia].
Qed.

Lemma attach_sequence_spliced content sq cd h :
  findTableColumnDefinition content (sq_column sq) = Done (Some cd) ->
  Regex.exec Patterns.SEQUENCE_HEADER_REGEX (ps_definition (sq_base sq)) = Some h ->
  exists kept clause,
    cd_definition cd = kept ++ clause
    /\ content = take (cd_startPos cd) content ++ kept ++ clause
                 ++ drop (cd_endPos cd) content
    /\ attach_sequence content sq
       = Done (take (cd_startPos cd) content ++ kept ++ lit " "
               ++ sequence_text (ps_definition (sq_base sq)) (Regex.m_end h)
               ++ clause ++ drop (cd_endPos cd) content)
    /\ (clause = []
        /\ Regex.exec Patterns.NOT_NULL_REGEX (cd_definition cd) = None
        \/ clause <> []
           /\ Regex.matches (cd_definition cd) Patterns.NOT_NULL_REGEX
                (length kept) (length (cd_definition cd))).
Proof.
  intros Hfind Hhead.
  destruct (findTableColumnDefinition_located _ _ _ Hfind) as (Hle & Hend & Hslice).
  pose proof (exec_sound _ _ _ Hhead) as (Hin & _ & Hhle & Hhend).
  assert (Hwhole : Regex.m_index h + length (Regex.whole h) = Regex.m_end h).
  { unfold Regex.whole. rewrite Hin, length_slice by done. lia. }
  assert (Hlen : length (cd_definition cd) = cd_endPos cd - cd_startPos cd).
  { by rewrite <- Hslice, length_slice. }
  assert (Hcontent : content = take (cd_startPos cd) content ++ cd_definition cd
                               ++ drop (cd_endPos cd) content).
  { rewrite <- Hslice, app_assoc, <- take_slice by done. by rewrite take_drop. }
  assert (Hsplice : forall idx, idx <= length (cd_definition cd) ->
            take (cd_endPos cd - (length (cd_definition cd) - idx)) content
            = take (cd_startPos cd) content ++ take idx (cd_definition cd)
            /\ drop (cd_endPos cd - (length (cd_definition cd) - idx)) content
               = drop idx (cd_definition cd) ++ drop (cd_endPos cd) content).
  { intros idx Hidx.
    replace (cd_endPos cd - (length (cd_definition cd) - idx))
      with (cd_startPos cd + idx) by lia.
    split.
    - rewrite <- take_take_drop. f_equal.
      rewrite <- Hslice. unfold JS.slice. rewrite take_take. f_equal. lia.
    - rewrite Hcontent at 1.
      rewrite drop_app, length_take, Nat.min_l by lia.
      rewrite (drop_ge (take _ _)) by (rewrite length_take; lia).
      replace (cd_startPos cd + idx - cd_startPos cd) with idx by lia.
      rewrite drop_app. rewrite (proj2 (Nat.sub_0_le idx _) Hidx). by rewrite drop_0. }
  unfold attach_sequence. rewrite Hfind. cbn [mbind outcome_bind]. rewrite Hhead.
  rewrite Hwhole. unfold insertion_point, JS.slice, JS.slice_from.
  rewrite drop_0, Nat.sub_0_r.
  destruct (Regex.exec Patterns.NOT_NULL_REGEX (cd_definition cd)) as [nn|] eqn:Hnn.
  - destruct (not_null_match _ _ Hnn) as [Hm Hlt].
    destruct (Hsplice (Regex.m_index nn)) as [-> ->]; [lia|].
    exists (take (Regex.m_index nn) (cd_definition cd)),
      (drop (Regex.m_index nn) (cd_definition cd)).
    split; [by rewrite take_drop|]. split.
    { rewrite Hcontent at 1. by rewrite (app_assoc (take _ (cd_definition cd))), take_drop. }
    split; [by rewrite <- !app_assoc|]. right. split.
    + intros E. apply (f_equal length) in E. rewrite length_drop in E. simpl in E. lia.
    + by rewrite length_take, Nat.min_l by lia.
  - exists (cd_definition cd), []. rewrite app_nil_r. split; [done|].
    split; [done|]. split; [|by left].
    destruct (Hsplice (length (cd_definition cd))) as [H1 H2]; [lia|].
    rewrite Nat.sub_diag, Nat.sub_0_r in H1, H2.
    rewrite H1, H2, firstn_all, drop_all. by rewrite <- !app_assoc.
Qed.

Section EngineFacts.
Import Regex.

Lemma run_bound p (s : str) i n : run p s i n -> i <= length s -> i + n <= length s.
Proof.
  intros [Hrun _] Hi. destruct n as [|n]; [lia|].
  destruct (Hrun n) as (ch & Hch & _); [lia|].
  apply lookup_lt_Some in Hch. lia.
Qed.

Lemma run_exists p (s : str) : forall d i,
  length s - i <= d -> i <= length s -> exists n, run p s i n.
Proof.
  induction d as [|d IH]; intros i Hd Hi.
  - exists 0. split; [intros; lia|].
    intros ch Hch. apply lookup_lt_Some in Hch. lia.
  - destruct (s !! i) as [c|] eqn:E.
    + destruct (p c) eqn:Hp.
      * pose proof (lookup_lt_Some _ _ _ E).
        destruct (IH (S i)) as (n & Hrun & Hstop); [lia|lia|].
        exists (S n). split.
        -- intros m Hm. destruct m as [|m].
           ++ exists c. by rewrite Nat.add_0_r.
           ++ destruct (Hrun m) as (ch & ? & ?); [lia|].
              exists ch. by replace (i + S m) with (S i + m) by lia.
        -- intros ch. replace (i + S n) with (S i + n) by lia. apply Hstop.
      * exists 0. split; [intros; lia|].
        intros ch. rewrite Nat.add_0_r, E. by intros [= <-].
    + exists 0. split; [intros; lia|].
      intros ch. by rewrite Nat.add_0_r, E.
Qed.

Lemma run_unique p (s : str) i n n' : run p s i n -> run p s i n' -> n = n'.
Proof.
  intros [H1 S1] [H2 S2].
  destruct (Nat.lt_trichotomy n n') as [Hlt|[->|Hlt]]; [|done|].
  - destruct (H2 n Hlt) as (ch & Hch & Hp). by rewrite (S1 _ Hch) in Hp.
  - destruct (H1 n' Hlt) as (ch & Hch & Hp). by rewrite (S2 _ Hch) in Hp.
Qed.

(** The characters of a run, and what follows it. *)
Lemma run_drop p (s : str) i n :
  run p s i n -> i <= length s ->
  drop i s = JS.slice i (i + n) s ++ drop (i + n) s
  /\ forallb p (JS.slice i (i + n) s) = true
  /\ length (JS.slice i (i + n) s) = n.
Proof.
  intros Hrun Hi. pose proof (run_bound _ _ _ _ Hrun Hi) as Hb.
  destruct Hrun as [Hrun _]. split; [|split].
  - unfold JS.slice. replace (i + n - i) with n by lia.
    by rewrite <- (drop_drop s n i), take_drop.
  - apply run_slice. intros k Hk. destruct (Hrun (k - i)) as (ch & Hch & Hp); [lia|].
    exists ch. by replace (i + (k - i)) with k in Hch by lia.
  - rewrite length_slice by lia. lia.
Qed.

(** A greedy [p*] goes to the end of the run when the continuation
    succeeds there. *)
Lemma star_run_succeeds (s : str) p i n c k a :
  run p s i n -> i <= length s ->
  k (i + n) c = Some a ->
  rmatch (Star (Chr p)) s i c k = Some a.
Proof.
  intros Hrun Hi Hk. pose proof (run_bound _ _ _ _ Hrun Hi).
  destruct Hrun as [Hrun Hstop]. cbn [rmatch].
  apply (star_chr_greedy s p _ k (fun _ _ _ => eq_refl) n); [lia|done|done|done].
Qed.

Lemma star_loop_run_fails (s : str) p body k c :
  (forall i c k', body i c k' = rmatch (Chr p) s i c k') ->
  forall n fuel i,
  run p s i n ->
  (forall m, m <= n -> k (i + m) c = None) ->
  star_loop body k fuel i c = None.
Proof.
  intros Hbody.
  induction n as [|n IH]; intros fuel i [Hrun Hstop] Hk.
  - rewrite Nat.add_0_r in Hstop. specialize (Hk 0 ltac:(lia)).
    rewrite Nat.add_0_r in Hk.
    destruct fuel as [|fuel]; [done|]. cbn [star_loop]. rewrite Hbody.
    cbn [rmatch].
    destruct (s !! i) as [ch|] eqn:E; [|done]. by rewrite (Hstop ch).
  - pose proof (Hk 0 ltac:(lia)) as Hk0. rewrite Nat.add_0_r in Hk0.
    destruct fuel as [|fuel]; [done|]. cbn [star_loop]. rewrite Hbody.
    cbn [rmatch].
    destruct (Hrun 0) as (ch & Hch & Hp); [lia|]. rewrite Nat.add_0_r in Hch.
    rewrite Hch, Hp.
    replace (S i =? i) with false by (symmetry; apply Nat.eqb_neq; lia).
    rewrite (IH fuel (S i)); [done| |].
    + split.
      * intros m Hm. destruct (Hrun (S m)) as (ch' & ? & ?); [lia|].
        exists ch'. by replace (S i + m) with (i + S m) by lia.
      * intros ch'. replace (S i + n) with (i + S n) by lia. apply Hstop.
    + intros m Hm. replace (S i + m) with (i + S m) by lia. apply Hk. lia.
Qed.

(** A greedy [p*] fails when the continuation fails at every index of the
    run and behind it. *)
Lemma star_run_fails (s : str) p i n c k :
  run p s i n ->
  (forall m, m <= n -> k (i + m) c = None) ->
  rmatch (Star (Chr p)) s i c k = None.
Proof.
  intros Hrun Hk. cbn [rmatch].
  by apply (star_loop_run_fails s p _ k c (fun _ _ _ => eq_refl) n).
Qed.

Lemma exec_from_here r (s : str) i m :
  match_at r s i = Some m -> exec_from r s i = Some m.
Proof. intros H. unfold exec_from. cbn [search]. by rewrite H. Qed.

Lemma exec_from_next r (s : str) i :
  match_at r s i = None -> i < length s ->
  exec_from r s i = exec_from r s (S i).
Proof.
  intros H Hi. unfold exec_from. cbn [search]. rewrite H.
  by replace (length s - i) with (S (length s - S i)) by lia.
Qed.

Lemma exec_from_end r (s : str) i :
  match_at r s i = None -> length s <= i -> exec_from r s i = None.
Proof.
  intros H Hi. unfold exec_from.
  replace (length s - i) with 0 by lia. cbn [search]. by rewrite H.
Qed.

Lemma replace_loop_next r f (s : str) fuel from copied :
  match_at r s from = None -> from < length s ->
  replace_loop r f s fuel from copied = replace_loop r f s fuel (S from) copied.
Proof.
  intros H Hi. destruct fuel as [|fuel]; [done|]. cbn [replace_loop].
  by rewrite (exec_from_next _ _ _ H Hi).
Qed.

Lemma slice_snoc (s : str) i j c :
  i <= j -> s !! j = Some c -> JS.slice i (S j) s = JS.slice i j s ++ [c].
Proof.
  intros Hij Hc. unfold JS.slice.
  replace (S j - i) with (S (j - i)) by lia.
  rewrite (take_S_r _ _ c); [done|].
  rewrite lookup_drop. by replace (i + (j - i)) with j by lia.
Qed.

Lemma slice_nil (s : str) i : JS.slice i i s = [].
Proof. unfold JS.slice. by rewrite Nat.sub_diag. Qed.

Lemma slice_to_end (s : str) i : JS.slice i (length s) s = drop i s.
Proof. unfold JS.slice. apply take_ge. rewrite length_drop. lia. Qed.

End EngineFacts.

Section TerminatorFacts.
Import Regex.

Lemma run_app p (pre w rest : str) :
  forallb p w = true ->
  (forall ch r, rest = ch :: r -> p ch = false) ->
  run p (pre ++ w ++ rest) (length pre) (length w).
Proof.
  intros Hw Hrest. split.
  - intros m Hm. rewrite lookup_app_r by lia.
    replace (length pre + m - length pre) with m by lia.
    rewrite lookup_app_l by done.
    destruct (lookup_lt_is_Some_2 w m Hm) as [ch Hch]. exists ch. split; [done|].
    rewrite forallb_forall in Hw. apply Hw, list_elem_of_In.
    by eapply list_elem_of_lookup_2.
  - intros ch. rewrite lookup_app_r by lia.
    replace (length pre + length w - length pre) with (length w) by lia.
    rewrite lookup_app_r by lia. rewrite Nat.sub_diag.
    destruct rest as [|ch' r]; [done|]. simpl. intros [= <-]. by eapply Hrest.
Qed.

Lemma search_finds r (s : str) m i0 : forall n i,
  (forall p, i <= p < i0 -> match_at r s p = None) ->
  match_at r s i0 = Some m -> i <= i0 < i + n ->
  search r s n i = Some m.
Proof.
  induction n as [|n IH]; intros i Hnone Hm Hi; [lia|]. cbn [search].
  destruct (decide (i = i0)) as [->|Hne]; [by rewrite Hm|].
  rewrite Hnone by lia. apply IH; [|done|lia]. intros p Hp. apply Hnone. lia.
Qed.

Lemma search_all_none r (s : str) : forall n i,
  (forall p, match_at r s p = None) -> search r s n i = None.
Proof.
  induction n as [|n IH]; intros i H; [done|]. cbn [search]. rewrite H. by apply IH.
Qed.

Lemma drop_while_head p (s : str) c r :
  JS.drop_while p s = c :: r -> p c = false.
Proof.
  induction s as [|a s IH]; [done|]. simpl.
  destruct (p a) eqn:E; [done|]. by intros [= <- _].
Qed.

(** A text is its [trimEnd] followed by white space, and the [trimEnd] does
    not end with white space. *)
Lemma trimEnd_decompose (t : str) :
  exists w, t = JS.trimEnd t ++ w /\ forallb Char.is_space w = true
            /\ forall c before, rev (JS.trimEnd t) = c :: before ->
                                Char.is_space c = false.
Proof.
  unfold JS.trimEnd.
  destruct (drop_while_decompose Char.is_space (rev t)) as (pre & Hpre & Hws).
  exists (rev pre). split; [|split].
  - rewrite <- rev_app_distr, <- Hpre. by rewrite rev_involutive.
  - by rewrite forallb_rev.
  - intros c before. rewrite rev_involutive. apply drop_while_head.
Qed.

Lemma rev_cons_last (u : str) c before :
  rev u = c :: before ->
  u = rev before ++ [c] /\ length u = S (length before)
  /\ u !! (length u - 1) = Some c.
Proof.
  intros H. assert (Hu : u = rev before ++ [c]).
  { by rewrite <- (rev_involutive u), H. }
  split; [done|]. subst u. rewrite length_app, length_rev. simpl.
  split; [lia|]. rewrite lookup_app_r by (rewrite length_rev; lia).
  rewrite length_rev. by replace (length before + 1 - 1 - length before) with 0 by lia.
Qed.

(** What a match of the terminator pattern says about the text. *)
Lemma terminator_match (t : str) i j :
  matches t Patterns.TERMINATOR_REGEX i j ->
  exists q, i <= q
    /\ (forall l, i <= l < q -> exists ch, t !! l = Some ch /\ Char.is_space ch = true)
    /\ t !! q = Some ";"%char
    /\ (forall l, q < l < length t ->
          exists ch, t !! l = Some ch /\ Char.is_space ch = true).
Proof.
  unfold Patterns.TERMINATOR_REGEX. cbn [seq]. intros H.
  apply matches_Cat_inv in H as (q & H1 & H).
  apply matches_Cat_inv in H as (q' & H2 & H).
  apply matches_Cat_inv in H as (e & H3 & H).
  apply matches_Eol_inv in H as [-> _].
  apply matches_Chr_inv in H2 as [-> (ch & Hch & Heq)].
  apply Ascii.eqb_eq in Heq as <-.
  exists q. split; [by eapply matches_le|]. split; [by apply matches_star_chr|].
  split; [done|]. intros l Hl. eapply matches_star_chr; [exact H3|lia].
Qed.

Lemma terminator_found (u w1 w2 : str) :
  forallb Char.is_space w1 = true -> forallb Char.is_space w2 = true ->
  (forall c before, rev u = c :: before -> Char.is_space c = false) ->
  exists m,
    exec Patterns.TERMINATOR_REGEX (u ++ w1 ++ [";"%char] ++ w2) = Some m
    /\ m_index m = length u
    /\ m_end m = length (u ++ w1 ++ [";"%char] ++ w2).
Proof.
  intros Hw1 Hw2 Hu. set (t := u ++ w1 ++ [";"%char] ++ w2).
  assert (Hlen : length t = length u + length w1 + 1 + length w2).
  { unfold t. rewrite !length_app. simpl. lia. }
  assert (Hrun1 : run Char.is_space t (length u) (length w1)).
  { apply run_app; [done|]. by intros ch r [= <- _]. }
  assert (Hrun2 : run Char.is_space t (length u + length w1 + 1) (length w2)).
  { unfold t.
    replace (u ++ w1 ++ [";"%char] ++ w2)
      with ((u ++ w1 ++ [";"%char]) ++ w2 ++ []) by (by rewrite app_nil_r, <- !app_assoc).
    replace (length u + length w1 + 1) with (length (u ++ w1 ++ [";"%char]))
      by (rewrite !length_app; simpl; lia).
    apply run_app; [done|done]. }
  assert (Hsemi : t !! (length u + length w1) = Some ";"%char).
  { unfold t. rewrite lookup_app_r by lia.
    replace (length u + length w1 - length u) with (length w1) by lia.
    rewrite lookup_app_r by lia. by rewrite Nat.sub_diag. }
  set (m := {| m_input := t; m_index := length u; m_end := length t; m_groups := [] |}).
  assert (Hat : match_at Patterns.TERMINATOR_REGEX t (length u) = Some m).
  { unfold match_at, Patterns.TERMINATOR_REGEX. cbn [seq]. unfold ws0.
    change (rmatch (Cat ?r1 ?r2) ?s ?i ?c ?k)
      with (rmatch r1 s i c (fun j c' => rmatch r2 s j c' k)).
    rewrite (star_run_succeeds t _ _ _ _ _ (length t, []) Hrun1); [done|lia|].
    unfold chr. cbn [rmatch]. rewrite Hsemi. cbn [Ascii.eqb Bool.eqb].
    change (star_loop ?b ?k ?f ?i ?c)
      with (rmatch (Star (Chr Char.is_space)) t (S (length u + length w1)) []
              (fun j c' => if j =? length t then Some (j, c') else None)).
    replace (S (length u + length w1)) with (length u + length w1 + 1) by lia.
    rewrite (star_run_succeeds t _ _ _ _ _ (length t, []) Hrun2); [done|lia|].
    replace (length u + length w1 + 1 + length w2) with (length t) by lia.
    by rewrite Nat.eqb_refl. }
  exists m. split; [|done]. unfold exec, exec_from.
  apply (search_finds _ _ _ (length u)); [|done|lia].
  intros p Hp. destruct (match_at _ t p) as [m'|] eqn:E; [|done]. exfalso.
  apply match_at_sound in E as (_ & _ & Hm & _).
  apply terminator_match in Hm as (q & Hq & Hbefore & Hq' & Hafter).
  destruct (rev u) as [|c before] eqn:Hrev.
  { apply (f_equal (@length _)) in Hrev. rewrite length_rev in Hrev. simpl in Hrev. lia. }
  destruct (rev_cons_last _ _ _ Hrev) as (_ & _ & Hlast').
  assert (Hlast : t !! (length u - 1) = Some c).
  { unfold t. by rewrite lookup_app_l by lia. }
  pose proof (Hu _ _ eq_refl) as Hc.
  destruct (Nat.lt_trichotomy (length u - 1) q) as [Hlt|[Heq|Hgt]].
  - destruct (Hbefore (length u - 1)) as (ch & Hch & Hsp); [lia|]. congruence.
  - destruct (Hafter (length u + length w1)) as (ch & Hch & Hsp); [lia|].
    rewrite Hsemi in Hch. by injection Hch as <-.
  - destruct (Hafter (length u - 1)) as (ch & Hch & Hsp); [lia|]. congruence.
Qed.

Lemma terminator_absent (t : str) :
  (forall before, rev (JS.trimEnd t) <> ";"%char :: before) ->
  exec Patterns.TERMINATOR_REGEX t = None.
Proof.
  intros Hno. unfold exec, exec_from. apply search_all_none. intros p.
  destruct (match_at _ t p) as [m|] eqn:E; [|done]. exfalso.
  apply match_at_sound in E as (_ & _ & Hm & _).
  apply terminator_match in Hm as (q & Hq & _ & Hq' & Hafter).
  destruct (trimEnd_decompose t) as (w & Ht & Hw & Hlast).
  set (u := JS.trimEnd t) in *.
  pose proof (lookup_lt_Some _ _ _ Hq') as Hqlt.
  assert (Hin : q < length u).
  { destruct (decide (q < length u)); [done|]. exfalso.
    rewrite Ht, lookup_app_r in Hq' by lia.
    rewrite forallb_forall in Hw.
    assert (Char.is_space ";" = true); [|done].
    apply Hw, list_elem_of_In. by eapply list_elem_of_lookup_2. }
  destruct (rev u) as [|c before] eqn:Hrev.
  { apply (f_equal (@length _)) in Hrev. rewrite length_rev in Hrev. simpl in Hrev. lia. }
  destruct (rev_cons_last _ _ _ Hrev) as (_ & Hlen & Hc').
  assert (Hc : t !! (length u - 1) = Some c).
  { rewrite Ht. by rewrite lookup_app_l by lia. }
  destruct (decide (q = length u - 1)) as [->|Hne].
  - rewrite Hc in Hq'. injection Hq' as ->. by eapply Hno.
  - destruct (Hafter (length u - 1)) as (ch & Hch & Hsp).
    { pose proof (f_equal (@length _) Ht) as Hl. rewrite length_app in Hl. lia. }
    rewrite Hc in Hch. injection Hch as <-. by rewrite (Hlast _ _ eq_refl) in Hsp.
Qed.

(** The first replacement removes the terminating semicolon. *)
Lemma terminator_removed (t : str) :
  replace_first Patterns.TERMINATOR_REGEX (fun _ => []) t = without_terminator t.
Proof.
  unfold replace_first, without_terminator.
  destruct (rev (JS.trimEnd t)) as [|c before] eqn:Hrev.
  { by rewrite terminator_absent by (by rewrite Hrev). }
  destruct (Ascii.eqb_spec c ";") as [->|Hne].
  2:{ rewrite terminator_absent; [done|]. rewrite Hrev. by intros b [= ? _]. }
  destruct (trimEnd_decompose t) as (w2 & Ht & Hw2 & _).
  destruct (trimEnd_decompose (rev before)) as (w1 & Hb & Hw1 & Hlast).
  assert (Htrim : JS.trimEnd t = rev before ++ [";"%char]).
  { rewrite <- (rev_involutive (JS.trimEnd t)), Hrev. done. }
  set (u := JS.trimEnd (rev before)) in *.
  assert (Ht' : t = u ++ w1 ++ [";"%char] ++ w2).
  { rewrite Ht at 1. rewrite Htrim, Hb at 1. by rewrite <- !app_assoc. }
  destruct (terminator_found u w1 w2 Hw1 Hw2 Hlast) as (m & Hm & Hi & He).
  rewrite <- Ht' in Hm, He. rewrite Hm, Hi, He.
  rewrite drop_all, !app_nil_r. rewrite Ht' at 1. by rewrite take_app_length.
Qed.

End TerminatorFacts.

Section CollapseFacts.
Import Regex.

Lemma collapse_match (s : str) i j :
  matches s Patterns.COLLAPSE_REGEX i j ->
  (exists a b, s !! i = Some a /\ Char.is_space a = true
               /\ s !! S i = Some b /\ Char.is_space b = true)
  \/ s !! i = Some Char.LF.
Proof.
  unfold Patterns.COLLAPSE_REGEX, AtLeast2, Plus. intros H.
  inversion H as [| | |r1 r2 i' j' H1|r1 r2 i' j' H1| | | | | |]; subst.
  - left. apply matches_Cat_inv in H1 as (l & H1 & H2).
    apply matches_Chr_inv in H1 as [-> (a & Ha & Hpa)].
    apply matches_Cat_inv in H2 as (l & H2 & _).
    apply matches_Chr_inv in H2 as [-> (b & Hb & Hpb)]. by exists a, b.
  - right. apply matches_Cat_inv in H1 as (l & H1 & _).
    apply matches_Chr_inv in H1 as [-> (a & Ha & Hpa)].
    by apply Ascii.eqb_eq in Hpa as <-.
Qed.

Lemma collapse_at_run (s : str) i n a b :
  s !! i = Some a -> Char.is_space a = true ->
  s !! S i = Some b -> Char.is_space b = true ->
  run Char.is_space s i n ->
  2 <= n
  /\ match_at Patterns.COLLAPSE_REGEX s i
     = Some {| m_input := s; m_index := i; m_end := i + n; m_groups := [] |}.
Proof.
  intros Ha Hpa Hb Hpb Hrun.
  assert (Hn : 2 <= n).
  { destruct Hrun as [_ Hstop]. destruct n as [|[|n]]; [| |lia].
    - rewrite Nat.add_0_r in Hstop. by rewrite (Hstop _ Ha) in Hpa.
    - replace (i + 1) with (S i) in Hstop by lia. by rewrite (Hstop _ Hb) in Hpb. }
  split; [done|].
  assert (Hrun' : run Char.is_space s (S (S i)) (n - 2)).
  { destruct Hrun as [Hrun Hstop]. split.
    - intros m Hm. destruct (Hrun (S (S m))) as (ch & ? & ?); [lia|].
      exists ch. by replace (S (S i) + m) with (i + S (S m)) by lia.
    - intros ch. replace (S (S i) + (n - 2)) with (i + n) by lia. apply Hstop. }
  pose proof (lookup_lt_Some _ _ _ Hb) as Hlt.
  unfold match_at, Patterns.COLLAPSE_REGEX, AtLeast2.
  change (rmatch (Alt ?r1 ?r2) ?s ?i ?c ?k)
    with (match rmatch r1 s i c k with Some a => Some a | None => rmatch r2 s i c k end).
  change (rmatch (Cat ?r1 ?r2) ?s ?i ?c ?k)
    with (rmatch r1 s i c (fun j c' => rmatch r2 s j c' k)).
  change (rmatch (Chr ?p) ?s ?i ?c ?k)
    with (match s !! i with Some a => if p a then k (S i) c else None | None => None end).
  rewrite Ha, Hpa. cbv beta.
  change (rmatch (Cat ?r1 ?r2) ?s ?i ?c ?k)
    with (rmatch r1 s i c (fun j c' => rmatch r2 s j c' k)).
  change (rmatch (Chr ?p) ?s ?i ?c ?k)
    with (match s !! i with Some a => if p a then k (S i) c else None | None => None end).
  rewrite Hb, Hpb. cbv beta.
  rewrite (star_run_succeeds s _ _ _ _ _ (i + n, []) Hrun'); [done|lia|].
  by replace (S (S i) + (n - 2)) with (i + n) by lia.
Qed.

Lemma collapse_at_LF (s : str) i :
  s !! i = Some Char.LF ->
  (forall b, s !! S i = Some b -> Char.is_space b = false) ->
  match_at Patterns.COLLAPSE_REGEX s i
  = Some {| m_input := s; m_index := i; m_end := S i; m_groups := [] |}.
Proof.
  intros Ha Hb.
  assert (Hrun : run (Ascii.eqb Char.LF) s (S i) 0).
  { split; [intros; lia|]. intros ch. rewrite Nat.add_0_r. intros Hch.
    apply Hb in Hch. destruct (Ascii.eqb_spec Char.LF ch) as [<-|]; done. }
  pose proof (lookup_lt_Some _ _ _ Ha) as Hlt.
  unfold match_at, Patterns.COLLAPSE_REGEX, AtLeast2, Plus, chr.
  change (rmatch (Alt ?r1 ?r2) ?s ?i ?c ?k)
    with (match rmatch r1 s i c k with Some a => Some a | None => rmatch r2 s i c k end).
  assert (rmatch (Cat (Chr Char.is_space) (Cat (Chr Char.is_space) (Star (Chr Char.is_space))))
            s i [] (fun j c => Some (j, c)) = None) as ->.
  { cbn [rmatch]. rewrite Ha. cbn [Char.is_space]. 
    change (Char.is_space Char.LF) with true. cbv iota.
    destruct (s !! S i) as [b|] eqn:E; [|done]. by rewrite (Hb b). }
  change (rmatch (Cat ?r1 ?r2) ?s ?i ?c ?k)
    with (rmatch r1 s i c (fun j c' => rmatch r2 s j c' k)).
  change (rmatch (Chr ?p) ?s ?i ?c ?k)
    with (match s !! i with Some a => if p a then k (S i) c else None | None => None end).
  rewrite Ha, Ascii.eqb_refl. cbv beta.
  rewrite (star_run_succeeds s _ _ _ _ _ (S i, []) Hrun); [done|lia|].
  by rewrite Nat.add_0_r.
Qed.

Lemma collapse_from_behind_run (w rest : str) :
  forallb Char.is_space w = true ->
  (forall ch r, rest = ch :: r -> Char.is_space ch = false) ->
  collapse_from true (w ++ rest) = collapse_from false rest.
Proof.
  intros Hw Hrest. induction w as [|a w IH]; simpl.
  - destruct rest as [|ch r]; [done|]. simpl. by rewrite (Hrest ch r).
  - simpl in Hw. apply andb_true_iff in Hw as [-> Hw]. by apply IH.
Qed.

Lemma collapse_from_run (w rest : str) :
  forallb Char.is_space w = true -> 2 <= length w ->
  (forall ch r, rest = ch :: r -> Char.is_space ch = false) ->
  collapse_from false (w ++ rest) = " "%char :: collapse_from false rest.
Proof.
  intros Hw Hlen Hrest. destruct w as [|a [|b w]]; [simpl in Hlen; lia..|].
  simpl in Hw. apply andb_true_iff in Hw as [Ha Hw].
  apply andb_true_iff in Hw as [Hb Hw].
  cbn [collapse_from app]. rewrite Ha, Hb.
  f_equal. by apply collapse_from_behind_run.
Qed.

Lemma collapse_no_match (s : str) i :
  (forall a b, s !! i = Some a -> Char.is_space a = true ->
     s !! S i = Some b -> Char.is_space b = true -> False) ->
  s !! i <> Some Char.LF ->
  match_at Patterns.COLLAPSE_REGEX s i = None.
Proof.
  intros H1 H2. destruct (match_at _ s i) as [m|] eqn:E; [|done]. exfalso.
  apply match_at_sound in E as (_ & _ & Hm & _).
  apply collapse_match in Hm as [(a & b & ? & ? & ? & ?)|?]; [by eapply H1|done].
Qed.

Lemma collapse_loop_spec (s : str) : forall d from copied fuel,
  length s - from <= d -> copied <= from <= length s -> length s - from < fuel ->
  replace_loop Patterns.COLLAPSE_REGEX (fun _ => lit " ") s fuel from copied
  = JS.slice copied from s ++ collapse_from false (drop from s).
Proof.
  induction d as [|d IH]; intros from copied fuel Hd Hle Hfuel.
  - assert (from = length s) as -> by lia.
    destruct fuel as [|fuel]; [lia|]. cbn [replace_loop].
    rewrite exec_from_end; [|..|lia].
    + by rewrite slice_to_end, drop_all, app_nil_r.
    + destruct (match_at _ s (length s)) as [m|] eqn:E; [|done].
      apply match_at_sound in E as (_ & _ & Hm & _).
      apply collapse_match_nonempty in Hm. lia.
  - destruct (s !! from) as [c|] eqn:Hc.
    2:{ apply lookup_ge_None_1 in Hc. apply (IH from copied fuel); lia. }
    pose proof (lookup_lt_Some _ _ _ Hc) as Hlt.
    rewrite (drop_S _ _ _ Hc).
    assert (Hskip : match_at Patterns.COLLAPSE_REGEX s from = None ->
              collapse_from false (c :: drop (S from) s)
              = c :: collapse_from false (drop (S from) s) ->
              replace_loop Patterns.COLLAPSE_REGEX (fun _ => lit " ") s fuel from copied
              = JS.slice copied from s
                ++ collapse_from false (c :: drop (S from) s)).
    { intros Hnone ->. rewrite replace_loop_next by done.
      rewrite IH by lia. rewrite (slice_snoc _ _ _ c) by (lia || done).
      by rewrite <- app_assoc. }
    destruct (Char.is_space c) eqn:Hsp.
    2:{ apply Hskip.
        - apply collapse_no_match.
          + intros a b Ha Hpa. rewrite Hc in Ha. injection Ha as <-. congruence.
          + rewrite Hc. intros [= ->]. done.
        - cbn [collapse_from]. by rewrite Hsp. }
    destruct (s !! S from) as [b|] eqn:Hb.
    + destruct (Char.is_space b) eqn:Hpb.
      * destruct (run_exists Char.is_space s (length s) from) as [n Hrun]; [lia|lia|].
        destruct (collapse_at_run s from n c b Hc Hsp Hb Hpb Hrun) as [Hn Hat].
        destruct (run_drop _ _ _ _ Hrun) as (Hdrop & Hws & Hlen); [lia|].
        pose proof (run_bound _ _ _ _ Hrun ltac:(lia)) as Hbound.
        destruct fuel as [|fuel]; [lia|]. cbn [replace_loop].
        rewrite (exec_from_here _ _ _ _ Hat). cbn [m_index m_end].
        replace (from + n =? from) with false by (symmetry; apply Nat.eqb_neq; lia).
        rewrite IH by lia. rewrite slice_nil, app_nil_l.
        rewrite <- (drop_S _ _ _ Hc), Hdrop.
        rewrite collapse_from_run; [done|done|lia|].
        intros ch r Hr. destruct Hrun as [_ Hstop]. apply Hstop.
        rewrite <- (Nat.add_0_r (from + n)), <- lookup_drop, Hr. done.
      * destruct (Ascii.eqb_spec c Char.LF) as [->|Hne].
        -- assert (Hat := collapse_at_LF s from Hc
                     ltac:(intros b'; rewrite Hb; by intros [= <-])).
           destruct fuel as [|fuel]; [lia|]. cbn [replace_loop].
           rewrite (exec_from_here _ _ _ _ Hat). cbn [m_index m_end].
           replace (S from =? from) with false by (symmetry; apply Nat.eqb_neq; lia).
           rewrite IH by lia. rewrite slice_nil, app_nil_l.
           rewrite (drop_S _ _ _ Hb). cbn [collapse_from].
           change (Char.is_space Char.LF) with true. cbv iota.
           by rewrite Hpb, Ascii.eqb_refl.
        -- apply Hskip.
           ++ apply collapse_no_match.
              ** intros a b' _ _ Hb'. rewrite Hb in Hb'. injection Hb' as <-. congruence.
              ** rewrite Hc. by intros [= ->].
           ++ rewrite (drop_S _ _ _ Hb). cbn [collapse_from]. rewrite Hsp, Hpb.
              by destruct (Ascii.eqb_spec c Char.LF).
    + assert (Hnil : drop (S from) s = []).
      { apply drop_ge. apply lookup_ge_None_1 in Hb. lia. }
      destruct (Ascii.eqb_spec c Char.LF) as [->|Hne].
      * assert (Hat := collapse_at_LF s from Hc
                  ltac:(intros b'; by rewrite Hb)).
        destruct fuel as [|fuel]; [lia|]. cbn [replace_loop].
        rewrite (exec_from_here _ _ _ _ Hat). cbn [m_index m_end].
        replace (S from =? from) with false by (symmetry; apply Nat.eqb_neq; lia).
        rewrite IH by lia. rewrite slice_nil, app_nil_l, Hnil. done.
      * apply Hskip.
        -- apply collapse_no_match.
           ++ intros a b' _ _ Hb'. by rewrite Hb in Hb'.
           ++ rewrite Hc. by intros [= ->].
        -- rewrite Hnil. cbn [collapse_from]. rewrite Hsp.
           by destruct (Ascii.eqb_spec c Char.LF).
Qed.

(** The second replacement collapses line feeds and runs of white space. *)
Lemma white_space_collapsed (t : str) :
  replace_all Patterns.COLLAPSE_REGEX (fun _ => lit " ") t = collapse_white_space t.
Proof.
  unfold replace_all, collapse_white_space.
  rewrite (collapse_loop_spec t (length t)) by lia.
  by rewrite slice_nil, drop_0.
Qed.

End CollapseFacts.

Section BracketFacts.
Import Regex.

Lemma run_shift p (s : str) i n :
  run p s i (S n) -> run p s (S i) n.
Proof.
  intros [Hrun Hstop]. split.
  - intros m Hm. destruct (Hrun (S m)) as (ch & ? & ?); [lia|].
    exists ch. by replace (S i + m) with (i + S m) by lia.
  - intros ch. replace (S i + n) with (i + S n) by lia. apply Hstop.
Qed.

Lemma run_head p (s : str) i n :
  run p s i (S n) -> exists ch, s !! i = Some ch /\ p ch = true.
Proof.
  intros [Hrun _]. destruct (Hrun 0) as (ch & Hch & ?); [lia|].
  rewrite Nat.add_0_r in Hch. eauto.
Qed.

Lemma bracket_unit_open (s : str) i e c k a :
  open_unit s i e -> k e ((1, (i, e)) :: c) = Some a ->
  rmatch bracket_unit s i c k = Some a.
Proof.
  intros (Hi & n & Hn & Hrun & ->) Hk.
  destruct n as [|n]; [lia|].
  destruct (run_head _ _ _ _ Hrun) as (ch & Hch & Hp).
  pose proof (lookup_lt_Some _ _ _ Hch) as Hlt.
  unfold bracket_unit, ws1, Plus, chr.
  change (rmatch (Group ?g ?r) ?s ?i ?c ?k)
    with (rmatch r s i c (fun j c' => k j ((g, (i, j)) :: c'))).
  change (rmatch (Alt ?r1 ?r2) ?s ?i ?c ?k)
    with (match rmatch r1 s i c k with Some a => Some a | None => rmatch r2 s i c k end).
  assert (rmatch (Cat (Chr (Ascii.eqb "(")) (Cat (Chr Char.is_space) (Star (Chr Char.is_space))))
            s i c (fun j c' => k j ((1, (i, j)) :: c')) = Some a) as ->; [|done].
  change (rmatch (Cat ?r1 ?r2) ?s ?i ?c ?k)
    with (rmatch r1 s i c (fun j c' => rmatch r2 s j c' k)).
  change (rmatch (Chr ?p) ?s ?i ?c ?k)
    with (match s !! i with Some a => if p a then k (S i) c else None | None => None end).
  rewrite Hi, Ascii.eqb_refl. cbv beta.
  change (rmatch (Cat ?r1 ?r2) ?s ?i ?c ?k)
    with (rmatch r1 s i c (fun j c' => rmatch r2 s j c' k)).
  change (rmatch (Chr ?p) ?s ?i ?c ?k)
    with (match s !! i with Some a => if p a then k (S i) c else None | None => None end).
  rewrite Hch, Hp. cbv beta.
  rewrite (star_run_succeeds s _ _ _ _ _ a (run_shift _ _ _ _ Hrun)); [done|lia|].
  by replace (S (S i) + n) with (S i + S n) by lia.
Qed.

Lemma bracket_unit_close (s : str) i e c k a :
  close_unit s i e -> k e ((1, (i, e)) :: c) = Some a ->
  rmatch bracket_unit s i c k = Some a.
Proof.
  intros (n & Hn & Hrun & Hclose & ->) Hk.
  destruct n as [|n]; [lia|].
  destruct (run_head _ _ _ _ Hrun) as (ch & Hch & Hp).
  pose proof (lookup_lt_Some _ _ _ Hch) as Hlt.
  unfold bracket_unit, ws1, Plus, chr.
  change (rmatch (Group ?g ?r) ?s ?i ?c ?k)
    with (rmatch r s i c (fun j c' => k j ((g, (i, j)) :: c'))).
  change (rmatch (Alt ?r1 ?r2) ?s ?i ?c ?k)
    with (match rmatch r1 s i c k with Some a => Some a | None => rmatch r2 s i c k end).
  assert (rmatch (Cat (Chr (Ascii.eqb "(")) (Cat (Chr Char.is_space) (Star (Chr Char.is_space))))
            s i c (fun j c' => k j ((1, (i, j)) :: c')) = None) as ->.
  { change (rmatch (Cat ?r1 ?r2) ?s ?i ?c ?k)
      with (rmatch r1 s i c (fun j c' => rmatch r2 s j c' k)).
    change (rmatch (Chr ?p) ?s ?i ?c ?k)
      with (match s !! i with Some a => if p a then k (S i) c else None | None => None end).
    rewrite Hch. destruct (Ascii.eqb_spec "(" ch) as [<-|]; done. }
  change (rmatch (Cat ?r1 ?r2) ?s ?i ?c ?k)
    with (rmatch r1 s i c (fun j c' => rmatch r2 s j c' k)).
  change (rmatch (Cat ?r1 ?r2) ?s ?i ?c ?k)
    with (rmatch r1 s i c (fun j c' => rmatch r2 s j c' k)).
  change (rmatch (Chr Char.is_space) ?s ?i ?c ?k)
    with (match s !! i with
          | Some a => if Char.is_space a then k (S i) c else None
          | None => None
          end).
  rewrite Hch, Hp. cbv beta.
  rewrite (star_run_succeeds s _ _ _ _ _ a (run_shift _ _ _ _ Hrun)); [done|lia|].
  replace (S i + n) with (i + S n) by lia.
  cbn [rmatch]. by rewrite Hclose, Ascii.eqb_refl.
Qed.

(** Where the unit matches, there is a unit. *)
Lemma bracket_unit_sound (s : str) i j :
  matches s bracket_unit i j -> has_unit s i.
Proof.
  unfold bracket_unit. intros H.
  inversion H as [| | | | | | |? ? ? ? Hg| | |]; subst.
  inversion Hg as [| | |? ? ? ? Hl|? ? ? ? Hr| | | | | |]; subst.
  - left. apply matches_Cat_inv in Hl as (l & H1 & H2).
    apply matches_Chr_inv in H1 as [-> (ch & Hch & Heq)].
    apply Ascii.eqb_eq in Heq as <-.
    apply matches_plus_chr in H2 as [Hlt Hws].
    pose proof (lookup_lt_Some _ _ _ Hch) as Hlen.
    destruct (run_exists Char.is_space s (length s) (S i)) as [n Hrun]; [lia|lia|].
    exists (S i + n). split; [done|]. exists n. split; [|done].
    destruct n as [|n]; [|lia]. destruct Hrun as [_ Hstop].
    destruct (Hws (S i)) as (w & Hw & Hp); [lia|].
    rewrite Nat.add_0_r in Hstop. by rewrite (Hstop _ Hw) in Hp.
  - right. apply matches_Cat_inv in Hr as (l & H1 & H2).
    apply matches_plus_chr in H1 as [Hlt Hws].
    apply matches_Chr_inv in H2 as [-> (ch & Hch & Heq)].
    apply Ascii.eqb_eq in Heq as <-.
    exists (S l), (l - i). split; [lia|]. split; [split|].
    + intros m Hm. apply Hws. lia.
    + intros ch. replace (i + (l - i)) with l by lia. rewrite Hch. by intros [= <-].
    + replace (i + (l - i)) with l by lia. done.
Qed.

Lemma bracket_unit_none (s : str) i c k :
  ~ has_unit s i -> rmatch bracket_unit s i c k = None.
Proof.
  intros Hno. destruct (rmatch bracket_unit s i c k) as [a|] eqn:E; [|done].
  exfalso. apply Hno.
  apply rmatch_sound_with in E as (j & c' & Hm & _).
  apply matches_with_matches in Hm. by eapply bracket_unit_sound.
Qed.

Lemma bracket_star_stops (s : str) e c fuel :
  ~ has_unit s e ->
  star_loop (fun i' c' k' => rmatch bracket_unit s i' c' k')
    (fun j c' => Some (j, c')) fuel e c = Some (e, c).
Proof.
  intros Hno. destruct fuel as [|fuel]; [done|]. cbn [star_loop].
  by rewrite bracket_unit_none.
Qed.

Lemma bracket_match_at (s : str) i :
  match_at Patterns.BRACKET_SPACE_REGEX s i
  = match rmatch bracket_unit s i []
            (fun j c' =>
               star_loop (fun i' c' k' => rmatch bracket_unit s i' c' k')
                 (fun j c' => Some (j, c')) (S (length s - j)) j c') with
    | Some (j, c) => Some {| m_input := s; m_index := i; m_end := j; m_groups := c |}
    | None => None
    end.
Proof. reflexivity. Qed.

Lemma bracket_match_none (s : str) i :
  ~ has_unit s i -> match_at Patterns.BRACKET_SPACE_REGEX s i = None.
Proof. intros Hno. by rewrite bracket_match_at, bracket_unit_none. Qed.

Lemma bracket_match_one (s : str) i e :
  open_unit s i e \/ close_unit s i e -> ~ has_unit s e ->
  match_at Patterns.BRACKET_SPACE_REGEX s i
  = Some {| m_input := s; m_index := i; m_end := e; m_groups := [(1, (i, e))] |}.
Proof.
  intros Hunit Hno. rewrite bracket_match_at.
  assert (rmatch bracket_unit s i []
            (fun j c' =>
               star_loop (fun i' c' k' => rmatch bracket_unit s i' c' k')
                 (fun j c' => Some (j, c')) (S (length s - j)) j c')
          = Some (e, [(1, (i, e))])) as ->; [|done].
  destruct Hunit as [Hu|Hu].
  - apply (bracket_unit_open _ _ e); [done|]. by apply bracket_star_stops.
  - apply (bracket_unit_close _ _ e); [done|]. by apply bracket_star_stops.
Qed.

Lemma bracket_match_two (s : str) i e e' :
  close_unit s i e -> open_unit s e e' -> ~ has_unit s e' ->
  match_at Patterns.BRACKET_SPACE_REGEX s i
  = Some {| m_input := s; m_index := i; m_end := e';
            m_groups := [(1, (e, e')); (1, (i, e))] |}.
Proof.
  intros Hc Ho Hno. rewrite bracket_match_at.
  assert (rmatch bracket_unit s i []
            (fun j c' =>
               star_loop (fun i' c' k' => rmatch bracket_unit s i' c' k')
                 (fun j c' => Some (j, c')) (S (length s - j)) j c')
          = Some (e', [(1, (e, e')); (1, (i, e))])) as ->; [|done].
  apply (bracket_unit_close _ _ e); [done|]. cbn [star_loop].
  assert (He : e < e').
  { destruct Ho as (_ & n & ? & _ & ->). lia. }
  rewrite (bracket_unit_open s e e' _ _ (e', [(1, (e, e')); (1, (i, e))])); [done|done|].
  replace (e' =? e) with false by (symmetry; apply Nat.eqb_neq; lia).
  by apply bracket_star_stops.
Qed.

End BracketFacts.

Section TrimFacts.
Import Regex.

Lemma drop_while_app_all p (w r : str) :
  forallb p w = true -> JS.drop_while p (w ++ r) = JS.drop_while p r.
Proof.
  induction w as [|a w IH]; [done|]. simpl. intros H.
  apply andb_true_iff in H as [-> H]. by apply IH.
Qed.

Lemma drop_while_stop p (r : str) :
  (forall ch r', r = ch :: r' -> p ch = false) -> JS.drop_while p r = r.
Proof. destruct r as [|ch r']; [done|]. intros H. simpl. by rewrite (H ch r'). Qed.

(** [trim] takes the white space away around a text that neither starts
    nor ends with white space. *)
Lemma trim_core (w1 core w2 : str) :
  forallb Char.is_space w1 = true -> forallb Char.is_space w2 = true ->
  (forall ch r, core = ch :: r -> Char.is_space ch = false) ->
  (forall ch r, rev core = ch :: r -> Char.is_space ch = false) ->
  core <> [] ->
  JS.trim (w1 ++ core ++ w2) = core.
Proof.
  intros H1 H2 Hfirst Hlast Hne. unfold JS.trim, JS.trimStart, JS.trimEnd.
  rewrite !rev_app_distr, <- app_assoc.
  rewrite drop_while_app_all by (by rewrite forallb_rev).
  rewrite (drop_while_stop _ (rev core ++ rev w1)).
  - rewrite rev_app_distr, !rev_involutive.
    rewrite drop_while_app_all by done. by apply drop_while_stop.
  - intros ch r Hr. destruct (rev core) as [|c0 r0] eqn:E.
    + apply (f_equal (@rev _)) in E. rewrite rev_involutive in E. done.
    + injection Hr as <- _. by eapply Hlast.
Qed.

Lemma trim_inside_flag (rest : str) :
  (forall ch r, rest = ch :: r -> Char.is_space ch = false) ->
  trim_inside true rest = trim_inside false rest.
Proof. destruct rest as [|ch r]; [done|]. intros H. simpl. by rewrite (H ch r). Qed.

Lemma trim_inside_behind_open (w rest : str) :
  forallb Char.is_space w = true ->
  (forall ch r, rest = ch :: r -> Char.is_space ch = false) ->
  trim_inside false ("("%char :: w ++ rest) = "("%char :: trim_inside false rest.
Proof.
  intros Hw Hrest. cbn [trim_inside].
  change (Char.is_space "(") with false. cbv iota. rewrite Ascii.eqb_refl.
  f_equal. induction w as [|a w IH]; [by apply trim_inside_flag|].
  simpl in Hw. apply andb_true_iff in Hw as [Ha Hw].
  cbn [trim_inside app]. rewrite Ha. cbn [orb]. by apply IH.
Qed.

Lemma before_close_run (w rest : str) :
  forallb Char.is_space w = true -> before_close (w ++ ")"%char :: rest) = true.
Proof.
  intros Hw. unfold before_close. rewrite drop_while_app_all by done. done.
Qed.

Lemma trim_inside_before_close (w rest : str) :
  forallb Char.is_space w = true ->
  trim_inside false (w ++ ")"%char :: rest) = ")"%char :: trim_inside false rest.
Proof.
  intros Hw. induction w as [|a w IH]; [done|].
  simpl in Hw. apply andb_true_iff in Hw as [Ha Hw].
  cbn [trim_inside app]. rewrite Ha, before_close_run by done. cbn [orb].
  by apply IH.
Qed.

Lemma open_unit_text (s : str) i e :
  open_unit s i e ->
  exists w, drop i s = "("%char :: w ++ drop e s
    /\ JS.slice i e s = "("%char :: w
    /\ forallb Char.is_space w = true
    /\ (forall ch r, drop e s = ch :: r -> Char.is_space ch = false)
    /\ i < e <= length s.
Proof.
  intros (Hi & n & Hn & Hrun & ->).
  pose proof (lookup_lt_Some _ _ _ Hi) as Hlt.
  destruct (run_drop _ _ _ _ Hrun) as (Hdrop & Hws & Hlen); [lia|].
  pose proof (run_bound _ _ _ _ Hrun ltac:(lia)) as Hb.
  exists (JS.slice (S i) (S i + n) s). split; [|split; [|split; [|split]]].
  - by rewrite (drop_S _ _ _ Hi), Hdrop at 1.
  - unfold JS.slice. replace (S i + n - i) with (S (S i + n - S i)) by lia.
    by rewrite (drop_S _ _ _ Hi).
  - done.
  - intros ch r Hr. destruct Hrun as [_ Hstop]. apply Hstop.
    rewrite <- (Nat.add_0_r (S i + n)), <- lookup_drop, Hr. done.
  - lia.
Qed.

Lemma close_unit_text (s : str) i e :
  close_unit s i e ->
  exists w, drop i s = w ++ ")"%char :: drop e s
    /\ JS.slice i e s = w ++ [")"%char]
    /\ forallb Char.is_space w = true
    /\ i < e <= length s.
Proof.
  intros (n & Hn & Hrun & Hclose & ->).
  pose proof (lookup_lt_Some _ _ _ Hclose) as Hlt.
  destruct (run_drop _ _ _ _ Hrun) as (Hdrop & Hws & Hlen); [lia|].
  exists (JS.slice i (i + n) s). split; [|split; [|split]].
  - rewrite Hdrop at 1. by rewrite (drop_S _ _ _ Hclose).
  - by apply slice_snoc; [lia|].
  - done.
  - lia.
Qed.

Lemma unit_cases (s : str) i :
  (exists e, open_unit s i e) \/ (exists e, close_unit s i e) \/ ~ has_unit s i.
Proof.
  destruct (s !! i) as [c|] eqn:Hc.
  2:{ right. right. intros [(e & Hi & _)|(e & n & Hn & Hrun & _)]; [congruence|].
      destruct n as [|n]; [lia|].
      destruct (run_head _ _ _ _ Hrun) as (ch & ? & _). congruence. }
  pose proof (lookup_lt_Some _ _ _ Hc) as Hlt.
  destruct (Char.is_space c) eqn:Hsp.
  - destruct (run_exists Char.is_space s (length s) i) as [n Hrun]; [lia|lia|].
    assert (Hn : 1 <= n).
    { destruct n as [|n]; [|lia]. destruct Hrun as [_ Hstop].
      rewrite Nat.add_0_r in Hstop. by rewrite (Hstop _ Hc) in Hsp. }
    assert (Hopen : forall e, ~ open_unit s i e).
    { intros e (Hi & _). rewrite Hc in Hi. by injection Hi as ->. }
    destruct (s !! (i + n)) as [x|] eqn:Hx.
    + destruct (Ascii.eqb_spec x ")") as [->|Hne].
      * right. left. exists (S (i + n)), n. done.
      * right. right. intros [(e & Ho)|(e & n' & Hn' & Hrun' & Hclose & _)].
        -- by eapply Hopen.
        -- rewrite (run_unique _ _ _ _ _ Hrun' Hrun) in Hclose. congruence.
    + right. right. intros [(e & Ho)|(e & n' & Hn' & Hrun' & Hclose & _)].
      * by eapply Hopen.
      * rewrite (run_unique _ _ _ _ _ Hrun' Hrun) in Hclose. congruence.
  - assert (Hclose : forall e, ~ close_unit s i e).
    { intros e (n & Hn & Hrun & _). destruct n as [|n]; [lia|].
      destruct (run_head _ _ _ _ Hrun) as (ch & Hch & Hp). congruence. }
    destruct (Ascii.eqb_spec c "(") as [->|Hne].
    + destruct (s !! S i) as [b|] eqn:Hb.
      * destruct (Char.is_space b) eqn:Hpb.
        -- destruct (run_exists Char.is_space s (length s) (S i)) as [n Hrun]; [lia|lia|].
           left. exists (S i + n). split; [done|]. exists n. split; [|done].
           destruct n as [|n]; [|lia]. destruct Hrun as [_ Hstop].
           rewrite Nat.add_0_r in Hstop. by rewrite (Hstop _ Hb) in Hpb.
        -- right. right. intros [(e & _ & n & Hn & Hrun & _)|(e & Hu)].
           ++ destruct n as [|n]; [lia|].
              destruct (run_head _ _ _ _ Hrun) as (ch & Hch & Hp). congruence.
           ++ by eapply Hclose.
      * right. right. intros [(e & _ & n & Hn & Hrun & _)|(e & Hu)].
        -- destruct n as [|n]; [lia|].
           destruct (run_head _ _ _ _ Hrun) as (ch & Hch & Hp). congruence.
        -- by eapply Hclose.
    + right. right. intros [(e & Hi & _)|(e & Hu)].
      * congruence.
      * by eapply Hclose.
Qed.

(** A character at which no unit starts stays. *)
Lemma trim_inside_keeps (s : str) i c :
  s !! i = Some c -> ~ has_unit s i ->
  trim_inside false (drop i s) = c :: trim_inside false (drop (S i) s).
Proof.
  intros Hc Hno. rewrite (drop_S _ _ _ Hc). cbn [trim_inside].
  pose proof (lookup_lt_Some _ _ _ Hc) as Hlt.
  destruct (Char.is_space c) eqn:Hsp.
  - cbn [orb]. destruct (before_close (drop (S i) s)) eqn:Hbc; [|done].
    exfalso. apply Hno. right. unfold before_close in Hbc.
    destruct (drop_while_decompose Char.is_space (drop (S i) s)) as (pre & Hpre & Hws).
    destruct (JS.drop_while Char.is_space (drop (S i) s)) as [|x r]; [done|].
    apply Ascii.eqb_eq in Hbc as ->.
    assert (Hlook : forall m, (drop (S i) s) !! m = s !! (i + S m)).
    { intros m. rewrite lookup_drop. f_equal. lia. }
    exists (S (i + S (length pre))), (S (length pre)).
    split; [lia|]. split; [split|split; [|done]].
    + intros m Hm. destruct m as [|m].
      * exists c. by rewrite Nat.add_0_r.
      * rewrite <- Hlook, Hpre, lookup_app_l by lia.
        destruct (lookup_lt_is_Some_2 pre m ltac:(lia)) as [ch Hch].
        exists ch. split; [done|]. rewrite forallb_forall in Hws.
        apply Hws, list_elem_of_In. by eapply list_elem_of_lookup_2.
    + intros ch. rewrite <- Hlook, Hpre, lookup_app_r by lia.
      rewrite Nat.sub_diag. simpl. by intros [= <-].
    + rewrite <- Hlook, Hpre, lookup_app_r by lia. by rewrite Nat.sub_diag.
  - f_equal. destruct (Ascii.eqb_spec c "(") as [->|Hne]; [|done].
    apply trim_inside_flag. intros ch r Hr.
    destruct (Char.is_space ch) eqn:Hp; [|done]. exfalso. apply Hno. left.
    assert (Hb : s !! S i = Some ch).
    { rewrite <- (Nat.add_0_r (S i)), <- lookup_drop, Hr. done. }
    pose proof (lookup_lt_Some _ _ _ Hb).
    destruct (run_exists Char.is_space s (length s) (S i)) as [n Hrun]; [lia|lia|].
    exists (S i + n). split; [done|]. exists n. split; [|done].
    destruct n as [|n]; [|lia]. destruct Hrun as [_ Hstop].
    rewrite Nat.add_0_r in Hstop. by rewrite (Hstop _ Hb) in Hp.
Qed.

End TrimFacts.

Section BracketLoop.
Import Regex.

Variable s : str.
Hypothesis Hopen : apart "(" s.
Hypothesis Hclose : apart ")" s.

Lemma open_unit_is_last i e : open_unit s i e -> ~ has_unit s e.
Proof.
  intros Hu [(e' & He & _)|(e' & n & Hn & Hrun & _)].
  - destruct Hu as (Hi & n & Hn & [Hrun _] & ->).
    destruct (Hopen i (S i + n)) as (q & ch & Hq & Hch & Hsp); [lia|done|done|].
    destruct (Hrun (q - S i)) as (ch' & Hch' & Hsp'); [lia|].
    replace (S i + (q - S i)) with q in Hch' by lia. congruence.
  - destruct (open_unit_text _ _ _ Hu) as (w & _ & _ & _ & Hstop & _).
    destruct n as [|n]; [lia|].
    destruct (run_head _ _ _ _ Hrun) as (ch & Hch & Hp).
    assert (Hd : exists r, drop e s = ch :: r).
    { exists (drop (S e) s). by apply drop_S. }
    destruct Hd as [r Hd]. by rewrite (Hstop _ _ Hd) in Hp.
Qed.

Lemma close_unit_not_twice i e e' : close_unit s i e -> ~ close_unit s e e'.
Proof.
  intros (n & Hn & _ & Hc & ->) (n' & Hn' & [Hrun' _] & Hc' & _).
  destruct (Hclose (i + n) (S (i + n) + n')) as (q & ch & Hq & Hch & Hsp);
    [lia|done|done|].
  destruct (Hrun' (q - S (i + n))) as (ch' & Hch' & Hsp'); [lia|].
  replace (S (i + n) + (q - S (i + n))) with q in Hch' by lia. congruence.
Qed.

Lemma bracket_loop_spec : forall d from copied fuel,
  length s - from <= d -> copied <= from <= length s -> length s - from < fuel ->
  replace_loop Patterns.BRACKET_SPACE_REGEX JS.trim s fuel from copied
  = JS.slice copied from s ++ trim_inside false (drop from s).
Proof.
  induction d as [|d IH]; intros from copied fuel Hd Hle Hfuel.
  - assert (from = length s) as -> by lia.
    destruct fuel as [|fuel]; [lia|]. cbn [replace_loop].
    rewrite exec_from_end; [|..|lia].
    + by rewrite slice_to_end, drop_all, app_nil_r.
    + apply bracket_match_none.
      intros [(e & Hi & _)|(e & n & Hn & Hrun & _)].
      * apply lookup_lt_Some in Hi. lia.
      * destruct n as [|n]; [lia|].
        destruct (run_head _ _ _ _ Hrun) as (ch & Hch & _).
        apply lookup_lt_Some in Hch. lia.
  - destruct (s !! from) as [c|] eqn:Hc.
    2:{ apply lookup_ge_None_1 in Hc. apply (IH from copied fuel); lia. }
    pose proof (lookup_lt_Some _ _ _ Hc) as Hlt.
    assert (Hstep : forall e core,
              match_at Patterns.BRACKET_SPACE_REGEX s from <> None ->
              (forall m, match_at Patterns.BRACKET_SPACE_REGEX s from = Some m ->
                 m_index m = from /\ m_end m = e) ->
              from < e <= length s ->
              JS.trim (JS.slice from e s) = core ->
              trim_inside false (drop from s) = core ++ trim_inside false (drop e s) ->
              replace_loop Patterns.BRACKET_SPACE_REGEX JS.trim s fuel from copied
              = JS.slice copied from s ++ trim_inside false (drop from s)).
    { intros e core Hsome Hm He Htrim Hspec.
      destruct (match_at _ s from) as [m|] eqn:Hat; [|done].
      destruct (Hm m eq_refl) as [Hi Hend].
      pose proof (match_at_sound _ _ _ _ Hat) as (Hin & _).
      destruct fuel as [|fuel]; [lia|]. cbn [replace_loop].
      rewrite (exec_from_here _ _ _ _ Hat). unfold whole. rewrite Hin, Hi, Hend.
      replace (e =? from) with false by (symmetry; apply Nat.eqb_neq; lia).
      rewrite IH by lia. by rewrite slice_nil, app_nil_l, Htrim, Hspec. }
    destruct (unit_cases s from) as [(e & Hu)|[(e & Hu)|Hno]].
    + pose proof (open_unit_is_last _ _ Hu) as Hlast.
      destruct (open_unit_text _ _ _ Hu) as (w & Hdrop & Hslice & Hw & Hstop & He).
      apply (Hstep e ["("%char]); [| |done| |].
      * by rewrite (bracket_match_one s from e) by (by left || done).
      * intros m. rewrite (bracket_match_one s from e) by (by left || done).
        by intros [= <-].
      * rewrite Hslice.
        apply (trim_core [] ["("%char] w); [done|done| | |done];
          by intros ch r [= <- _].
      * rewrite Hdrop. by apply trim_inside_behind_open.
    + destruct (close_unit_text _ _ _ Hu) as (w & Hdrop & Hslice & Hw & He).
      destruct (unit_cases s e) as [(e' & Hu')|[(e' & Hu')|Hno]].
      * pose proof (open_unit_is_last _ _ Hu') as Hlast.
        destruct (open_unit_text _ _ _ Hu') as (w' & Hdrop' & Hslice' & Hw' & Hstop' & He').
        assert (Hwhole : JS.slice from e' s = w ++ [")"%char; "("%char] ++ w').
        { unfold JS.slice. rewrite Hdrop, Hdrop'.
          assert (Hlen : e' - from = length (w ++ [")"%char; "("%char] ++ w')).
          { apply (f_equal (@length _)) in Hslice, Hslice'.
            rewrite length_slice in Hslice, Hslice' by lia.
            rewrite !length_app in *. simpl in *. lia. }
          rewrite Hlen.
          replace (w ++ ")"%char :: "("%char :: w' ++ drop e' s)
            with ((w ++ [")"%char; "("%char] ++ w') ++ drop e' s)
            by (by rewrite <- !app_assoc).
          by rewrite take_app_length. }
        apply (Hstep e' [")"%char; "("%char]); [| |lia| |].
        -- by rewrite (bracket_match_two s from e e').
        -- intros m. rewrite (bracket_match_two s from e e') by done.
           by intros [= <-].
        -- rewrite Hwhole.
           apply (trim_core w [")"%char; "("%char] w'); [done|done| | |done];
             by intros ch r [= <- _].
        -- rewrite Hdrop, trim_inside_before_close, Hdrop' by done.
           by rewrite trim_inside_behind_open.
      * by destruct (close_unit_not_twice _ _ e' Hu).
      * apply (Hstep e [")"%char]); [| |done| |].
        -- by rewrite (bracket_match_one s from e) by (by right || done).
        -- intros m. rewrite (bracket_match_one s from e) by (by right || done).
           by intros [= <-].
        -- rewrite Hslice.
           replace (w ++ [")"%char]) with (w ++ [")"%char] ++ []) by (by rewrite app_nil_r).
           apply (trim_core w [")"%char] []); [done|done| | |done];
             by intros ch r [= <- _].
        -- rewrite Hdrop. by apply trim_inside_before_close.
    + rewrite replace_loop_next by (by apply bracket_match_none || done).
      rewrite IH by lia. rewrite (slice_snoc _ _ _ c) by (lia || done).
      rewrite (trim_inside_keeps s from c) by done. by rewrite <- app_assoc.
Qed.

(** The third replacement trims the white space inside the parentheses. *)
Lemma brackets_trimmed :
  replace_all Patterns.BRACKET_SPACE_REGEX JS.trim s = trim_inside_parentheses s.
Proof.
  unfold replace_all, trim_inside_parentheses.
  rewrite (bracket_loop_spec (length s)) by lia.
  by rewrite slice_nil, drop_0.
Qed.

End BracketLoop.

Lemma kept_apart_from_sound c (t : str) :
  Char.is_space c = false ->
  forall state,
  kept_apart_from c state t = true ->
  apart c t
  /\ (state = 2 -> forall j, t !! j = Some c ->
        exists q ch, q < j /\ t !! q = Some ch /\ Char.is_space ch = false)
  /\ (state = 1 -> forall j, 0 < j -> t !! j = Some c ->
        exists q ch, q < j /\ t !! q = Some ch /\ Char.is_space ch = false).
Proof.
  intros Hc. induction t as [|x t IH]; intros state H.
  { split; [by intros i j _ ?|]. split; by intros _ j. }
  cbn [kept_apart_from] in H.
  assert (Hshift : forall st,
            kept_apart_from c st t = true ->
            forall i j, S i < j -> t !! i = Some c -> t !! j = Some c ->
              exists q ch, S i < q < S j /\ (x :: t) !! q = Some ch
                           /\ Char.is_space ch = false).
  { intros st Hst i j Hij Hi Hj.
    destruct (IH st Hst) as (Ha & _). destruct (Ha i j Hij Hi Hj) as (q & ch & ? & ? & ?).
    exists (S q), ch. split; [lia|done]. }
  destruct (Ascii.eqb_spec x c) as [->|Hne].
  - assert (Hst : kept_apart_from c 1 t = true) by (by destruct state as [|[|[|?]]]).
    destruct (IH 1 Hst) as (Ha & _ & H1). specialize (H1 eq_refl).
    split; [|split].
    + intros i j Hij Hi Hj. destruct i as [|i].
      * destruct j as [|j]; [lia|]. simpl in Hj.
        destruct (H1 j ltac:(lia) Hj) as (q & ch & ? & ? & ?).
        exists (S q), ch. split; [lia|done].
      * destruct j as [|j]; [lia|]. simpl in Hi, Hj.
        destruct (Ha i j ltac:(lia) Hi Hj) as (q & ch & ? & ? & ?).
        exists (S q), ch. split; [lia|done].
    + intros ->. done.
    + intros _ j Hj _. exists 0, c. split; [lia|done].
  - assert (Hx0 : forall i, (x :: t) !! i = Some c -> exists i', i = S i' /\ t !! i' = Some c).
    { intros [|i] Hi; [simpl in Hi; congruence|]. eauto. }
    destruct (Char.is_space x) eqn:Hsp.
    + destruct (IH _ H) as (Ha & H2 & _).
      split; [|split].
      * intros i j Hij Hi Hj.
        apply Hx0 in Hi as (i' & -> & Hi). apply Hx0 in Hj as (j' & -> & Hj).
        destruct (Ha i' j' ltac:(lia) Hi Hj) as (q & ch & ? & ? & ?).
        exists (S q), ch. split; [lia|done].
      * intros -> j Hj. apply Hx0 in Hj as (j' & -> & Hj).
        destruct (H2 eq_refl j' Hj) as (q & ch & ? & ? & ?).
        exists (S q), ch. split; [lia|done].
      * intros -> j _ Hj. apply Hx0 in Hj as (j' & -> & Hj).
        destruct (H2 eq_refl j' Hj) as (q & ch & ? & ? & ?).
        exists (S q), ch. split; [lia|done].
    + destruct (IH _ H) as (Ha & _ & _).
      split; [|split].
      * intros i j Hij Hi Hj.
        apply Hx0 in Hi as (i' & -> & Hi). apply Hx0 in Hj as (j' & -> & Hj).
        destruct (Ha i' j' ltac:(lia) Hi Hj) as (q & ch & ? & ? & ?).
        exists (S q), ch. split; [lia|done].
      * intros _ j Hj. apply Hx0 in Hj as (j' & -> & Hj).
        exists 0, x. split; [lia|done].
      * intros _ j _ Hj. apply Hx0 in Hj as (j' & -> & Hj).
        exists 0, x. split; [lia|done].
Qed.

Lemma kept_apart_sound c (t : str) :
  Char.is_space c = false -> kept_apart c t = true -> apart c t.
Proof. intros Hc H. by destruct (kept_apart_from_sound c t Hc 0 H). Qed.

(** The text spliced in for a sequence, in the words of the specification:
    the three replacements of the source remove the terminating semicolon,
    collapse the white space and trim the white space inside the
    parentheses. *)
Lemma sequence_text_spec definition headerEnd :
  kept_apart "(" (identity_clause definition headerEnd) = true ->
  kept_apart ")" (identity_clause definition headerEnd) = true ->
  sequence_text definition headerEnd
  = trim_inside_parentheses (identity_clause definition headerEnd).
Proof.
  intros Ho Hc. unfold sequence_text, identity_clause, JS.slice_from in *.
  rewrite terminator_removed, white_space_collapsed.
  apply brackets_trimmed; by apply kept_apart_sound.
Qed.




(* ================================================================== *)
(** * Further facts about the tokenizer *)

Lemma step_dollar_flags content char st :
  inDashComment (step_dollar content char st) = inDashComment st
  /\ inBlockComment (step_dollar content char st) = inBlockComment st
  /\ inSingleQuote (step_dollar content char st) = inSingleQuote st
  /\ inDoubleQuote (step_dollar content char st) = inDoubleQuote st.
Proof. unfold step_dollar. by repeat case_match. Qed.

Lemma step_exclusive_flags content separator st :
  exclusive_flags st = true -> exclusive_flags (step content separator st) = true.
Proof.
  unfold step. destruct (content !! pos st) as [char|]; [|done].
  destruct (Ascii.eqb char "$").
  { unfold exclusive_flags.
    by destruct (step_dollar_flags content char st) as (-> & -> & -> & ->). }
  unfold step_transitions, exclusive_flags.
  destruct st as [ss cur p d b s q]; simpl.
  destruct d, b, s, q; try done; simpl; repeat case_match; done.
Qed.

Lemma scan_exclusive_flags content separator : forall fuel st,
  exclusive_flags st = true ->
  exclusive_flags (scan fuel content separator st) = true.
Proof.
  induction fuel as [|fuel IH]; intros st H; simpl; [done|].
  destruct (pos st <? length content); [|done].
  by apply IH, step_exclusive_flags.
Qed.

(** The lexical states of the tokenizer are mutually exclusive: after any
    number of iterations of the loop, from the initial state, at most one of
    [inDashComment], [inBlockComment], [inSingleQuote] and [inDoubleQuote] is
    set. *)
Theorem scanner_flags_are_exclusive content separator fuel :
  exclusive_flags (scan fuel content separator initial_state) = true.
Proof. by apply scan_exclusive_flags. Qed.

Lemma step_statements_end_with_separator content separator st :
  Forall (ends_with (separator_char separator)) (statements st) ->
  Forall (ends_with (separator_char separator))
         (statements (step content separator st)).
Proof.
  intros H.
  destruct (decide (statements (step content separator st) = statements st))
    as [->|Hne]; [done|].
  apply step_pushes_only_in_normal_state in Hne as (_ & _ & ->). simpl.
  apply Forall_app. split; [done|]. apply Forall_singleton.
  unfold ends_with. by rewrite last_snoc.
Qed.

Lemma scan_statements_end_with_separator content separator : forall fuel st,
  Forall (ends_with (separator_char separator)) (statements st) ->
  Forall (ends_with (separator_char separator))
         (statements (scan fuel content separator st)).
Proof.
  induction fuel as [|fuel IH]; intros st H; simpl; [done|].
  destruct (pos st <? length content); [|done].
  by apply IH, step_statements_end_with_separator.
Qed.

Lemma splitIntoStatements_all_but_last content separator :
  Forall (ends_with (separator_char separator))
    (take (length (splitIntoStatements content separator) - 1)
       (splitIntoStatements content separator)).
Proof.
  unfold splitIntoStatements.
  pose proof (scan_statements_end_with_separator content separator
                (length content) initial_state ltac:(constructor)) as H.
  destruct (JS.truthy _); simpl.
  - rewrite length_app. simpl.
    replace (length (statements (scan (length content) content separator initial_state))
             + 1 - 1) with
      (length (statements (scan (length content) content separator initial_state)))
      by lia.
    by rewrite take_app_length.
  - by apply Forall_take.
Qed.

(** Every statement the tokenizer returns, except possibly the last one,
    ends with the separator: only the remainder at the end of the input can
    lack it. *)
Theorem statements_end_with_separator content separator :
  let l := splitIntoStatements content separator in
  Forall (ends_with (separator_char separator)) (take (length l - 1) l).
Proof. apply splitIntoStatements_all_but_last. Qed.

(** A step taken inside a comment or a quoted string completes no
    statement: the list of statements is cut only in the normal state. *)
Theorem no_cut_inside_comment_or_quote content separator st :
  in_comment_or_quote st = true ->
  statements (step content separator st) = statements st.
Proof.
  intros H.
  destruct (decide (statements (step content separator st) = statements st))
    as [|Hne]; [done|].
  apply step_pushes_only_in_normal_state in Hne as ((H1 & H2 & H3 & H4) & _).
  unfold in_comment_or_quote in H. by rewrite H1, H2, H3, H4 in H.
Qed.

Lemma no_cut_inside_comment_or_quote_witness :
  statements
    (step (lit "a;b") semicolon
       (set_quotes true false (consume (lit "a") 1 initial_state))) = [].
Proof.
  apply (no_cut_inside_comment_or_quote (lit "a;b") semicolon
           (set_quotes true false (consume (lit "a") 1 initial_state))).
  reflexivity.
Defined.

Lemma only_at_end_snoc c s : c ∉ s -> only_at_end c (s ++ [c]).
Proof.
  intros Hn i Hi. rewrite length_app. simpl.
  destruct (decide (i < length s)) as [Hlt|Hge].
  - rewrite lookup_app_l in Hi by done. exfalso. apply Hn.
    by eapply list_elem_of_lookup_2.
  - apply lookup_lt_Some in Hi. rewrite length_app in Hi. simpl in Hi. lia.
Qed.

Lemma only_at_end_absent c s : c ∉ s -> only_at_end c s.
Proof. intros Hn i Hi. exfalso. apply Hn. by eapply list_elem_of_lookup_2. Qed.

Lemma step_plain_inv content separator st :
  forallb plain content = true ->
  plain_inv (separator_char separator) st ->
  plain_inv (separator_char separator) (step content separator st).
Proof.
  intros Hp ((H1 & H2 & H3 & H4) & Hc & Hs). unfold step.
  destruct (content !! pos st) as [char|] eqn:E; [|done].
  assert (Hchar : plain char = true).
  { rewrite forallb_forall in Hp. apply Hp. apply list_elem_of_In.
    by eapply list_elem_of_lookup_2. }
  unfold plain in Hchar. apply negb_true_iff in Hchar.
  repeat (apply orb_false_iff in Hchar as [Hchar ?]).
  rewrite Hchar. rewrite H1, H2, H3, H4. cbn [negb andb].
  replace (Ascii.eqb char "-") with false by done.
  replace (Ascii.eqb char "/") with false by done. cbn [andb].
  unfold step_transitions. rewrite H1, H2, H3, H4. cbn [negb andb].
  replace (Ascii.eqb char Char.SQUOTE) with false by done.
  replace (Ascii.eqb char Char.DQUOTE) with false by done.
  rewrite H3, H4. cbn [negb andb].
  destruct (Ascii.eqb_spec char (separator_char separator)) as [->|Hne].
  - split; [done|]. split; [simpl; apply not_elem_of_nil|].
    simpl. apply Forall_app. split; [done|].
    apply Forall_singleton. by apply only_at_end_snoc.
  - split; [done|]. split; [|done]. simpl.
    rewrite elem_of_app, list_elem_of_singleton. intros [?|?]; [done|].
    by apply Hne.
Qed.

Lemma scan_plain_inv content separator : forall fuel st,
  forallb plain content = true ->
  plain_inv (separator_char separator) st ->
  plain_inv (separator_char separator) (scan fuel content separator st).
Proof.
  induction fuel as [|fuel IH]; intros st Hp Hi; [done|].
  simpl. destruct (pos st <? length content); [|done].
  apply IH; [done|]. by apply step_plain_inv.
Qed.

(** In text without dollar signs, quotes, dashes and slashes the separator
    occurs in a statement only as its last character: such text is cut
    after every separator. *)
Theorem plain_text_is_cut_at_every_separator content separator :
  forallb plain content = true ->
  Forall (only_at_end (separator_char separator))
    (splitIntoStatements content separator).
Proof.
  intros Hp. unfold splitIntoStatements.
  destruct (scan_plain_inv content separator (length content) initial_state Hp)
    as (_ & Hc & Hs).
  { split; [done|]. split; [apply not_elem_of_nil|constructor]. }
  destruct (JS.truthy _); [|done].
  apply Forall_app. split; [done|]. apply Forall_singleton.
  by apply only_at_end_absent.
Qed.

Lemma plain_text_is_cut_at_every_separator_witness :
  Forall (only_at_end ";"%char) (splitIntoStatements (lit "a;b;;c") semicolon).
Proof.
  apply (plain_text_is_cut_at_every_separator (lit "a;b;;c") semicolon).
  reflexivity.
Defined.

(* ================================================================== *)
(** * Further facts about the classifier *)

Lemma kw_chars_starts (s : str) : forall l i j,
  Regex.matches s (Regex.kw_chars l) i j -> starts_with_ci l (drop i s) = true.
Proof.
  induction l as [|a l IH]; intros i j H; [done|].
  destruct l as [|a' l].
  - simpl in H. apply matches_Chr_inv in H as [_ (b & Hb & Hp)].
    rewrite (drop_S _ _ _ Hb). simpl. by rewrite Hp.
  - cbn [Regex.kw_chars] in H. apply matches_Cat_inv in H as (l0 & H1 & H2).
    apply matches_Chr_inv in H1 as [-> (b & Hb & Hp)].
    rewrite (drop_S _ _ _ Hb). cbn [starts_with_ci]. rewrite Hp. simpl.
    by apply IH in H2.
Qed.

Lemma first_match_exec registry : forall statement parser m,
  first_match registry statement = Some (parser, m) ->
  parser ∈ registry /\ Regex.exec (p_regex parser) statement = Some m.
Proof.
  induction registry as [|p registry IH]; intros statement parser m H; [done|].
  simpl in H. destruct (Regex.exec (p_regex p) statement) as [m0|] eqn:E.
  - injection H as <- <-. split; [left|done].
  - apply IH in H as [? ?]. split; [by right|done].
Qed.

Lemma seq_kw_starts (s : str) keyword r rs i j :
  Regex.matches s (Regex.seq (Regex.kw keyword :: r :: rs)) i j ->
  starts_with_ci (lit keyword) (drop i s) = true.
Proof.
  cbn [Regex.seq]. intros H. apply matches_Cat_inv in H as (l & H & _).
  by eapply kw_chars_starts.
Qed.

Lemma registry_patterns_start_with_keyword parser statement m :
  parser ∈ PARSER_REGISTRY ->
  Regex.exec (p_regex parser) statement = Some m ->
  starts_with_ci (lit (keyword_of (p_type parser))) (drop (Regex.m_index m) statement)
  = true
  /\ statement_type (p_parse parser m statement) = p_type parser.
Proof.
  intros Hin H. apply exec_sound in H as (_ & Hm & _).
  unfold PARSER_REGISTRY in Hin.
  repeat (apply elem_of_cons in Hin as [->|Hin]);
    [..|by apply elem_of_nil in Hin];
    (split; [|reflexivity]);
    cbv beta iota delta [p_regex SchemaParser ExtensionParser TypeParser
      DomainParser FunctionParser ProcedureParser TableParser SequenceParser
      ViewParser ConstraintParser IndexParser GeneralParser
      Patterns.SchemaParser_regex Patterns.ExtensionParser_regex
      Patterns.TypeParser_regex Patterns.DomainParser_regex
      Patterns.FunctionParser_regex Patterns.ProcedureParser_regex
      Patterns.TableParser_regex Patterns.SequenceParser_regex
      Patterns.ViewParser_regex Patterns.ConstraintParser_regex
      Patterns.IndexParser_regex Patterns.create_regex] in Hm;
    exact (seq_kw_starts _ _ _ _ _ _ Hm).
Qed.

Lemma extractDefinition_drop m statement :
  (extractDefinition m statement).1 = drop (Regex.m_index m) statement.
Proof.
  unfold extractDefinition. destruct (Nat.eqb_spec (Regex.m_index m) 0) as [->|]; done.
Qed.

(** The definition text of a classified statement begins exactly at the
    matched keyword: it starts, letter case apart, with [CREATE] (with
    [ALTER] for sequences and constraints); the text before the keyword is
    the residual prefix, which is never the empty string, and prefix and
    definition together are the statement. *)
Theorem definition_starts_at_the_keyword statement parsed :
  parseStatement statement = Some parsed ->
  default [] (ps_residual (base parsed)) ++ ps_definition (base parsed) = statement
  /\ starts_with_ci (lit (keyword_of (statement_type parsed)))
       (ps_definition (base parsed)) = true
  /\ ps_residual (base parsed) <> Some [].
Proof.
  intros Hp. split; [by apply parseStatement_cuts|].
  unfold parseStatement in Hp.
  destruct (first_match PARSER_REGISTRY statement) as [[parser m]|] eqn:E; [|done].
  injection Hp as <-.
  destruct (first_match_base _ _ _ _ registry_uses_extractDefinition E) as [Hd Hr].
  apply first_match_exec in E as [Hin Hexec].
  destruct (registry_patterns_start_with_keyword _ _ _ Hin Hexec) as [Hk Ht].
  rewrite Hd, Hr, Ht, extractDefinition_drop. split; [done|].
  unfold extractDefinition.
  destruct (Nat.eqb_spec (Regex.m_index m) 0) as [E0|Hne]; [done|].
  simpl. intros [= Hnil]. unfold JS.slice in Hnil.
  rewrite drop_0, Nat.sub_0_r in Hnil.
  apply exec_sound in Hexec as (_ & _ & Hle & Hlen).
  apply (f_equal length) in Hnil. rewrite length_take in Hnil. simpl in Hnil.
  destruct (drop (Regex.m_index m) statement) eqn:Ed; [|].
  - by destruct (p_type parser).
  - apply (f_equal length) in Ed. rewrite length_drop in Ed. simpl in Ed. lia.
Qed.

Lemma definition_starts_at_the_keyword_witness :
  parseStatement example_commented_statement = Some example_commented_parsed
  /\ lit "-- users" ++ [Char.LF] ++ lit "create table foo (id int);"
     = example_commented_statement
  /\ starts_with_ci (lit "CREATE") (lit "create table foo (id int);") = true.
Proof.
  assert (H : parseStatement example_commented_statement
              = Some example_commented_parsed) by (vm_compute; reflexivity).
  destruct (definition_starts_at_the_keyword _ _ H) as (H1 & H2 & _).
  split; [exact H|]. split; [exact H1 | exact H2].
Defined.

(* ================================================================== *)
(** * Further facts about [parse] and the attachment engine *)

Lemma last_concat_separator c : forall (l : list str),
  Forall (fun s => s <> []) l ->
  Forall (ends_with c) (take (length l - 1) l) ->
  c ∉ concat l -> length l <= 1.
Proof.
  intros [|s [|s' l]] Hne He Hc; simpl; [lia..|].
  exfalso. simpl in He. apply Forall_cons in He as [He _].
  apply Hc. simpl. apply elem_of_app. left.
  unfold ends_with in He. apply last_Some in He as (s0 & ->).
  apply elem_of_app. right. by apply list_elem_of_singleton.
Qed.

Lemma drop_while_all p : forall s, forallb p s = true -> JS.drop_while p s = [].
Proof.
  induction s as [|c s IH]; [done|]. simpl. intros H.
  apply andb_true_iff in H as [-> H]. by apply IH.
Qed.

Lemma trim_blank s : forallb Char.is_space s = true -> JS.trim s = [].
Proof.
  intros H. unfold JS.trim, JS.trimEnd, JS.trimStart.
  rewrite (drop_while_all _ (rev s)); [done|]. by rewrite forallb_rev.
Qed.

Lemma splitIntoStatements_without_separator content separator :
  separator_char separator ∉ content ->
  splitIntoStatements content separator
  = if JS.truthy content then [content] else [].
Proof.
  intros Hn.
  destruct (splitIntoStatements_spells_input content separator) as [Hcat Hne].
  pose proof (splitIntoStatements_all_but_last content separator) as He.
  assert (Hlen : length (splitIntoStatements content separator) <= 1).
  { apply (last_concat_separator (separator_char separator)); [done..|].
    by rewrite Hcat. }
  destruct (splitIntoStatements content separator) as [|s [|s' l]];
    [| |simpl in Hlen; lia].
  - by rewrite <- Hcat.
  - simpl in Hcat. rewrite app_nil_r in Hcat. subst s.
    apply Forall_cons in Hne as [Hne _]. by destruct content.
Qed.

Lemma is_space_not_separator c separator :
  Char.is_space c = true -> c <> separator_char separator.
Proof. intros H ->. by destruct separator. Qed.

(** A dump that consists of white space only (the empty dump included)
    yields no object and an empty residual. *)
Theorem blank_dump_yields_nothing content :
  forallb Char.is_space content = true ->
  parse content = Done {| objects := []; residual := [] |}.
Proof.
  intros Hb. unfold parse, classify_all.
  rewrite splitIntoStatements_without_separator.
  2:{ intros Hin. rewrite forallb_forall in Hb.
      apply list_elem_of_In, Hb in Hin. revert Hin.
      by apply not_true_iff_false. }
  assert (Hacc : foldl collect nothing_collected
                   (if JS.truthy content then [content] else [])
                 = nothing_collected).
  { destruct (JS.truthy content); [|done]. simpl. unfold collect.
    by rewrite trim_blank. }
  rewrite Hacc. unfold nothing_collected.
  cbn [c_objects c_attachableStatements c_residual].
  by rewrite attachObjectsToTables_nil.
Qed.

Lemma blank_dump_yields_nothing_witness :
  parse [" "%char; Char.LF; Char.TAB]
  = Done {| objects := []; residual := [] |}.
Proof.
  apply (blank_dump_yields_nothing [" "%char; Char.LF; Char.TAB]). reflexivity.
Defined.

Lemma foldl_push_attachable l : forall entry,
  foldl (fun e a => push_attachable a e) entry l
  = {| sequences := sequences entry ++ sequences_of l;
       constraints := constraints entry ++ constraints_of l;
       indexes := indexes entry ++ indexes_of l |}.
Proof.
  induction l as [|a l IH]; intros entry; simpl.
  - rewrite !app_nil_r. by destruct entry.
  - rewrite IH. destruct a; simpl; by rewrite <- ?app_assoc.
Qed.

Lemma foldl_entry_step q l : forall entry,
  foldl (entry_step q) entry l
  = match statements_for q l with
    | [] => entry
    | _ :: _ =>
        Some (foldl (fun e a => push_attachable a e)
                (default empty_attachables entry) (statements_for q l))
    end.
Proof.
  unfold statements_for.
  induction l as [|a l IH]; intros entry; simpl; [done|].
  rewrite IH. unfold entry_step. rewrite filter_cons.
  case_bool_decide as Hq.
  - rewrite decide_True by done. cbn [foldl from_option].
    destruct (filter _ l); done.
  - by rewrite decide_False by done.
Qed.

(** [groupAttachablesByTable] files every statement under its key and
    nowhere else: the entry of a key holds exactly the statements with that
    key, split by kind, each list in source order; a key no statement has is
    absent. *)
Theorem grouping_partitions_by_key_and_kind l q :
  groupAttachablesByTable l !! q
  = match statements_for q l with
    | [] => None
    | _ :: _ =>
        Some {| sequences := sequences_of (statements_for q l);
                constraints := constraints_of (statements_for q l);
                indexes := indexes_of (statements_for q l) |}
    end.
Proof.
  rewrite groupAttachablesByTable_lookup, foldl_entry_step.
  destruct (statements_for q l) as [|a f] eqn:E; [done|].
  by rewrite foldl_push_attachable.
Qed.

Lemma map_outcome_Forall2 {A B} (f : A -> outcome B) l : forall l',
  map_outcome f l = Done l' -> Forall2 (fun a b => f a = Done b) l l'.
Proof.
  induction l as [|a l IH]; intros l' H; simpl in H.
  - injection H as <-. constructor.
  - destruct (f a) as [b|] eqn:Ea; [|done]. cbn [mbind outcome_bind] in H.
    destruct (map_outcome f l) as [bs|]; [|done]. cbn [mbind outcome_bind] in H.
    injection H as <-. constructor; [done|]. by apply IH.
Qed.

Lemma attach_object_identity byTable object object' :
  attach_object byTable object = Done object' -> identity object' = identity object.
Proof.
  unfold attach_object. destruct (is_table_or_view _); [|by intros [= <-]].
  destruct (byTable !! _) as [entry|]; [|by intros [= <-]].
  unfold attach_sequences_step.
  destruct (0 <? length (sequences entry)).
  - destruct (attachSequencesToTable _ _) as [d|]; [|done].
    cbn [mbind outcome_bind]. intros [= <-].
    unfold attach_indexes_step, attach_constraints_step.
    by repeat case_match.
  - cbn [mbind outcome_bind]. intros [= <-].
    unfold attach_indexes_step, attach_constraints_step.
    by repeat case_match.
Qed.

Lemma attachObjectsToTables_identity objects attachables objects' :
  attachObjectsToTables objects attachables = Done objects' ->
  map identity objects' = map identity objects.
Proof.
  unfold attachObjectsToTables. intros H. apply map_outcome_Forall2 in H.
  induction H as [|a b l l' Hab _ IH]; [done|]. simpl. f_equal; [|done].
  by eapply attach_object_identity.
Qed.

(** The attachment engine neither drops, adds nor reorders objects, and
    never changes the type, schema, name or qualifiedName of one: the objects
    [parse] returns are, in discovery order, the objects collected while the
    statements were classified, with only their definition text and their
    [sequences], [constraints] and [indexes] fields possibly updated. *)
Theorem parse_keeps_the_objects content result :
  parse content = Done result ->
  map identity (objects result) = map identity (c_objects (classify_all content))
  /\ length (objects result) = length (c_objects (classify_all content)).
Proof.
  unfold parse.
  destruct (attachObjectsToTables _ _) as [objects'|] eqn:E; [|done].
  cbn [mbind outcome_bind]. intros [= <-]. simpl.
  apply attachObjectsToTables_identity in E. split; [done|].
  apply (f_equal length) in E. by rewrite !length_map in E.
Qed.

Lemma parse_keeps_the_objects_witness :
  parse scenario_dump = Done {| objects := [scenario_object]; residual := [] |}
  /\ map identity [scenario_object]
     = map identity (c_objects (classify_all scenario_dump)).
Proof.
  assert (H : parse scenario_dump
              = Done {| objects := [scenario_object]; residual := [] |})
    by (vm_compute; reflexivity).
  split; [exact H|]. exact (proj1 (parse_keeps_the_objects _ _ H)).
Defined.

Lemma find_lastParenIndex_none tableDefinition :
  (")"%char ∉ tableDefinition)
  \/ ((";"%char ∉ tableDefinition) /\ tableDefinition !! 0 <> Some ")"%char) ->
  find_lastParenIndex tableDefinition = None.
Proof.
  intros H. destruct (find_lastParenIndex tableDefinition) as [i|] eqn:E; [|done].
  exfalso. destruct H as [H|[H1 H2]].
  - apply find_lastParenIndex_spec in E as [E _].
    apply H. by eapply list_elem_of_lookup_2.
  - unfold find_lastParenIndex, JS.lastIndexOf_at in E.
    destruct (JS.lastIndexOf ";" tableDefinition) as [p|] eqn:Hp.
    + unfold JS.lastIndexOf in Hp. apply rfind_spec in Hp as (_ & Hp & _).
      apply H1. by eapply list_elem_of_lookup_2.
    + apply rfind_spec in E as (Hlt & E & _).
      replace i with 0 in E by lia. done.
Qed.

Lemma attachSequencesToTable_no_paren tableDefinition :
  find_lastParenIndex tableDefinition = None ->
  forall l, attachSequencesToTable tableDefinition l = Done tableDefinition.
Proof.
  intros Hnone. induction l as [|sq l IH]; [done|].
  cbn [attachSequencesToTable].
  assert (attach_sequence tableDefinition sq = Done tableDefinition) as ->; [|done].
  unfold attach_sequence, findTableColumnDefinition. rewrite Hnone.
  by destruct (Regex.exec Patterns.TABLE_HEADER_REGEX tableDefinition).
Qed.

(** Without a closing parenthesis at or before the last semicolon nothing
    is inlined: when the table definition holds no closing parenthesis, or
    holds no semicolon at all (the search position [-1] is clamped to index
    0) and does not start with a closing parenthesis, it comes back from
    [attachSequencesToTable] and from [attachConstraintsToTable] as it is. *)
Theorem nothing_is_inlined_without_closing_parenthesis
    tableDefinition sequences constraints :
  (")"%char ∉ tableDefinition)
  \/ ((";"%char ∉ tableDefinition) /\ tableDefinition !! 0 <> Some ")"%char) ->
  attachSequencesToTable tableDefinition sequences = Done tableDefinition
  /\ attachConstraintsToTable tableDefinition constraints = tableDefinition.
Proof.
  intros H. apply find_lastParenIndex_none in H. split.
  - by apply attachSequencesToTable_no_paren.
  - unfold attachConstraintsToTable. by rewrite H.
Qed.

Lemma nothing_is_inlined_without_closing_parenthesis_witness :
  let tableDefinition := lit "CREATE TABLE public.users (id int)" in
  ((")"%char ∉ tableDefinition)
   \/ ((";"%char ∉ tableDefinition) /\ tableDefinition !! 0 <> Some ")"%char))
  /\ attachSequencesToTable tableDefinition [example_sequence] = Done tableDefinition
  /\ attachConstraintsToTable tableDefinition [example_constraint] = tableDefinition.
Proof.
  intros tableDefinition.
  assert (H : (")"%char ∉ tableDefinition)
              \/ ((";"%char ∉ tableDefinition)
                  /\ tableDefinition !! 0 <> Some ")"%char)).
  { right. split; [|discriminate]. intros Hin. apply list_elem_of_In in Hin.
    vm_compute in Hin. intuition discriminate. }
  split; [exact H|].
  exact (nothing_is_inlined_without_closing_parenthesis tableDefinition
           [example_sequence] [example_constraint] H).
Defined.

Lemma drop_while_idempotent p s :
  JS.drop_while p (JS.drop_while p s) = JS.drop_while p s.
Proof.
  induction s as [|c s IH]; [done|]. simpl.
  destruct (p c) eqn:E; [done|]. simpl. by rewrite E.
Qed.

Lemma findTableColumnDefinition_trimmed tableDefinition column cd :
  findTableColumnDefinition tableDefinition column = Done (Some cd) ->
  JS.trimStart (cd_definition cd) = cd_definition cd.
Proof.
  unfold findTableColumnDefinition.
  destruct (Regex.exec Patterns.TABLE_HEADER_REGEX tableDefinition); [|done].
  destruct (find_lastParenIndex tableDefinition); [|done].
  destruct (getTableColumnRegex column); [|done]. cbn [mbind outcome_bind].
  destruct (findIndex _ _); [|done]. intros [= <-]. cbn [cd_definition].
  apply drop_while_idempotent.
Qed.

(** The column definition [findTableColumnDefinition] returns is where it
    says: it is the text of the table definition from [startPos] up to
    [endPos], leading white space and the trailing comma left out, and both
    positions lie inside the table definition. *)
Theorem column_definition_is_located tableDefinition column cd :
  findTableColumnDefinition tableDefinition column = Done (Some cd) ->
  cd_startPos cd <= cd_endPos cd
  /\ cd_endPos cd <= length tableDefinition
  /\ JS.slice (cd_startPos cd) (cd_endPos cd) tableDefinition = cd_definition cd
  /\ JS.trimStart (cd_definition cd) = cd_definition cd.
Proof.
  intros H. destruct (findTableColumnDefinition_located _ _ _ H) as (H1 & H2 & H3).
  split; [done|]. split; [done|]. split; [done|].
  by eapply findTableColumnDefinition_trimmed.
Qed.

Lemma column_definition_is_located_witness :
  findTableColumnDefinition example_sequence_table (lit "name")
  = Done (Some {| cd_definition := lit "name text"; cd_startPos := 44; cd_endPos := 53 |})
  /\ JS.slice 44 53 example_sequence_table = lit "name text".
Proof.
  assert (H : findTableColumnDefinition example_sequence_table (lit "name")
              = Done (Some {| cd_definition := lit "name text"; cd_startPos := 44;
                              cd_endPos := 53 |})) by (vm_compute; reflexivity).
  split; [exact H|].
  exact (proj1 (proj2 (proj2 (column_definition_is_located _ _ _ H)))).
Defined.

(** The attachment engine touches tables and views only, and only those
    with attachable statements filed under their qualified name: every
    other object comes back unchanged, at the position it had. *)
Theorem only_tables_with_attachables_are_touched
    objects attachableStatements objects' i object :
  attachObjectsToTables objects attachableStatements = Done objects' ->
  objects !! i = Some object ->
  is_table_or_view (o_type object) = false
  \/ groupAttachablesByTable attachableStatements
       !! makeQualifiedName (o_schema object) (o_name object) = None ->
  objects' !! i = Some object.
Proof.
  unfold attachObjectsToTables. intros H Hi Hcase.
  apply map_outcome_Forall2 in H.
  destruct (Forall2_lookup_l _ _ _ _ _ H Hi) as (object' & Hi' & Ha).
  rewrite Hi'. f_equal. unfold attach_object in Ha.
  destruct (is_table_or_view (o_type object)) eqn:Ek.
  - destruct Hcase as [?|Hnone]; [done|]. rewrite Hnone in Ha. by injection Ha.
  - by injection Ha.
Qed.

Lemma only_tables_with_attachables_are_touched_witness :
  attachObjectsToTables [example_table] [example_index] = Done [example_table]
  /\ groupAttachablesByTable [example_index]
       !! makeQualifiedName (o_schema example_table) (o_name example_table) = None
  /\ [example_table] !! 0 = Some example_table.
Proof.
  assert (H1 : attachObjectsToTables [example_table] [example_index]
               = Done [example_table]) by (vm_compute; reflexivity).
  assert (H2 : groupAttachablesByTable [example_index]
                 !! makeQualifiedName (o_schema example_table) (o_name example_table)
               = None) by (vm_compute; reflexivity).
  split; [exact H1|]. split; [exact H2|].
  exact (only_tables_with_attachables_are_touched
           [example_table] [example_index] [example_table] 0 example_table
           H1 eq_refl (or_intror H2)).
Defined.

(* ================================================================== *)
(** * Facts about [detectIndent] *)

Lemma gcd_fuel_correct : forall fuel a b,
  b < fuel -> gcd_fuel fuel a b = Nat.gcd a b.
Proof.
  induction fuel as [|fuel IH]; intros a b Hb; [lia|]. simpl.
  destruct (Nat.eqb_spec b 0) as [->|Hne].
  - by rewrite Nat.gcd_0_r.
  - rewrite IH.
    + rewrite (Nat.gcd_comm b (a `mod` b)), Nat.Lcm0.gcd_mod. apply Nat.gcd_comm.
    + pose proof (Nat.mod_upper_bound a b Hne). lia.
Qed.

Lemma gcd_correct a b : gcd a b = Nat.gcd a b.
Proof. unfold gcd. apply gcd_fuel_correct. lia. Qed.

Lemma foldl_gcd_divides : forall counts n,
  Nat.divide (foldl gcd n counts) n
  /\ Forall (Nat.divide (foldl gcd n counts)) counts.
Proof.
  induction counts as [|m counts IH]; intros n; simpl.
  - split; [done|constructor].
  - rewrite gcd_correct. destruct (IH (Nat.gcd n m)) as [H1 H2].
    split; [|constructor; [|done]].
    + etrans; [exact H1|apply Nat.gcd_divide_l].
    + etrans; [exact H1|apply Nat.gcd_divide_r].
Qed.

Lemma foldl_gcd_greatest d : forall counts n,
  Nat.divide d n -> Forall (Nat.divide d) counts ->
  Nat.divide d (foldl gcd n counts).
Proof.
  induction counts as [|m counts IH]; intros n Hn Hc; simpl; [done|].
  apply Forall_cons in Hc as [Hm Hc]. apply IH; [|done].
  rewrite gcd_correct. by apply Nat.gcd_greatest.
Qed.

Lemma foldl_gcd_positive : forall counts n,
  0 < n -> 0 < foldl gcd n counts.
Proof.
  induction counts as [|m counts IH]; intros n Hn; simpl; [done|].
  apply IH. rewrite gcd_correct.
  destruct (Nat.gcd n m) eqn:E; [|lia].
  apply Nat.gcd_eq_0_l in E. lia.
Qed.

Lemma reduce_gcd_positive counts :
  counts <> [] -> Forall (lt 0) counts -> 0 < reduce_gcd counts.
Proof.
  destruct counts as [|n counts]; [done|]. intros _ H.
  apply Forall_cons in H as [Hn _]. by apply foldl_gcd_positive.
Qed.

(** The unit that [detectIndent] takes from a list of indentation widths,
    [counts.reduce(gcd)], divides every width, and every common divisor of
    the widths divides it: it is their greatest common divisor. *)
Theorem indent_unit_is_the_greatest_common_divisor counts d :
  Forall (Nat.divide (reduce_gcd counts)) counts
  /\ (counts <> [] -> Forall (Nat.divide d) counts ->
      Nat.divide d (reduce_gcd counts)).
Proof.
  destruct counts as [|n counts]; [split; [constructor|done]|].
  unfold reduce_gcd. destruct (foldl_gcd_divides counts n) as [H1 H2].
  split; [by constructor|].
  intros _ H. apply Forall_cons in H as [Hn Hc]. by apply foldl_gcd_greatest.
Qed.

Lemma leading_blanks_blank line m :
  Regex.exec Patterns.LEADING_BLANKS_REGEX line = Some m ->
  forallb blank (Regex.whole m) = true.
Proof.
  intros H. apply exec_sound in H as (Hin & Hm & _).
  unfold Patterns.LEADING_BLANKS_REGEX in Hm.
  apply matches_Cat_inv in Hm as (l & H1 & H2).
  apply matches_Bol_inv in H1 as [Hi ->].
  unfold Regex.whole. rewrite Hin, Hi.
  by apply (run_slice line _ _ _ (matches_star_chr _ _ _ _ H2)).
Qed.

Lemma count_indent_keys ws : forall freq k,
  k ∈ (count_indent ws freq).*1 -> k = ws \/ k ∈ freq.*1.
Proof.
  induction freq as [|[key n] freq IH]; intros k; simpl.
  - rewrite list_elem_of_singleton. by left.
  - destruct (bool_decide (key = ws)); simpl; [by right|].
    rewrite !elem_of_cons. intros [->|H]; [by right; left|].
    apply IH in H as [->|H]; [by left|by right; right].
Qed.

Lemma foldl_count_indent_keys : forall indents freq k,
  k ∈ (foldl (fun freq ws => count_indent ws freq) freq indents).*1 ->
  k ∈ indents \/ k ∈ freq.*1.
Proof.
  induction indents as [|ws indents IH]; intros freq k; simpl; [by right|].
  intros H. apply IH in H as [H|H]; [by left; right|].
  apply count_indent_keys in H as [->|H]; [by left; left|by right].
Qed.

Lemma insert_by_count_perm e : forall sorted,
  insert_by_count e sorted ≡ₚ e :: sorted.
Proof.
  induction sorted as [|e' sorted IH]; simpl; [done|].
  destruct (e.2 <? e'.2); [|done]. rewrite IH. apply Permutation_swap.
Qed.

Lemma sort_by_count_perm entries : sort_by_count entries ≡ₚ entries.
Proof.
  unfold sort_by_count. induction entries as [|e entries IH]; simpl; [done|].
  by rewrite insert_by_count_perm, IH.
Qed.

Lemma filter_all {A} (P : A -> Prop) `{!forall x, Decision (P x)} (l : list A) :
  Forall P l -> filter P l = l.
Proof.
  induction 1 as [|x l Hx Hl IH]; [done|].
  rewrite filter_cons_True by done. by rewrite IH.
Qed.

Lemma filter_none {A} (P : A -> Prop) `{!forall x, Decision (P x)} (l : list A) :
  filter P l = [] -> Forall (fun x => ~ P x) l.
Proof.
  induction l as [|x l IH]; [constructor|].
  destruct (decide (P x)) as [Hx|Hx].
  - by rewrite filter_cons_True.
  - rewrite filter_cons_False by done. intros Hf. constructor; auto.
Qed.

(** The indentation that [detectIndent] reports is well formed: [amount] is
    the length of [indent], [indent] consists of spaces and tabs only, and
    [type] is [tab] exactly when [indent] starts with a tab. *)
Theorem detected_indent_is_well_formed string :
  amount (detectIndent string) = length (indent (detectIndent string))
  /\ forallb blank (indent (detectIndent string)) = true
  /\ starts_with_char Char.TAB (indent (detectIndent string))
     = match indent_type (detectIndent string) with
       | tab => true
       | space => false
       end.
Proof.
  unfold detectIndent.
  match goal with |- context [filter ?P ?l] => set (indents := filter P l) end.
  assert (Hind : Forall (fun ws => forallb blank ws = true /\ 0 < length ws) indents).
  { apply Forall_forall. intros ws Hin. subst indents.
    apply list_elem_of_filter in Hin as [Hlen Hin]. split; [|done].
    apply list_elem_of_In, in_map_iff in Hin as (line & <- & _).
    destruct (Regex.exec _ line) as [m|] eqn:E; [|done].
    by eapply leading_blanks_blank. }
  clearbody indents.
  destruct (Nat.eqb_spec (length indents) 0) as [E0|E0]; [done|].
  destruct (sort_by_count _) as [|[most cnt] rest] eqn:Es; [done|].
  assert (Hmost : most ∈ indents).
  { assert (H : (most, cnt) ∈ sort_by_count
                 (foldl (fun freq ws => count_indent ws freq) [] indents)).
    { rewrite Es. by left. }
    rewrite sort_by_count_perm in H.
    apply (list_elem_of_fmap_2 fst) in H. simpl in H.
    apply foldl_count_indent_keys in H as [H|H]; [done|].
    by apply elem_of_nil in H. }
  rewrite Forall_forall in Hind.
  destruct (length indents <? 2 * cnt).
  { simpl. destruct (Hind _ Hmost) as [Hb _]. split; [done|]. split; [done|].
    by destruct (starts_with_char Char.TAB most). }
  destruct (0 <? length _) eqn:Esp.
  { simpl. rewrite length_replicate. split; [done|]. split.
    - apply forallb_forall. intros c Hc.
      apply list_elem_of_In, elem_of_replicate in Hc as [-> _]. done.
    - by destruct (reduce_gcd _). }
  simpl. rewrite length_replicate. split; [done|]. split.
  { apply forallb_forall. intros c Hc.
    apply list_elem_of_In, elem_of_replicate in Hc as [-> _]. done. }
  apply Nat.ltb_ge in Esp. rewrite length_map in Esp.
  assert (Hsp : filter (fun ws => starts_with_char " " ws = true) indents = []).
  { destruct (filter _ indents); [done|simpl in Esp; lia]. }
  apply filter_none in Hsp. rewrite Forall_forall in Hsp.
  assert (Htab : Forall (fun ws => starts_with_char Char.TAB ws = true) indents).
  { apply Forall_forall. intros ws Hin.
    destruct (Hind _ Hin) as [Hb Hlen]. specialize (Hsp _ Hin).
    destruct ws as [|c ws]; [simpl in Hlen; lia|].
    simpl in Hb, Hsp |- *. apply andb_true_iff in Hb as [Hb _].
    unfold blank in Hb. apply orb_true_iff in Hb as [Hb|Hb]; [done|done]. }
  rewrite (filter_all _ _ Htab).
  assert (Hpos : 0 < reduce_gcd (map length indents)).
  { apply reduce_gcd_positive.
    - destruct indents; [done|done].
    - apply Forall_forall. intros n Hn.
      apply list_elem_of_In, in_map_iff in Hn as (ws & <- & Hin).
      apply list_elem_of_In in Hin. by destruct (Hind _ Hin). }
  destruct (reduce_gcd _); [lia|done].
Qed.

(* ================================================================== *)
(** * Schema defaulting, from the text of the statement *)

Section QualifierFacts.
Import Regex.

Lemma sqo_captures s g_schema g_name i c j c' :
  matches_with s (Patterns.SCHEMA_QUALIFIED_OBJECT_PATTERN g_schema g_name) i c j c' ->
  c' = (g_name, (i, j)) :: c
  \/ exists j1, c' = (g_name, (S j1, j)) :: (g_schema, (i, j1)) :: c
                /\ s !! j1 = Some "."%char.
Proof.
  unfold Patterns.SCHEMA_QUALIFIED_OBJECT_PATTERN, Opt. intros H.
  apply with_Cat_inv in H as (j0 & c0 & H1 & H2).
  apply with_Group_inv in H2 as (c2 & H2 & ->).
  apply matches_with_group_free in H2 as ->; [|reflexivity].
  inversion H1 as [| | |? ? ? ? ? ? Hl|? ? ? ? ? ? Hr| | | | | |]; subst.
  - right. apply with_Cat_inv in Hl as (j1 & c1 & Hg & Hd).
    apply with_Group_inv in Hg as (c3 & Hg & ->).
    apply matches_with_group_free in Hg as ->; [|reflexivity].
    apply with_free_inv in Hd as [Hd ->]; [|reflexivity].
    apply matches_Chr_inv in Hd as [-> (ch & Hch & Hp)].
    apply Ascii.eqb_eq in Hp as <-. by exists j1.
  - left. by inversion Hr; subst.
Qed.

Lemma identifier_first s i j :
  matches s Patterns.IDENTIFIER_PATTERN i j ->
  exists ch, s !! i = Some ch /\ starts_identifier ch = true.
Proof.
  unfold Patterns.IDENTIFIER_PATTERN. intros H.
  inversion H as [| | |? ? ? ? Hl|? ? ? ? Hr| | | | | |]; subst.
  - apply matches_Cat_inv in Hl as (l & Hl & _).
    apply matches_Chr_inv in Hl as [_ (ch & Hch & Hp)].
    exists ch. split; [done|]. unfold starts_identifier. by rewrite Hp.
  - cbn [seq] in Hr. apply matches_Cat_inv in Hr as (l & Hr & _).
    apply matches_Chr_inv in Hr as [_ (ch & Hch & Hp)].
    exists ch. split; [done|]. unfold starts_identifier.
    rewrite Ascii.eqb_sym, Hp. apply orb_true_r.
Qed.

Lemma kw_first s a l i j :
  matches s (kw_chars (a :: l)) i j ->
  exists ch, s !! i = Some ch /\ Char.eqb_ci a ch = true.
Proof.
  destruct l as [|a' l]; cbn [kw_chars]; intros H.
  - apply matches_Chr_inv in H as [_ (ch & Hch & Hp)]. eauto.
  - apply matches_Cat_inv in H as (l0 & H & _).
    apply matches_Chr_inv in H as [_ (ch & Hch & Hp)]. eauto.
Qed.

Lemma keyword_starts_identifier ch :
  Char.eqb_ci "W" ch = true \/ Char.eqb_ci "S" ch = true ->
  starts_identifier ch = true.
Proof.
  destruct ch as [[] [] [] [] [] [] [] []]; vm_compute; intros [H|H];
    first [reflexivity | discriminate].
Qed.

Lemma optional_group_captures s g r r' i c j c' :
  group_free r = true -> group_free r' = true ->
  matches_with s (Opt (Cat (Group g r) r')) i c j c' ->
  c' = c \/ exists span, c' = (g, span) :: c.
Proof.
  intros Hr Hr' H. unfold Opt in H.
  inversion H as [| | |? ? ? ? ? ? Hl|? ? ? ? ? ? He| | | | | |]; subst.
  - right. apply with_Cat_inv in Hl as (j1 & c1 & Hg & Hf).
    apply with_Group_inv in Hg as (c2 & Hg & ->).
    apply matches_with_group_free in Hg as ->; [|done].
    apply matches_with_group_free in Hf as ->; [|done]. eauto.
  - left. by inversion He.
Qed.

(** Walks along the spine of a sequence pattern and collects the captures
    of its elements. *)
Ltac walk H :=
  repeat match type of H with
  | matches_with _ (Cat (Patterns.SCHEMA_QUALIFIED_OBJECT_PATTERN _ _) _) _ _ _ _ =>
      let Hs := fresh "Hsqo" in
      apply with_Cat_inv in H as (? & ? & Hs & H);
      apply sqo_captures in Hs as [->|(? & -> & ?)]
  | matches_with _ (Cat (Group _ _) _) _ _ _ _ =>
      let Hg := fresh "Hg" in
      apply with_Cat_inv in H as (? & ? & Hg & H);
      apply with_Group_inv in Hg as (? & Hg & ->);
      apply matches_with_group_free in Hg as ->; [|reflexivity]
  | matches_with _ (Cat (Opt (Cat (Group _ _) _)) _) _ _ _ _ =>
      let Ho := fresh "Ho" in
      apply with_Cat_inv in H as (? & ? & Ho & H);
      apply optional_group_captures in Ho as [->|(? & ->)];
      [| |reflexivity|reflexivity]
  | matches_with _ (Cat _ _) _ _ _ _ =>
      let Hf := fresh "Hf" in
      apply with_Cat_inv in H as (? & ? & Hf & H);
      apply matches_with_group_free in Hf as ->; [|reflexivity]
  | matches_with _ (Patterns.SCHEMA_QUALIFIED_OBJECT_PATTERN _ _) _ _ _ _ =>
      apply sqo_captures in H as [H|(? & H & ?)]
  | matches_with _ (Group _ _) _ _ _ _ =>
      apply with_Group_inv in H as (? & H & ?)
  end.

Lemma qualifier_needs_dot parser s m a b :
  parser ∈ drop 2 PARSER_REGISTRY ->
  exec (p_regex parser) s = Some m ->
  capture_of (object_group (p_type parser)) (m_groups m) = Some (a, b) ->
  omits_schema_qualifier (p_type parser) s a b ->
  capture_of (schema_group (p_type parser)) (m_groups m) = None.
Proof.
  intros Hin H Hname Homits. apply exec_captures in H.
  destruct m as [input index e groups]. cbn [m_index m_end m_groups] in *.
  unfold PARSER_REGISTRY in Hin. cbn [drop] in Hin.
  repeat (apply elem_of_cons in Hin as [->|Hin]);
    [..|by apply elem_of_nil in Hin];
    cbv beta iota delta [p_regex p_type TypeParser DomainParser FunctionParser
      ProcedureParser TableParser SequenceParser ViewParser ConstraintParser
      IndexParser GeneralParser
      Patterns.TypeParser_regex Patterns.DomainParser_regex
      Patterns.FunctionParser_regex Patterns.ProcedureParser_regex
      Patterns.TableParser_regex Patterns.SequenceParser_regex
      Patterns.ViewParser_regex Patterns.ConstraintParser_regex
      Patterns.IndexParser_regex Patterns.create_regex seq
      schema_group object_group omits_schema_qualifier] in *.
  all: walk H.
  all: try (apply matches_with_group_free in H; [|reflexivity]).
  all: subst; cbn [capture_of Nat.eqb] in *; try done.
  all: injection Hname as <- <-; by eelim Homits.
Qed.

Lemma optional_keyword_first s keyword i j :
  matches s (Opt (Cat ws1 (kw_chars keyword))) i j ->
  j = i
  \/ exists k, i < k
       /\ (forall l, i <= l < k ->
             exists w, s !! l = Some w /\ Char.is_space w = true)
       /\ matches s (kw_chars keyword) k j.
Proof.
  unfold Opt. intros H.
  inversion H as [| | |? ? ? ? Hl|? ? ? ? He| | | | | |]; subst.
  - right. apply matches_Cat_inv in Hl as (k & Hw & Hk).
    apply matches_plus_chr in Hw as [Hlt Hw]. eauto.
  - left. by inversion He.
Qed.

Lemma extension_schema_needs_identifier s m a b :
  exec Patterns.ExtensionParser_regex s = Some m ->
  capture_of 1 (m_groups m) = Some (a, b) ->
  omits_schema_qualifier (object_type extension) s a b ->
  capture_of 2 (m_groups m) = None.
Proof.
  intros H Hname Homits. apply exec_captures in H.
  destruct m as [input index e groups]. cbn [m_index m_end m_groups] in *.
  cbv beta iota delta [Patterns.ExtensionParser_regex seq omits_schema_qualifier] in *.
  walk H. unfold Opt at 1 in H.
  inversion H as [| | |? ? ? ? ? ? Hl|? ? ? ? ? ? He| | | | | |]; subst.
  2:{ inversion He; subst. cbn [capture_of Nat.eqb]. done. }
  exfalso.
  apply with_Cat_inv in Hl as (j1 & c1 & H1 & Hl).
  apply with_free_inv in H1 as [H1 ->]; [|reflexivity].
  apply with_Cat_inv in Hl as (j2 & c2 & H2 & Hl).
  apply with_free_inv in H2 as [H2 ->]; [|reflexivity].
  apply with_Cat_inv in Hl as (j3 & c3 & H3 & Hl).
  apply with_free_inv in H3 as [H3 ->]; [|reflexivity].
  apply with_Group_inv in Hl as (c4 & Hl & ->).
  apply with_free_inv in Hl as [Hl ->]; [|reflexivity].
  cbn [capture_of Nat.eqb] in Hname. injection Hname as <- <-.
  apply optional_keyword_first in H1 as [->|(k & Hk & Hw & H1)].
  2:{ apply kw_first in H1 as (ch & Hch & Hci).
      pose proof (keyword_starts_identifier ch (or_introl Hci)) as Hst.
      by rewrite (Homits _ _ Hk Hw Hch) in Hst. }
  apply optional_keyword_first in H2 as [->|(k & Hk & Hw & H2)].
  2:{ apply kw_first in H2 as (ch & Hch & Hci).
      pose proof (keyword_starts_identifier ch (or_intror Hci)) as Hst.
      by rewrite (Homits _ _ Hk Hw Hch) in Hst. }
  apply matches_plus_chr in H3 as [Hk Hw].
  apply identifier_first in Hl as (ch & Hch & Hst).
  by rewrite (Homits _ _ Hk Hw Hch) in Hst.
Qed.

Lemma omitted_qualifier_is_undefined parser statement m a b :
  parser ∈ PARSER_REGISTRY ->
  p_type parser <> object_type schema ->
  exec (p_regex parser) statement = Some m ->
  capture_of (object_group (p_type parser)) (m_groups m) = Some (a, b) ->
  omits_schema_qualifier (p_type parser) statement a b ->
  group m (schema_group (p_type parser)) = None.
Proof.
  intros Hin Hs H Hname Homits. unfold group.
  assert (capture_of (schema_group (p_type parser)) (m_groups m) = None) as ->;
    [|done].
  unfold PARSER_REGISTRY in Hin.
  apply elem_of_cons in Hin as [->|Hin]; [done|].
  apply elem_of_cons in Hin as [->|Hin].
  - by eapply extension_schema_needs_identifier.
  - by eapply qualifier_needs_dot.
Qed.

End QualifierFacts.



